(** * Ledger-apply pipeline of stellar-core: transaction sets, fees, fee bumps
    and footprint gathering.

    A shallow embedding of
      - src/herder/TxSetFrame.cpp
      - src/herder/TxSetUtils.cpp
      - src/transactions/FeeBumpTransactionFrame.cpp
      - src/transactions/InvokeHostFunctionOpFrame.cpp
    followed by the properties established about it. *)

From Stdlib Require Import ZArith NArith List Lia.
From Stdlib.Strings Require Import Byte.
From stdpp Require Import base numbers option list sorting gmap.

Local Open Scope Z_scope.

(* ===================================================================== *)
(** * Part I: definitions                                                 *)
(* ===================================================================== *)

(** ** Primitive data *)

(** A 256-bit [Hash] (xdr::opaque_array<32>) is held as the natural number
    its 32 bytes denote in big-endian order; the lexicographic [operator<]
    of the array is then [N.ltb] and byte-wise XOR is [N.lxor]. *)
Definition Hash := N.

(** An account identifier (an ed25519 public key) as a number. *)
Definition AccountID := N.

(** The bytes of a hash as they are fed to a hasher, most significant
    first. *)
Definition hashBytes (h : Hash) : list byte :=
  map (fun i : nat =>
         default Byte.x00
           (Byte.of_N ((h / 256 ^ N.of_nat (31 - i)) mod 256)%N))
      (seq 0 32).

Definition INT64_MAX : Z := 2 ^ 63 - 1.
Definition INT64_MIN : Z := - 2 ^ 63.

(** int64 arithmetic. Where the code adds, subtracts, negates or
    multiplies int64 values the model computes the exact result and brings
    it back into the range of an int64 by wrap-around, which is what an
    overflowing signed operation does on the two's-complement targets
    stellar-core is built for. *)
Definition wrap64 (z : Z) : Z := (z + 2 ^ 63) mod 2 ^ 64 - 2 ^ 63.

(** The number is in the range of an int64. *)
Definition fitsInt64 (z : Z) : Prop := INT64_MIN <= z <= INT64_MAX.
Definition UINT32_MOD : N := (2 ^ 32)%N.
Definition SIZE_MOD : N := (2 ^ 64)%N.

(** [MAX_OPS_PER_TX] comes from the XDR definitions (not among the given
    sources); its value is the hard cap of 100 operations per transaction. *)
Definition MAX_OPS_PER_TX : N := 100%N.

(** SHA-256 (crypto/SHA.h) is an external collaborator: an arbitrary
    function from byte strings to hashes. A streaming hasher fed several
    chunks returns the hash of their concatenation. *)
Class SHA := { sha256 : list byte -> Hash }.

(** ** Ledger header and ledger state *)

Record LedgerHeader := {
  ledgerVersion : N;      (* uint32 *)
  ledgerSeq : N;          (* uint32 *)
  baseFee : Z;            (* uint32 in XDR, widened to int64 where it is used *)
  maxTxSetSize : N;       (* uint32 *)
  feePool : Z;            (* int64 *)
}.

Record AccountEntry := {
  balance : Z;            (* int64 *)
  accSeqNum : Z;          (* int64 *)
}.

(** The part of a ledger transaction (LedgerTxn) the embedded code touches:
    the header and the account entries. *)
Record LedgerTxn := {
  ltxHeader : LedgerHeader;
  ltxAccounts : gmap AccountID AccountEntry;
}.

Definition loadAccount (ltx : LedgerTxn) (id : AccountID) : option AccountEntry :=
  ltxAccounts ltx !! id.

(** ** Transactions as seen through TransactionFrameBase *)

(** A value of this record is a TransactionFrameBasePtr, the shared
    pointer through which the code handles a transaction frame: the
    address the pointer holds and what the accessors of the frame at that
    address return. [getEnvelope] is the XDR serialization
    [xdr::xdr_to_opaque(getEnvelope())] of the envelope, signatures
    included. An address holds one frame, so two pointers with the same
    address are the same value, while a frame of equal content behind
    another pointer (one rebuilt from the wire, say) is a different value:
    the comparison of two shared pointers is the equality of values. *)
Record TransactionFrameBase := {
  frameAddress : N;
  getEnvelope : list byte;
  getSourceID : AccountID;
  getFeeSourceID : AccountID;
  getSeqNum : Z;               (* SequenceNumber, int64 *)
  getNumOperations : N;        (* uint32 *)
  getFeeBid : Z;               (* int64 *)
}.

Global Instance byte_eq_dec : EqDecision byte := Byte.byte_eq_dec.

Global Instance TransactionFrameBase_eq_dec : EqDecision TransactionFrameBase.
Proof. solve_decision. Defined.

(** FeeBumpTransactionFrame::getFullHash (and its TransactionFrame sibling):
    the hash of the whole envelope. The cache in [mFullHash] only saves
    recomputation. *)
Definition getFullHash `{SHA} (tx : TransactionFrameBase) : Hash :=
  sha256 (getEnvelope tx).

(** The remaining virtual calls on a transaction that the given sources use
    but do not define: validity against a ledger state with the last
    sequence number seen for the account, and the minimum fee under a
    header. *)
Class TxExternals := {
  tx_checkValid : TransactionFrameBase -> LedgerTxn -> Z -> bool;
  tx_getMinFee : TransactionFrameBase -> LedgerHeader -> Z;
}.

(** getAvailableBalance (TransactionUtils.cpp, not among the given sources):
    what an account can spend under a header, after reserve and
    liabilities. *)
Class AccountExternals := {
  getAvailableBalance : LedgerHeader -> AccountEntry -> Z;
}.

(** ** Sorting *)

(** [x] may stand before [y] in a range sorted with comparator [comp]. *)
Definition in_order {A} (comp : A -> A -> bool) (x y : A) : Prop :=
  comp y x = false.

Global Instance in_order_dec {A} (comp : A -> A -> bool) (x y : A) :
  Decision (in_order comp x y).
Proof. unfold in_order. apply _. Defined.

(** [std::sort(first, last, comp)]: the result is a permutation of the input
    in which no element is [comp]-smaller than an earlier one. The relative
    order of equivalent elements is unspecified in C++; the model fixes one
    admissible choice (a merge sort), and the theorems that depend on that
    order carry an explicit hypothesis excluding ties. *)
Definition std_sort {A} (comp : A -> A -> bool) (l : list A) : list A :=
  merge_sort (in_order comp) l.

(** [std::is_sorted(first, last, comp)]: no adjacent pair is out of order. *)
Fixpoint is_sorted {A} (comp : A -> A -> bool) (l : list A) : bool :=
  match l with
  | [] => true
  | x :: tl =>
      match tl with
      | [] => true
      | y :: _ => negb (comp y x) && is_sorted comp tl
      end
  end.

(** Modelled from the spec: lessThanXored (util/types.h) is not among the
    given sources; `lessThan_xor(x,y,s)` compares `x XOR s` with `y XOR s`
    lexicographically. *)
Definition lessThanXored (l r x : Hash) : bool :=
  (N.lxor l x <? N.lxor r x)%N.

(** ** TxSetFrame *)

Record TxSetFrame := {
  mHashIsValid : bool;
  mHash : Hash;
  mPreviousLedgerHash : Hash;
  mTransactions : list TransactionFrameBase;
}.

(** TxSetFrame::TxSetFrame(Hash const& previousLedgerHash) *)
Definition TxSetFrame_new (previousLedgerHash : Hash) : TxSetFrame :=
  {| mHashIsValid := false; mHash := 0%N;
     mPreviousLedgerHash := previousLedgerHash; mTransactions := [] |}.

(** TxSetFrame::TxSetFrame(Hash const& networkID, TransactionSet const& xdrSet):
    one frame per envelope of [xdrSet.txs], in the order of the wire form. *)
Definition TxSetFrame_fromXDR (previousLedgerHash : Hash)
    (txs : list TransactionFrameBase) : TxSetFrame :=
  {| mHashIsValid := false; mHash := 0%N;
     mPreviousLedgerHash := previousLedgerHash;
     mTransactions := fold_left (fun acc tx => acc ++ [tx]) txs [] |}.

Definition HashTxSorter `{SHA} (tx1 tx2 : TransactionFrameBase) : bool :=
  (getFullHash tx1 <? getFullHash tx2)%N.

Definition SeqSorter (tx1 tx2 : TransactionFrameBase) : bool :=
  getSeqNum tx1 <? getSeqNum tx2.


(** TxSetFrame::sortForHash *)
Definition sortForHash `{SHA} (s : TxSetFrame) : TxSetFrame :=
  {| mHashIsValid := false; mHash := mHash s;
     mPreviousLedgerHash := mPreviousLedgerHash s;
     mTransactions := std_sort HashTxSorter (mTransactions s) |}.

(** TxSetFrame::removeTx. [std::find] compares the shared pointers: the
    first pointer equal to [tx] is erased, and a frame of equal content
    behind another pointer is not. *)
Fixpoint remove_first (tx : TransactionFrameBase)
    (l : list TransactionFrameBase) : list TransactionFrameBase :=
  match l with
  | [] => []
  | x :: tl => if decide (x = tx) then tl else x :: remove_first tx tl
  end.

Definition removeTx (tx : TransactionFrameBase) (s : TxSetFrame) : TxSetFrame :=
  {| mHashIsValid := false; mHash := mHash s;
     mPreviousLedgerHash := mPreviousLedgerHash s;
     mTransactions := remove_first tx (mTransactions s) |}.

(** TxSetFrame::getContentsHash. The hasher is the list of bytes added so
    far; [finish] hashes it. Returns the hash and the updated frame (the
    call sorts [mTransactions] and fills the cache). *)
Definition getContentsHash `{SHA} (s : TxSetFrame) : Hash * TxSetFrame :=
  if mHashIsValid s then (mHash s, s)
  else
    let s1 := sortForHash s in
    let hasher0 := hashBytes (mPreviousLedgerHash s1) in
    let hasher :=
      fold_left (fun acc tx => acc ++ getEnvelope tx) (mTransactions s1) hasher0 in
    let h := sha256 hasher in
    (h, {| mHashIsValid := true; mHash := h;
           mPreviousLedgerHash := mPreviousLedgerHash s1;
           mTransactions := mTransactions s1 |}).

(** TxSetFrame::sizeTx, sizeOp (size_t arithmetic) and size. *)
Definition sizeTx (s : TxSetFrame) : N := N.of_nat (length (mTransactions s)).

Definition sizeOp (s : TxSetFrame) : N :=
  fold_left (fun a tx => ((a + getNumOperations tx) mod SIZE_MOD)%N)
            (mTransactions s) 0%N.

Definition size (lh : LedgerHeader) (s : TxSetFrame) : N :=
  if (11 <=? ledgerVersion lh)%N then sizeOp s else sizeTx s.

(** ** Account queues and the apply order *)

(** TxSetFrame::buildAccountTxQueues. The unordered_map from source account
    to its deque of transactions is a [gmap]; every transaction is appended
    to the queue of its source (created empty on first sight), then every
    queue is sorted by sequence number. *)
Definition addToQueue (m : gmap AccountID (list TransactionFrameBase))
    (tx : TransactionFrameBase) : gmap AccountID (list TransactionFrameBase) :=
  let id := getSourceID tx in
  <[id := default [] (m !! id) ++ [tx]]> m.

Definition buildAccountTxQueues (txs : list TransactionFrameBase)
    : gmap AccountID (list TransactionFrameBase) :=
  std_sort SeqSorter <$> fold_left addToQueue txs ∅.

(** The queues in the order in which the map is iterated. C++ leaves the
    iteration order of an unordered_map unspecified; [map_to_list] is one
    such order. *)
Definition queuesOf (m : gmap AccountID (list TransactionFrameBase))
    : list (list TransactionFrameBase) :=
  (map_to_list m).*2.






(** ** Surge pricing *)

(** Modelled from the spec: bigMultiply (util/numeric128.h) is not among the
    given sources; the product is taken "using 128-bit multiplication", that
    is, exactly. *)
Definition bigMultiply (a b : Z) : Z := a * b.

(** SurgeCompare::operator(). A queue pointer is [None] for nullptr. [mSeed]
    is the random seed drawn when the comparator is built. *)
Definition SurgeCompare `{SHA} `{TxExternals} (mSeed : Hash) (mHeader : LedgerHeader)
    (tx1 tx2 : option (list TransactionFrameBase)) : bool :=
  match tx1 with
  | None | Some [] =>
      match tx2 with
      | Some q2 => negb (bool_decide (q2 = []))
      | None => false
      end
  | Some (top1 :: _) =>
      match tx2 with
      | None | Some [] => false
      | Some (top2 :: _) =>
          let v1 := bigMultiply (getFeeBid top1) (tx_getMinFee top2 mHeader) in
          let v2 := bigMultiply (getFeeBid top2) (tx_getMinFee top1 mHeader) in
          if v1 <? v2 then true
          else if v2 <? v1 then false
          else lessThanXored (getFullHash top1) (getFullHash top2) mSeed
      end
  end.

(** [std::priority_queue::top] followed by [pop]: a greatest element under
    the comparator and the remaining elements. The queue is a bag; the model
    keeps it as a list and scans it, holding the greatest element so far. *)
Fixpoint popTopFrom {A} (comp : A -> A -> bool) (best : A) (seen rest : list A)
    : A * list A :=
  match rest with
  | [] => (best, seen)
  | x :: tl =>
      if comp best x then popTopFrom comp x (seen ++ [best]) tl
      else popTopFrom comp best (seen ++ [x]) tl
  end.

Definition popTop {A} (comp : A -> A -> bool) (heap : list A) : option (A * list A) :=
  match heap with
  | [] => None
  | x :: tl => Some (popTopFrom comp x [] tl)
  end.

(** The state of the selection loop of surgePricingFilter. *)
Record SurgeState := {
  opsLeft : N;                                      (* size_t *)
  surgeQueue : list (list TransactionFrameBase);    (* the priority queue *)
  updatedSet : list TransactionFrameBase;
}.

(** The number of operations a transaction counts for: its own from
    protocol 11 on, a full transaction's worth before. *)
Definition opsCountOf (maxIsOps : bool) (tx : TransactionFrameBase) : N :=
  if maxIsOps then getNumOperations tx else MAX_OPS_PER_TX.

(** One iteration of [while (opsLeft > 0 && !surgeQueue.empty())];
    [None] when the loop condition is false. *)
Definition surgeStep (comp : list TransactionFrameBase -> list TransactionFrameBase -> bool)
    (maxIsOps : bool) (st : SurgeState) : option SurgeState :=
  if (0 <? opsLeft st)%N then
    match popTop comp (surgeQueue st) with
    | None => None
    | Some (cur, heap') =>
        match cur with
        | [] => Some {| opsLeft := opsLeft st; surgeQueue := heap';
                        updatedSet := updatedSet st |}
        | curTopTx :: cur' =>
            let opsCount := opsCountOf maxIsOps curTopTx in
            if (opsCount <=? opsLeft st)%N then
              Some {| opsLeft := (opsLeft st - opsCount)%N;
                      surgeQueue := match cur' with
                                    | [] => heap'
                                    | _ :: _ => heap' ++ [cur']
                                    end;
                      updatedSet := updatedSet st ++ [curTopTx] |}
            else
              Some {| opsLeft := opsLeft st; surgeQueue := heap';
                      updatedSet := updatedSet st |}
        end
    end
  else None.

Fixpoint surgeLoop (comp : list TransactionFrameBase -> list TransactionFrameBase -> bool)
    (maxIsOps : bool) (fuel : nat) (st : SurgeState) : SurgeState :=
  match fuel with
  | O => st
  | S fuel' =>
      match surgeStep comp maxIsOps st with
      | None => st
      | Some st' => surgeLoop comp maxIsOps fuel' st'
      end
  end.

(** TxSetFrame::surgePricingFilter. [lastMaxTxSetSizeOps] is what
    LedgerManager::getLastMaxTxSetSizeOps returns and [seed] the random seed
    of the comparator. Every iteration removes a transaction from the
    queues, so [length txs] iterations suffice. *)
Definition surgePricingFilter `{SHA} `{TxExternals} (header : LedgerHeader)
    (lastMaxTxSetSizeOps : N) (seed : Hash) (s : TxSetFrame) : TxSetFrame :=
  let maxIsOps := (11 <=? ledgerVersion header)%N in
  let curSizeOps :=
    if maxIsOps then sizeOp s else ((sizeTx s * MAX_OPS_PER_TX) mod SIZE_MOD)%N in
  if (lastMaxTxSetSizeOps <? curSizeOps)%N then
    let actTxQueueMap := buildAccountTxQueues (mTransactions s) in
    let surge q1 q2 := SurgeCompare seed header (Some q1) (Some q2) in
    let st0 := {| opsLeft := lastMaxTxSetSizeOps;
                  surgeQueue := queuesOf actTxQueueMap;
                  updatedSet := [] |} in
    let st := surgeLoop surge maxIsOps (length (mTransactions s)) st0 in
    sortForHash {| mHashIsValid := mHashIsValid s; mHash := mHash s;
                   mPreviousLedgerHash := mPreviousLedgerHash s;
                   mTransactions := updatedSet st |}
  else s.

(** ** Validation of a transaction set *)

(** How a call ends: normally with a value, by [return false], or by an
    exception (a missing fee-source entry is dereferenced). *)
Inductive Outcome (A : Type) : Type :=
  | Normal (a : A)
  | ReturnedFalse
  | Thrown.
Arguments Normal {A} a.
Arguments ReturnedFalse {A}.
Arguments Thrown {A}.

(** What checkOrTrim works on: the fee totals per fee source, the trimmed
    transactions and the frame itself. *)
Record TrimState := {
  accountFeeMap : gmap AccountID Z;
  trimmed : list TransactionFrameBase;
  frame : TxSetFrame;
}.

(** The saturating addition of checkOrTrim on [accountFeeMap[feeSource]];
    [operator[]] yields 0 for a new key. *)
Definition addFeeBid (m : gmap AccountID Z) (tx : TransactionFrameBase)
    : gmap AccountID Z :=
  let id := getFeeSourceID tx in
  let accFee := default 0 (m !! id) in
  if INT64_MAX - accFee <? getFeeBid tx then <[id := INT64_MAX]> m
  else <[id := accFee + getFeeBid tx]> m.

(** First loop of checkOrTrim over one account queue: returns the state and
    the queue with the invalid transactions erased. *)
Fixpoint checkQueueValidity `{TxExternals} (ltx : LedgerTxn) (justCheck : bool)
    (q : list TransactionFrameBase) (lastSeq : Z) (st : TrimState)
    : Outcome (TrimState * list TransactionFrameBase) :=
  match q with
  | [] => Normal (st, [])
  | tx :: rest =>
      if negb (tx_checkValid tx ltx lastSeq) then
        if justCheck then ReturnedFalse
        else
          let st' := {| accountFeeMap := accountFeeMap st;
                        trimmed := trimmed st ++ [tx];
                        frame := removeTx tx (frame st) |} in
          checkQueueValidity ltx justCheck rest lastSeq st'
      else
        let st' := {| accountFeeMap := addFeeBid (accountFeeMap st) tx;
                      trimmed := trimmed st;
                      frame := frame st |} in
        match checkQueueValidity ltx justCheck rest (getSeqNum tx) st' with
        | Normal (st'', kept) => Normal (st'', tx :: kept)
        | ReturnedFalse => ReturnedFalse
        | Thrown => Thrown
        end
  end.

Fixpoint checkAllValidity `{TxExternals} (ltx : LedgerTxn) (justCheck : bool)
    (qs : list (list TransactionFrameBase)) (st : TrimState)
    : Outcome (TrimState * list (list TransactionFrameBase)) :=
  match qs with
  | [] => Normal (st, [])
  | q :: rest =>
      match checkQueueValidity ltx justCheck q 0 st with
      | Normal (st', q') =>
          match checkAllValidity ltx justCheck rest st' with
          | Normal (st'', rest') => Normal (st'', q' :: rest')
          | ReturnedFalse => ReturnedFalse
          | Thrown => Thrown
          end
      | ReturnedFalse => ReturnedFalse
      | Thrown => Thrown
      end
  end.

(** Trimming the rest of a queue in the second loop of checkOrTrim. *)
Definition trimAll (q : list TransactionFrameBase) (st : TrimState) : TrimState :=
  fold_left (fun st tx => {| accountFeeMap := accountFeeMap st;
                             trimmed := trimmed st ++ [tx];
                             frame := removeTx tx (frame st) |}) q st.

(** Second loop of checkOrTrim over one account queue. *)
Fixpoint checkQueueFees `{AccountExternals} (ltx : LedgerTxn) (justCheck : bool)
    (q : list TransactionFrameBase) (st : TrimState) : Outcome TrimState :=
  match q with
  | [] => Normal st
  | tx :: rest =>
      match loadAccount ltx (getFeeSourceID tx) with
      | None => Thrown
      | Some feeSource =>
          let totFee := default 0 (accountFeeMap st !! getFeeSourceID tx) in
          if getAvailableBalance (ltxHeader ltx) feeSource <? totFee then
            if justCheck then ReturnedFalse
            else Normal (trimAll (tx :: rest) st)
          else checkQueueFees ltx justCheck rest st
      end
  end.

Fixpoint checkAllFees `{AccountExternals} (ltx : LedgerTxn) (justCheck : bool)
    (qs : list (list TransactionFrameBase)) (st : TrimState) : Outcome TrimState :=
  match qs with
  | [] => Normal st
  | q :: rest =>
      match checkQueueFees ltx justCheck q st with
      | Normal st' => checkAllFees ltx justCheck rest st'
      | ReturnedFalse => ReturnedFalse
      | Thrown => Thrown
      end
  end.

(** TxSetFrame::checkOrTrim: [Normal] stands for [return true]. *)
Definition checkOrTrim `{TxExternals} `{AccountExternals} (ltx : LedgerTxn) (justCheck : bool)
    (trimmed0 : list TransactionFrameBase) (s : TxSetFrame) : Outcome TrimState :=
  let accountTxMap := queuesOf (buildAccountTxQueues (mTransactions s)) in
  let st0 := {| accountFeeMap := ∅; trimmed := trimmed0; frame := s |} in
  match checkAllValidity ltx justCheck accountTxMap st0 with
  | Normal (st1, accountTxMap') => checkAllFees ltx justCheck accountTxMap' st1
  | ReturnedFalse => ReturnedFalse
  | Thrown => Thrown
  end.

(** TxSetFrame::trimInvalid *)
Definition trimInvalid `{SHA} `{TxExternals} `{AccountExternals} (ltx : LedgerTxn) (s : TxSetFrame)
    : Outcome (list TransactionFrameBase * TxSetFrame) :=
  match checkOrTrim ltx false [] (sortForHash s) with
  | Normal st => Normal (trimmed st, frame st)
  | ReturnedFalse => ReturnedFalse
  | Thrown => Thrown
  end.

(** The last closed ledger as LedgerManager::getLastClosedLedgerHeader
    reports it. *)
Record LedgerHeaderHistoryEntry := {
  lclHash : Hash;
  lclHeader : LedgerHeader;
}.

(** TxSetFrame::checkValid: [Some b] when the call returns [b], [None] when
    it ends by an exception. *)
Definition checkValid `{SHA} `{TxExternals} `{AccountExternals} (lcl : LedgerHeaderHistoryEntry)
    (ltx : LedgerTxn) (s : TxSetFrame) : option bool :=
  if negb (bool_decide (lclHash lcl = mPreviousLedgerHash s)) then Some false
  else if (maxTxSetSize (lclHeader lcl) <? size (lclHeader lcl) s)%N then Some false
  else if negb (is_sorted HashTxSorter (mTransactions s)) then Some false
  else
    match checkOrTrim ltx true [] s with
    | Normal _ => Some true
    | ReturnedFalse => Some false
    | Thrown => None
    end.

(** ** Base fee of a transaction set *)

Inductive Rounding := ROUND_DOWN | ROUND_UP.

(** Modelled from the spec: bigDivide (util/numeric.h) is not among the given
    sources; it returns A*B/C, and the "rounding mode is always round-up for
    fee division", giving the per-operation bid as the ceiling of
    feeBid/ops. *)
Definition bigDivide (A B C : Z) (rounding : Rounding) : Z :=
  match rounding with
  | ROUND_DOWN => (A * B) / C
  | ROUND_UP => (A * B + C - 1) / C
  end.

(** TxSetFrame::getBaseFee *)
Definition getBaseFee (lh : LedgerHeader) (s : TxSetFrame) : Z :=
  let baseFee0 := baseFee lh in
  if (11 <=? ledgerVersion lh)%N then
    let '(ops, lowBaseFee) :=
      fold_left
        (fun '(ops, lowBaseFee) txPtr =>
           let txOps := getNumOperations txPtr in
           let txBaseFee :=
             bigDivide (getFeeBid txPtr) 1 (Z.of_N txOps) ROUND_UP in
           (((ops + txOps) mod SIZE_MOD)%N, Z.min lowBaseFee txBaseFee))
        (mTransactions s) (0%N, INT64_MAX) in
    let surgeOpsCutoff :=
      if (MAX_OPS_PER_TX <=? maxTxSetSize lh)%N
      then (maxTxSetSize lh - MAX_OPS_PER_TX)%N else 0%N in
    if (surgeOpsCutoff <? ops)%N then lowBaseFee else baseFee0
  else baseFee0.

(** ** Fee-bump transactions *)

(** What FeeBumpTransactionFrame asks of the inner TransactionFrame
    ([mInnerTx]); TransactionFrame.cpp is not among the given sources, so the
    record holds the values its accessors return. *)
Record TransactionFrame := {
  tf_getInclusionFee : Z;                  (* int64 *)
  tf_isSoroban : bool;
  tf_declaredSorobanResourceFee : Z;       (* int64 *)
  tf_getNumOperations : N;                 (* uint32 *)
  tf_XDRProvidesValidFee : bool;
}.

Record FeeBumpTransactionFrame := {
  fb_fee : Z;                 (* mEnvelope.feeBump().tx.fee, int64 *)
  fb_feeSource : AccountID;   (* mEnvelope.feeBump().tx.feeSource *)
  mInnerTx : TransactionFrame;
}.

Inductive TransactionResultCode :=
  | txFEE_BUMP_INNER_SUCCESS
  | txSUCCESS
  | txFAILED
  | txTOO_EARLY
  | txTOO_LATE
  | txMISSING_OPERATION
  | txBAD_SEQ
  | txBAD_AUTH
  | txINSUFFICIENT_BALANCE
  | txNO_ACCOUNT
  | txINSUFFICIENT_FEE
  | txBAD_AUTH_EXTRA
  | txINTERNAL_ERROR
  | txNOT_SUPPORTED
  | txFEE_BUMP_INNER_FAILED
  | txBAD_SPONSORSHIP
  | txBAD_MIN_SEQ_AGE_OR_GAP
  | txMALFORMED
  | txSOROBAN_INVALID.

(** The part of a MutableTransactionResult the embedded code writes. *)
Record TxResult := {
  resultCode : TransactionResultCode;
  feeCharged : Z;        (* int64 *)
}.

Definition setResultCode (c : TransactionResultCode) (r : TxResult) : TxResult :=
  {| resultCode := c; feeCharged := feeCharged r |}.

Definition setFeeCharged (f : Z) (r : TxResult) : TxResult :=
  {| resultCode := resultCode r; feeCharged := f |}.

(** Collaborators of the fee-bump frame that the given sources call but do
    not define: the minimum inclusion fee per operation under a header (the
    rate behind getMinInclusionFee) and the signature check of the fee
    source. *)
Class FeeBumpExternals := {
  minFeePerOp : LedgerHeader -> Z;
  fb_checkSignature : FeeBumpTransactionFrame -> AccountEntry -> bool;
}.

(** Modelled from the spec: getMinInclusionFee (TransactionUtils.cpp) is not
    among the given sources; the spec gives the minimum inclusion fee as a
    rate per operation, so a transaction of [numOps] operations (counted as
    at least one, as in getFee) owes [numOps] times that rate. *)
Definition getMinInclusionFee `{FeeBumpExternals} (numOps : N)
    (header : LedgerHeader) : Z :=
  minFeePerOp header * Z.max 1 (Z.of_N numOps).

(** Modelled from the spec: bigDivide128 (util/numeric128.h) is not among the
    given sources; it divides a 128-bit value with the "round-up" mode of fee
    division and reports whether the quotient fits an int64. *)
Definition bigDivide128 (a C : Z) (rounding : Rounding) : option Z :=
  let q := match rounding with
           | ROUND_DOWN => a / C
           | ROUND_UP => (a + C - 1) / C
           end in
  if q <=? INT64_MAX then Some q else None.

(** Modelled from the spec: addBalance on a raw balance (TransactionUtils.cpp)
    is not among the given sources; "negative balances are forbidden", so the
    balance changes by [delta] unless the result would leave the range of a
    non-negative int64. *)
Definition addBalance (bal delta : Z) : Z * bool :=
  if delta =? 0 then (bal, true)
  else if (bal + delta <? 0) || (INT64_MAX <? bal + delta) then (bal, false)
  else (bal + delta, true).

Definition fb_getFullFee (tx : FeeBumpTransactionFrame) : Z := fb_fee tx.

Definition fb_isSoroban (tx : FeeBumpTransactionFrame) : bool :=
  tf_isSoroban (mInnerTx tx).

Definition fb_declaredSorobanResourceFee (tx : FeeBumpTransactionFrame) : Z :=
  tf_declaredSorobanResourceFee (mInnerTx tx).

(** FeeBumpTransactionFrame::getInclusionFee *)
Definition fb_getInclusionFee (tx : FeeBumpTransactionFrame) : Z :=
  if fb_isSoroban tx
  then wrap64 (fb_getFullFee tx - fb_declaredSorobanResourceFee tx)
  else fb_getFullFee tx.

(** FeeBumpTransactionFrame::XDRProvidesValidFee *)
Definition fb_XDRProvidesValidFee (tx : FeeBumpTransactionFrame) : bool :=
  if fb_getFullFee tx <? 0 then false
  else tf_XDRProvidesValidFee (mInnerTx tx).

(** FeeBumpTransactionFrame::getNumOperations (uint32 arithmetic) *)
Definition fb_getNumOperations (tx : FeeBumpTransactionFrame) : N :=
  ((tf_getNumOperations (mInnerTx tx) + 1) mod UINT32_MOD)%N.

Definition fb_getFeeSourceID (tx : FeeBumpTransactionFrame) : AccountID :=
  fb_feeSource tx.

(** FeeBumpTransactionFrame::getFee. The product and the sums are int64
    operations ([std::max<int64_t>] widens the operation count, a
    uint32). *)
Definition fb_getFee (tx : FeeBumpTransactionFrame) (header : LedgerHeader)
    (optBaseFee : option Z) (applying : bool) : Z :=
  match optBaseFee with
  | None => fb_getFullFee tx
  | Some baseFee =>
      let flatFee :=
        if tf_isSoroban (mInnerTx tx)
        then tf_declaredSorobanResourceFee (mInnerTx tx) else 0 in
      let adjustedFee :=
        wrap64 (baseFee * Z.max 1 (Z.of_N (fb_getNumOperations tx))) in
      if applying
      then wrap64 (flatFee + Z.min (fb_getInclusionFee tx) adjustedFee)
      else wrap64 (flatFee + adjustedFee)
  end.

(** FeeBumpTransactionFrame::createResultPayloadWithFeeCharged (the inner
    result payload it also builds plays no part below). *)
Definition fb_createResultPayloadWithFeeCharged (tx : FeeBumpTransactionFrame)
    (header : LedgerHeader) (optBaseFee : option Z) (applying : bool) : TxResult :=
  {| resultCode := txFEE_BUMP_INNER_SUCCESS;
     feeCharged := fb_getFee tx header optBaseFee applying |}.

(** FeeBumpTransactionFrame::commonValidPreSeqNum: the boolean returned and
    the result as the call leaves it. *)
Definition fb_commonValidPreSeqNum `{FeeBumpExternals}
    (tx : FeeBumpTransactionFrame) (ltx : LedgerTxn) (txResult : TxResult)
    : bool * TxResult :=
  let header := ltxHeader ltx in
  if (ledgerVersion header <? 13)%N then
    (false, setResultCode txNOT_SUPPORTED txResult)
  else
    let inclusionFee := fb_getInclusionFee tx in
    let minInclusionFee := getMinInclusionFee (fb_getNumOperations tx) header in
    if inclusionFee <? minInclusionFee then
      (false, setResultCode txINSUFFICIENT_FEE txResult)
    else if tf_getInclusionFee (mInnerTx tx) <? 0 then
      (false, setResultCode txFEE_BUMP_INNER_FAILED txResult)
    else
      let lh := header in
      let v1 := bigMultiply (fb_getInclusionFee tx)
                  (getMinInclusionFee (tf_getNumOperations (mInnerTx tx)) lh) in
      let v2 := bigMultiply (tf_getInclusionFee (mInnerTx tx))
                  (getMinInclusionFee (fb_getNumOperations tx) lh) in
      if v1 <? v2 then
        let txResult' :=
          match bigDivide128 v2
                  (getMinInclusionFee (tf_getNumOperations (mInnerTx tx)) lh)
                  ROUND_UP with
          | Some q => setFeeCharged q txResult
          | None => setFeeCharged INT64_MAX txResult
          end in
        (false, setResultCode txINSUFFICIENT_FEE txResult')
      else
        match loadAccount ltx (fb_getFeeSourceID tx) with
        | None => (false, setResultCode txNO_ACCOUNT txResult)
        | Some _ => (true, txResult)
        end.

Inductive ValidationType := kInvalid | kInvalidPostAuth | kFullyValid.

(** FeeBumpTransactionFrame::commonValid. The nested LedgerTxn it opens is
    never committed and nothing is written through it. *)
Definition fb_commonValid `{FeeBumpExternals} `{AccountExternals} (tx : FeeBumpTransactionFrame)
    (ltxOuter : LedgerTxn) (applying : bool) (txResult : TxResult)
    : ValidationType * TxResult :=
  let ltx := ltxOuter in
  match fb_commonValidPreSeqNum tx ltx txResult with
  | (false, txResult') => (kInvalid, txResult')
  | (true, txResult') =>
      match loadAccount ltx (fb_getFeeSourceID tx) with
      | None => (kInvalid, txResult')
      | Some feeSource =>
          if negb (fb_checkSignature tx feeSource) then
            (kInvalid, setResultCode txBAD_AUTH txResult')
          else
            let feeToPay := if applying then 0 else fb_getFullFee tx in
            if getAvailableBalance (ltxHeader ltx) feeSource <? feeToPay then
              (kInvalidPostAuth, setResultCode txINSUFFICIENT_BALANCE txResult')
            else (kFullyValid, txResult')
      end
  end.

(** FeeBumpTransactionFrame::processFeeSeqNum: the result payload and the
    ledger state after the call; [None] when the fee source is missing and
    the call throws. The negation of the fee and the addition to the fee
    pool are int64 operations. *)
Definition fb_processFeeSeqNum (tx : FeeBumpTransactionFrame) (ltx : LedgerTxn)
    (optBaseFee : option Z) : option (TxResult * LedgerTxn) :=
  let txResult :=
    fb_createResultPayloadWithFeeCharged tx (ltxHeader ltx) optBaseFee true in
  match loadAccount ltx (fb_getFeeSourceID tx) with
  | None => None
  | Some acc =>
      let header := ltxHeader ltx in
      let fee := feeCharged txResult in
      if 0 <? fee then
        let fee' := Z.min (balance acc) fee in
        let acc' := {| balance :=
                         fst (addBalance (balance acc) (wrap64 (- fee')));
                       accSeqNum := accSeqNum acc |} in
        let header' := {| ledgerVersion := ledgerVersion header;
                          ledgerSeq := ledgerSeq header;
                          baseFee := baseFee header;
                          maxTxSetSize := maxTxSetSize header;
                          feePool := wrap64 (feePool header + fee') |} in
        Some (setFeeCharged fee' txResult,
              {| ltxHeader := header';
                 ltxAccounts := <[fb_getFeeSourceID tx := acc']> (ltxAccounts ltx) |})
      else Some (txResult, ltx)
  end.

(** ** TxSetUtils: AccountTransactionQueue *)

Module TxSetUtils.

(** class AccountTransactionQueue: the deque [mTxs] and the operation
    counter [mNumOperations], a uint32 that starts at 0. *)
Record AccountTransactionQueue := {
  mTxs : list TransactionFrameBase;
  mNumOperations : N;
}.

(** The constructor: [None] when releaseAssert(!mTxs.empty()) fails. The
    counter is summed over the constructor's argument. *)
Definition AccountTransactionQueue_new (accountTxs : list TransactionFrameBase)
    : option AccountTransactionQueue :=
  match accountTxs with
  | [] => None
  | _ :: _ =>
      Some {| mTxs := std_sort SeqSorter accountTxs;
              mNumOperations :=
                fold_left (fun n tx => ((n + getNumOperations tx) mod UINT32_MOD)%N)
                          accountTxs 0%N |}
  end.

(** AccountTransactionQueue::getTopTx *)
Definition getTopTx (q : AccountTransactionQueue) : option TransactionFrameBase :=
  head (mTxs q).

(** AccountTransactionQueue::empty *)
Definition empty (q : AccountTransactionQueue) : bool :=
  bool_decide (mTxs q = []).

(** AccountTransactionQueue::popTopTx: [None] when the assertion fails.
    The subtraction is uint32 arithmetic. *)
Definition popTopTx (q : AccountTransactionQueue) : option AccountTransactionQueue :=
  match mTxs q with
  | [] => None
  | front :: rest =>
      Some {| mTxs := rest;
              mNumOperations :=
                ((mNumOperations q + UINT32_MOD - getNumOperations front mod UINT32_MOD)
                   mod UINT32_MOD)%N |}
  end.

(** TxSetUtils::hashTxSorter and TxSetUtils::sortTxsInHashOrder *)
Definition hashTxSorter `{SHA} (tx1 tx2 : TransactionFrameBase) : bool :=
  (getFullHash tx1 <? getFullHash tx2)%N.

Definition sortTxsInHashOrder `{SHA} (transactions : list TransactionFrameBase)
    : list TransactionFrameBase :=
  std_sort hashTxSorter transactions.

End TxSetUtils.

(** ** InvokeHostFunctionOpFrame: footprint gathering and host invocation *)

Module InvokeHostFunctionOpFrame.

Inductive LedgerEntryType :=
  | ACCOUNT | TRUSTLINE | OFFER | DATA | CLAIMABLE_BALANCE | LIQUIDITY_POOL
  | CONTRACT_DATA | CONTRACT_CODE | CONFIG_SETTING | EXPIRATION.

Inductive ContractDataDurability := TEMPORARY | PERSISTENT.

(** A ledger key: its kind, the durability it carries when it is a
    contract-data key, and the rest of the key as a number. *)
Record LedgerKey := {
  lk_type : LedgerEntryType;
  lk_durability : ContractDataDurability;
  lk_id : N;
}.

(** A ledger entry: the kind of its data, its key (LedgerEntryKey), the
    expiration ledger it holds and the XDR serialization of its
    ExpirationEntry when it is an expiration entry, the size of the code it
    holds when it is a contract-code entry, and its own XDR
    serialization. *)
Record LedgerEntry := {
  le_type : LedgerEntryType;
  le_key : LedgerKey;
  le_expirationLedgerSeq : N;      (* uint32 *)
  le_expiration_xdr : list byte;
  le_codeSize : N;
  le_xdr : list byte;
}.

Global Instance LedgerEntryType_eq_dec : EqDecision LedgerEntryType.
Proof. solve_decision. Defined.
Global Instance ContractDataDurability_eq_dec : EqDecision ContractDataDurability.
Proof. solve_decision. Defined.
Global Instance LedgerKey_eq_dec : EqDecision LedgerKey.
Proof. solve_decision. Defined.

(** The view of the ledger the operation works on: the current ledger
    sequence number, the ledger version and the entries by key. *)
Record Ledger := {
  hdr_ledgerSeq : N;             (* uint32 *)
  hdr_ledgerVersion : N;
  entries : LedgerKey -> option LedgerEntry;
}.

Definition loadWithoutRecord (ltx : Ledger) (lk : LedgerKey) : option LedgerEntry :=
  entries ltx lk.

Definition load (ltx : Ledger) (lk : LedgerKey) : option LedgerEntry :=
  entries ltx lk.

Definition setEntry (ltx : Ledger) (lk : LedgerKey) (v : option LedgerEntry) : Ledger :=
  {| hdr_ledgerSeq := hdr_ledgerSeq ltx;
     hdr_ledgerVersion := hdr_ledgerVersion ltx;
     entries := fun k => if decide (k = lk) then v else entries ltx k |}.

Record SorobanResources := {
  footprint_readOnly : list LedgerKey;
  footprint_readWrite : list LedgerKey;
  instructions : N;        (* uint32 *)
  readBytes : N;           (* uint32 *)
  writeBytes : N;          (* uint32 *)
}.

Record SorobanNetworkConfig := {
  maxContractSizeBytes : N;
  maxContractDataEntrySizeBytes : N;
  txMemoryLimit : N;
  txMaxContractEventsSizeBytes : N;
}.

Inductive InvokeHostFunctionResultCode :=
  | INVOKE_HOST_FUNCTION_SUCCESS
  | INVOKE_HOST_FUNCTION_MALFORMED
  | INVOKE_HOST_FUNCTION_TRAPPED
  | INVOKE_HOST_FUNCTION_RESOURCE_LIMIT_EXCEEDED
  | INVOKE_HOST_FUNCTION_ENTRY_EXPIRED
  | INVOKE_HOST_FUNCTION_INSUFFICIENT_REFUNDABLE_FEE.

(** What the host receives from the footprint: the instruction budget and
    the two parallel vectors of serialized entries and expirations. *)
Record HostInput := {
  in_instructions : N;
  in_ledgerEntries : list (list byte);
  in_expirationEntries : list (list byte);
}.

(** InvokeHostFunctionOutput, with the modified entries decoded and
    paired with the size of their buffers, and events by size. *)
Record InvokeHostFunctionOutput := {
  success : bool;
  cpu_insns : N;           (* uint64 *)
  mem_bytes : N;           (* uint64 *)
  modified_ledger_entries : list (LedgerEntry * N);
  contract_events : list N;
  result_value_size : N;
  rent_fee : Z;
}.

(** Collaborators the given sources call but do not define: the key of
    the expiration entry of a key, the XDR size of a key, the contract
    host ([None] when the call raises an exception) and the consumption of
    the refundable fee by the parent transaction. *)
Class HostExternals := {
  getExpirationKey : LedgerKey -> LedgerKey;
  xdr_size : LedgerKey -> N;
  invoke_host_function : HostInput -> option InvokeHostFunctionOutput;
  consumeRefundableSorobanResources : N -> Z -> bool;
}.

(** Modelled from the spec: isSorobanEntry (TransactionUtils.cpp) is not
    among the given sources; the entries with an expiration are the
    "contract-code / contract-data" entries. *)
Definition isSorobanEntry (t : LedgerEntryType) : bool :=
  bool_decide (t = CONTRACT_DATA) || bool_decide (t = CONTRACT_CODE).

(** Modelled from the spec: isTemporaryEntry (TransactionUtils.cpp) is not
    among the given sources; a "temporary entry" is a contract-data key of
    temporary durability. *)
Definition isTemporaryEntry (lk : LedgerKey) : bool :=
  bool_decide (lk_type lk = CONTRACT_DATA) &&
  bool_decide (lk_durability lk = TEMPORARY).

(** Modelled from the spec: isLive (TransactionUtils.cpp) is not among the
    given sources; an entry is expired when its
    `expirationLedger < currentLedgerSeq`. *)
Definition isLive (e : LedgerEntry) (ledgerSeq : N) : bool :=
  (ledgerSeq <=? le_expirationLedgerSeq e)%N.

Definition isCodeKey (lk : LedgerKey) : bool :=
  bool_decide (lk_type lk = CONTRACT_CODE).

(** The counters of HostFunctionMetrics (all uint32). *)
Record HostFunctionMetrics := {
  mReadEntry : N;
  mWriteEntry : N;
  mLedgerReadByte : N;
  mLedgerWriteByte : N;
  mReadKeyByte : N;
  mWriteKeyByte : N;
  mReadDataByte : N;
  mWriteDataByte : N;
  mReadCodeByte : N;
  mWriteCodeByte : N;
  mEmitEvent : N;
  mEmitEventByte : N;
  mCpuInsn : N;
  mMemByte : N;
  mMaxReadWriteKeyByte : N;
  mMaxReadWriteDataByte : N;
  mMaxReadWriteCodeByte : N;
  mMaxEmitEventByte : N;
  mSuccess : bool;
}.

Definition metrics0 : HostFunctionMetrics :=
  {| mReadEntry := 0; mWriteEntry := 0; mLedgerReadByte := 0;
     mLedgerWriteByte := 0; mReadKeyByte := 0; mWriteKeyByte := 0;
     mReadDataByte := 0; mWriteDataByte := 0; mReadCodeByte := 0;
     mWriteCodeByte := 0; mEmitEvent := 0; mEmitEventByte := 0;
     mCpuInsn := 0; mMemByte := 0; mMaxReadWriteKeyByte := 0;
     mMaxReadWriteDataByte := 0; mMaxReadWriteCodeByte := 0;
     mMaxEmitEventByte := 0; mSuccess := false |}.

Definition u32 (n : N) : N := (n mod UINT32_MOD)%N.

(** HostFunctionMetrics::noteReadEntry *)
Definition noteReadEntry (isCodeEntry : bool) (keySize entrySize : N)
    (m : HostFunctionMetrics) : HostFunctionMetrics :=
  {| mReadEntry := u32 (mReadEntry m + 1);
     mWriteEntry := mWriteEntry m;
     mLedgerReadByte := u32 (mLedgerReadByte m + entrySize);
     mLedgerWriteByte := mLedgerWriteByte m;
     mReadKeyByte := u32 (mReadKeyByte m + keySize);
     mWriteKeyByte := mWriteKeyByte m;
     mReadDataByte :=
       if isCodeEntry then mReadDataByte m else u32 (mReadDataByte m + entrySize);
     mWriteDataByte := mWriteDataByte m;
     mReadCodeByte :=
       if isCodeEntry then u32 (mReadCodeByte m + entrySize) else mReadCodeByte m;
     mWriteCodeByte := mWriteCodeByte m;
     mEmitEvent := mEmitEvent m;
     mEmitEventByte := mEmitEventByte m;
     mCpuInsn := mCpuInsn m;
     mMemByte := mMemByte m;
     mMaxReadWriteKeyByte := N.max (mMaxReadWriteKeyByte m) keySize;
     mMaxReadWriteDataByte :=
       if isCodeEntry then mMaxReadWriteDataByte m
       else N.max (mMaxReadWriteDataByte m) entrySize;
     mMaxReadWriteCodeByte :=
       if isCodeEntry then N.max (mMaxReadWriteCodeByte m) entrySize
       else mMaxReadWriteCodeByte m;
     mMaxEmitEventByte := mMaxEmitEventByte m;
     mSuccess := mSuccess m |}.

(** HostFunctionMetrics::noteWriteEntry *)
Definition noteWriteEntry (isCodeEntry : bool) (keySize entrySize : N)
    (m : HostFunctionMetrics) : HostFunctionMetrics :=
  {| mReadEntry := mReadEntry m;
     mWriteEntry := u32 (mWriteEntry m + 1);
     mLedgerReadByte := mLedgerReadByte m;
     mLedgerWriteByte := u32 (mLedgerWriteByte m + entrySize);
     mReadKeyByte := mReadKeyByte m;
     mWriteKeyByte := mWriteKeyByte m;
     mReadDataByte := mReadDataByte m;
     mWriteDataByte :=
       if isCodeEntry then mWriteDataByte m else u32 (mWriteDataByte m + entrySize);
     mReadCodeByte := mReadCodeByte m;
     mWriteCodeByte :=
       if isCodeEntry then u32 (mWriteCodeByte m + entrySize) else mWriteCodeByte m;
     mEmitEvent := mEmitEvent m;
     mEmitEventByte := mEmitEventByte m;
     mCpuInsn := mCpuInsn m;
     mMemByte := mMemByte m;
     mMaxReadWriteKeyByte := N.max (mMaxReadWriteKeyByte m) keySize;
     mMaxReadWriteDataByte :=
       if isCodeEntry then mMaxReadWriteDataByte m
       else N.max (mMaxReadWriteDataByte m) entrySize;
     mMaxReadWriteCodeByte :=
       if isCodeEntry then N.max (mMaxReadWriteCodeByte m) entrySize
       else mMaxReadWriteCodeByte m;
     mMaxEmitEventByte := mMaxEmitEventByte m;
     mSuccess := mSuccess m |}.

(** What doApply has built and set while it runs: the two buffers for the
    host, the metrics, the result code of the operation, the ledger, and
    the inputs of the calls made to the host so far. *)
Record ApplyState := {
  ledgerEntryCxxBufs : list (list byte);
  expirationEntryCxxBufs : list (list byte);
  metrics : HostFunctionMetrics;
  innerResultCode : InvokeHostFunctionResultCode;
  ltx : Ledger;
  hostCalls : list HostInput;
}.

Definition setCode (c : InvokeHostFunctionResultCode) (st : ApplyState) : ApplyState :=
  {| ledgerEntryCxxBufs := ledgerEntryCxxBufs st;
     expirationEntryCxxBufs := expirationEntryCxxBufs st;
     metrics := metrics st; innerResultCode := c; ltx := ltx st;
     hostCalls := hostCalls st |}.

Definition setMetrics (m : HostFunctionMetrics) (st : ApplyState) : ApplyState :=
  {| ledgerEntryCxxBufs := ledgerEntryCxxBufs st;
     expirationEntryCxxBufs := expirationEntryCxxBufs st;
     metrics := m; innerResultCode := innerResultCode st; ltx := ltx st;
     hostCalls := hostCalls st |}.

Definition setLedger (l : Ledger) (st : ApplyState) : ApplyState :=
  {| ledgerEntryCxxBufs := ledgerEntryCxxBufs st;
     expirationEntryCxxBufs := expirationEntryCxxBufs st;
     metrics := metrics st; innerResultCode := innerResultCode st; ltx := l;
     hostCalls := hostCalls st |}.

Definition pushBufs (leBuf expirationBuf : list byte) (st : ApplyState) : ApplyState :=
  {| ledgerEntryCxxBufs := ledgerEntryCxxBufs st ++ [leBuf];
     expirationEntryCxxBufs := expirationEntryCxxBufs st ++ [expirationBuf];
     metrics := metrics st; innerResultCode := innerResultCode st; ltx := ltx st;
     hostCalls := hostCalls st |}.

(** How one key of the footprint ends in [addReads]: the loop goes on,
    the lambda returns false (with the code set), or an exception leaves
    the operation. *)
Inductive ReadStep :=
  | GoOn (st : ApplyState)
  | Failed (st : ApplyState)
  | Threw.

(** The check on the read budget that ends the body of the loop. *)
Definition noteAndCheck (resources : SorobanResources) (lk : LedgerKey)
    (keySize entrySize : N) (st : ApplyState) : ReadStep :=
  let st' := setMetrics (noteReadEntry (isCodeKey lk) keySize entrySize (metrics st)) st in
  if (readBytes resources <? mLedgerReadByte (metrics st'))%N then
    Failed (setCode INVOKE_HOST_FUNCTION_RESOURCE_LIMIT_EXCEEDED st')
  else GoOn st'.

(** The body of the loop of the [addReads] lambda for one key [lk]. *)
Definition addReadsKey `{HostExternals} (resources : SorobanResources)
    (lk : LedgerKey) (st : ApplyState) : ReadStep :=
  let keySize := u32 (xdr_size lk) in
  match loadWithoutRecord (ltx st) lk with
  | None => noteAndCheck resources lk keySize 0%N st
  | Some le =>
      if isSorobanEntry (le_type le) then
        let expirationKey := getExpirationKey lk in
        match loadWithoutRecord (ltx st) expirationKey with
        | None => Threw
        | Some expirationLe =>
            if negb (isLive expirationLe (hdr_ledgerSeq (ltx st))) then
              if isTemporaryEntry lk then
                noteAndCheck resources lk keySize 0%N st
              else
                Failed (setCode INVOKE_HOST_FUNCTION_ENTRY_EXPIRED st)
            else
              let leBuf := le_xdr le in
              let expirationBuf := le_expiration_xdr expirationLe in
              let entrySize :=
                u32 (u32 (N.of_nat (length leBuf))
                     + u32 (N.of_nat (length expirationBuf))) in
              noteAndCheck resources lk keySize entrySize
                (pushBufs leBuf expirationBuf st)
        end
      else
        let leBuf := le_xdr le in
        let entrySize := u32 (N.of_nat (length leBuf)) in
        noteAndCheck resources lk keySize entrySize (pushBufs leBuf [] st)
  end.

(** The [addReads] lambda over a list of keys. *)
Fixpoint addReads `{HostExternals} (resources : SorobanResources)
    (keys : list LedgerKey) (st : ApplyState) : ReadStep :=
  match keys with
  | [] => GoOn st
  | lk :: rest =>
      match addReadsKey resources lk st with
      | GoOn st' => addReads resources rest st'
      | Failed st' => Failed st'
      | Threw => Threw
      end
  end.

Definition withMetrics (f : HostFunctionMetrics -> HostFunctionMetrics)
    (st : ApplyState) : ApplyState :=
  setMetrics (f (metrics st)) st.

Definition setHostMetrics (cpu mem : N) (m : HostFunctionMetrics)
    : HostFunctionMetrics :=
  {| mReadEntry := mReadEntry m; mWriteEntry := mWriteEntry m;
     mLedgerReadByte := mLedgerReadByte m;
     mLedgerWriteByte := mLedgerWriteByte m;
     mReadKeyByte := mReadKeyByte m; mWriteKeyByte := mWriteKeyByte m;
     mReadDataByte := mReadDataByte m; mWriteDataByte := mWriteDataByte m;
     mReadCodeByte := mReadCodeByte m; mWriteCodeByte := mWriteCodeByte m;
     mEmitEvent := mEmitEvent m; mEmitEventByte := mEmitEventByte m;
     mCpuInsn := u32 cpu; mMemByte := u32 mem;
     mMaxReadWriteKeyByte := mMaxReadWriteKeyByte m;
     mMaxReadWriteDataByte := mMaxReadWriteDataByte m;
     mMaxReadWriteCodeByte := mMaxReadWriteCodeByte m;
     mMaxEmitEventByte := mMaxEmitEventByte m;
     mSuccess := mSuccess m |}.

Definition setEmit (events bytes maxBytes : N) (ok : bool) (m : HostFunctionMetrics)
    : HostFunctionMetrics :=
  {| mReadEntry := mReadEntry m; mWriteEntry := mWriteEntry m;
     mLedgerReadByte := mLedgerReadByte m;
     mLedgerWriteByte := mLedgerWriteByte m;
     mReadKeyByte := mReadKeyByte m; mWriteKeyByte := mWriteKeyByte m;
     mReadDataByte := mReadDataByte m; mWriteDataByte := mWriteDataByte m;
     mReadCodeByte := mReadCodeByte m; mWriteCodeByte := mWriteCodeByte m;
     mEmitEvent := events; mEmitEventByte := bytes;
     mCpuInsn := mCpuInsn m; mMemByte := mMemByte m;
     mMaxReadWriteKeyByte := mMaxReadWriteKeyByte m;
     mMaxReadWriteDataByte := mMaxReadWriteDataByte m;
     mMaxReadWriteCodeByte := mMaxReadWriteCodeByte m;
     mMaxEmitEventByte := maxBytes;
     mSuccess := ok |}.

(** InvokeHostFunctionOpFrame::validateContractLedgerEntry *)
Definition validateContractLedgerEntry (le : LedgerEntry) (entrySize : N)
    (config : SorobanNetworkConfig) : bool :=
  if bool_decide (le_type le = CONTRACT_CODE)
     && (maxContractSizeBytes config <? le_codeSize le)%N then false
  else if bool_decide (le_type le = CONTRACT_DATA)
          && (maxContractDataEntrySizeBytes config <? entrySize)%N then false
  else true.

(** The loop over [out.modified_ledger_entries]: the state, with the keys
    created or modified and the keys created. *)
Fixpoint writeBack `{HostExternals} (resources : SorobanResources)
    (config : SorobanNetworkConfig) (bufs : list (LedgerEntry * N))
    (createdAndModifiedKeys createdKeys : list LedgerKey) (st : ApplyState)
    : ReadStep * list LedgerKey * list LedgerKey :=
  match bufs with
  | [] => (GoOn st, createdAndModifiedKeys, createdKeys)
  | (le, bufSize) :: rest =>
      if negb (validateContractLedgerEntry le bufSize config) then
        (Failed (setCode INVOKE_HOST_FUNCTION_RESOURCE_LIMIT_EXCEEDED st),
         createdAndModifiedKeys, createdKeys)
      else
        let lk := le_key le in
        let createdAndModifiedKeys' := createdAndModifiedKeys ++ [lk] in
        let keySize := u32 (xdr_size lk) in
        let entrySize := u32 bufSize in
        let st1 :=
          if bool_decide (lk_type lk = EXPIRATION) then st
          else withMetrics (noteWriteEntry (isCodeKey lk) keySize entrySize) st in
        if negb (bool_decide (lk_type lk = EXPIRATION))
           && (writeBytes resources <? mLedgerWriteByte (metrics st1))%N then
          (Failed (setCode INVOKE_HOST_FUNCTION_RESOURCE_LIMIT_EXCEEDED st1),
           createdAndModifiedKeys', createdKeys)
        else
          match load (ltx st1) lk with
          | Some _ =>
              writeBack resources config rest createdAndModifiedKeys' createdKeys
                (setLedger (setEntry (ltx st1) lk (Some le)) st1)
          | None =>
              writeBack resources config rest createdAndModifiedKeys'
                (createdKeys ++ [lk])
                (setLedger (setEntry (ltx st1) lk (Some le)) st1)
          end
  end.

(** Every created contract-code or contract-data key comes with its
    expiration key (releaseAssertOrThrow). *)
Definition createdWithExpiration `{HostExternals} (createdKeys : list LedgerKey) : bool :=
  forallb (fun key =>
             if isSorobanEntry (lk_type key)
             then bool_decide (getExpirationKey key ∈ createdKeys)
             else true) createdKeys.

(** The loop that erases the read-write keys the host did not return. *)
Fixpoint eraseNotReturned `{HostExternals} (keys createdAndModifiedKeys : list LedgerKey)
    (st : ApplyState) : ReadStep :=
  match keys with
  | [] => GoOn st
  | lk :: rest =>
      if bool_decide (lk ∈ createdAndModifiedKeys) then
        eraseNotReturned rest createdAndModifiedKeys st
      else
        match load (ltx st) lk with
        | None => eraseNotReturned rest createdAndModifiedKeys st
        | Some _ =>
            let l1 := setEntry (ltx st) lk None in
            if isSorobanEntry (lk_type lk) then
              let expirationLK := getExpirationKey lk in
              match load l1 expirationLK with
              | None => Threw
              | Some _ =>
                  eraseNotReturned rest createdAndModifiedKeys
                    (setLedger (setEntry l1 expirationLK None) st)
              end
            else eraseNotReturned rest createdAndModifiedKeys (setLedger l1 st)
        end
  end.

(** The loop over [out.contract_events]. *)
Fixpoint emitEvents (config : SorobanNetworkConfig) (events : list N)
    (st : ApplyState) : ReadStep :=
  match events with
  | [] => GoOn st
  | size :: rest =>
      let eventSize := u32 size in
      let m := metrics st in
      let st' :=
        setMetrics (setEmit (u32 (mEmitEvent m + 1))
                            (u32 (mEmitEventByte m + eventSize))
                            (N.max (mMaxEmitEventByte m) eventSize)
                            (mSuccess m) m) st in
      if (txMaxContractEventsSizeBytes config <? mEmitEventByte (metrics st'))%N then
        Failed (setCode INVOKE_HOST_FUNCTION_RESOURCE_LIMIT_EXCEEDED st')
      else emitEvents config rest st'
  end.

(** An output whose [success] is false and whose counters are zero: what
    [out] holds when the host call raises an exception. *)
Definition failedOutput : InvokeHostFunctionOutput :=
  {| success := false; cpu_insns := 0; mem_bytes := 0;
     modified_ledger_entries := []; contract_events := [];
     result_value_size := 0; rent_fee := 0 |}.

(** What doApply does once the footprint is gathered: the host is called
    and its output is checked, written back and accounted for. *)
Definition invokeAndFinish `{HostExternals} (config : SorobanNetworkConfig)
    (resources : SorobanResources) (st : ApplyState) : option (bool * ApplyState) :=
  let input := {| in_instructions := instructions resources;
                  in_ledgerEntries := ledgerEntryCxxBufs st;
                  in_expirationEntries := expirationEntryCxxBufs st |} in
  let out := default failedOutput (invoke_host_function input) in
  let st1 :=
    {| ledgerEntryCxxBufs := ledgerEntryCxxBufs st;
       expirationEntryCxxBufs := expirationEntryCxxBufs st;
       metrics := setHostMetrics (cpu_insns out) (mem_bytes out) (metrics st);
       innerResultCode := innerResultCode st; ltx := ltx st;
       hostCalls := hostCalls st ++ [input] |} in
  if negb (success out) then
    if (instructions resources <? cpu_insns out)%N then
      Some (false, setCode INVOKE_HOST_FUNCTION_RESOURCE_LIMIT_EXCEEDED st1)
    else if (txMemoryLimit config <? mem_bytes out)%N then
      Some (false, setCode INVOKE_HOST_FUNCTION_RESOURCE_LIMIT_EXCEEDED st1)
    else Some (false, setCode INVOKE_HOST_FUNCTION_TRAPPED st1)
  else
    match writeBack resources config (modified_ledger_entries out) [] [] st1 with
    | (Threw, _, _) => None
    | (Failed st2, _, _) => Some (false, st2)
    | (GoOn st2, createdAndModifiedKeys, createdKeys) =>
        if negb (createdWithExpiration createdKeys) then None
        else
          match eraseNotReturned (footprint_readWrite resources)
                  createdAndModifiedKeys st2 with
          | Threw => None
          | Failed st3 => Some (false, st3)
          | GoOn st3 =>
              match emitEvents config (contract_events out) st3 with
              | Threw => None
              | Failed st4 => Some (false, st4)
              | GoOn st4 =>
                  let m := metrics st4 in
                  let st5 :=
                    setMetrics
                      (setEmit (mEmitEvent m)
                               (u32 (mEmitEventByte m + result_value_size out))
                               (mMaxEmitEventByte m) (mSuccess m) m) st4 in
                  if (txMaxContractEventsSizeBytes config
                        <? mEmitEventByte (metrics st5))%N then
                    Some (false, setCode INVOKE_HOST_FUNCTION_RESOURCE_LIMIT_EXCEEDED st5)
                  else if negb (consumeRefundableSorobanResources
                                  (mEmitEventByte (metrics st5)) (rent_fee out)) then
                    Some (false,
                          setCode INVOKE_HOST_FUNCTION_INSUFFICIENT_REFUNDABLE_FEE st5)
                  else
                    let m5 := metrics st5 in
                    Some (true,
                          setMetrics
                            (setEmit (mEmitEvent m5) (mEmitEventByte m5)
                                     (mMaxEmitEventByte m5) true m5)
                            (setCode INVOKE_HOST_FUNCTION_SUCCESS st5))
              end
          end
    end.

(** The state doApply starts from: empty buffers, fresh metrics, the
    result code as the operation holds it, no call to the host yet. *)
Definition initialState (code0 : InvokeHostFunctionResultCode) (l : Ledger)
    : ApplyState :=
  {| ledgerEntryCxxBufs := []; expirationEntryCxxBufs := [];
     metrics := metrics0; innerResultCode := code0; ltx := l;
     hostCalls := [] |}.

(** InvokeHostFunctionOpFrame::doApply(app, ltx, sorobanBasePrngSeed):
    the boolean returned and the final state, [None] when an exception
    leaves the call. Diagnostic events are not modelled. *)
Definition doApply `{HostExternals} (config : SorobanNetworkConfig)
    (resources : SorobanResources) (code0 : InvokeHostFunctionResultCode)
    (l : Ledger) : option (bool * ApplyState) :=
  match addReads resources (footprint_readOnly resources) (initialState code0 l) with
  | Threw => None
  | Failed st => Some (false, st)
  | GoOn st1 =>
      match addReads resources (footprint_readWrite resources) st1 with
      | Threw => None
      | Failed st => Some (false, st)
      | GoOn st2 => invokeAndFinish config resources st2
      end
  end.

End InvokeHostFunctionOpFrame.

(** ** Terms in which the properties are stated *)

Section ContentsHashTerms.
Context `{SHA}.

(** No two transactions of the list with different envelopes have the
    same full hash. *)
Definition collisionFree (txs : list TransactionFrameBase) : Prop :=
  Forall (fun t1 =>
    Forall (fun t2 =>
      getFullHash t1 = getFullHash t2 -> getEnvelope t1 = getEnvelope t2) txs) txs.

(** The list is in ascending order of full hash. *)
Definition ascendingFullHash (txs : list TransactionFrameBase) : Prop :=
  StronglySorted (fun a b => (getFullHash a <= getFullHash b)%N) txs.

End ContentsHashTerms.

Section AccountQueuesTerms.
Implicit Types (tx : TransactionFrameBase) (txs q : list TransactionFrameBase).
Implicit Types (qs : list (list TransactionFrameBase)).
Implicit Types (m : gmap AccountID (list TransactionFrameBase)).

(** The transactions of source account [a], in the order of [txs]. *)
Definition ofAccount (a : AccountID) txs : list TransactionFrameBase :=
  filter (fun tx => getSourceID tx = a) txs.

(** Within one source account, no two different transactions have the
    same sequence number. *)
Definition seqNumsDistinct txs : Prop :=
  Forall (fun t1 =>
    Forall (fun t2 =>
      getSourceID t1 = getSourceID t2 -> getSeqNum t1 = getSeqNum t2 -> t1 = t2)
      txs) txs.

Definition ascendingSeqNum txs : Prop :=
  StronglySorted (fun x y => getSeqNum x <= getSeqNum y) txs.

End AccountQueuesTerms.

Section PerAccountTerms.
Context `{SHA}.
Variable a : AccountID.
Implicit Types (tx : TransactionFrameBase) (txs q : list TransactionFrameBase).
Implicit Types (qs : list (list TransactionFrameBase)).


End PerAccountTerms.

Section ApplyOrderPureTerms.
Context `{SHA}.
Implicit Types (tx : TransactionFrameBase) (txs q : list TransactionFrameBase).
Implicit Types (qs : list (list TransactionFrameBase)).

(** No two different transactions of the list have the same full hash. *)
Definition fullHashesDistinct txs : Prop :=
  Forall (fun t1 =>
    Forall (fun t2 => getFullHash t1 = getFullHash t2 -> t1 = t2) txs) txs.

End ApplyOrderPureTerms.

Section SurgePricingTerms.
Context `{SHA} `{TxExternals}.
Implicit Types (tx : TransactionFrameBase) (txs q : list TransactionFrameBase).
Implicit Types (qs heap : list (list TransactionFrameBase)).
Implicit Types (st : SurgeState).
Variable comp : list TransactionFrameBase -> list TransactionFrameBase -> bool.
Variable maxIsOps : bool.

(** The run of the loop of surgePricingFilter, from a state to the state
    in which the loop ends, with the queue that [popTop] returns at every
    iteration. *)
Inductive SurgeRuns : SurgeState -> SurgeState -> Prop :=
  | run_done st :
      opsLeft st = 0%N \/ surgeQueue st = [] ->
      SurgeRuns st st
  | run_accept st curTopTx cur' heap' final :
      (0 < opsLeft st)%N ->
      popTop comp (surgeQueue st) = Some (curTopTx :: cur', heap') ->
      (opsCountOf maxIsOps curTopTx <= opsLeft st)%N ->
      SurgeRuns
        {| opsLeft := (opsLeft st - opsCountOf maxIsOps curTopTx)%N;
           surgeQueue := if decide (cur' = []) then heap' else heap' ++ [cur'];
           updatedSet := updatedSet st ++ [curTopTx] |} final ->
      SurgeRuns st final
  | run_drop st curTopTx cur' heap' final :
      (0 < opsLeft st)%N ->
      popTop comp (surgeQueue st) = Some (curTopTx :: cur', heap') ->
      (opsLeft st < opsCountOf maxIsOps curTopTx)%N ->
      SurgeRuns
        {| opsLeft := opsLeft st; surgeQueue := heap';
           updatedSet := updatedSet st |} final ->
      SurgeRuns st final.

(** [cur] is a highest-priority queue of [heap], and [rest] is the heap
    without it: no queue of the rest ranks above [cur], that is, [cur]
    never compares below one of them. *)
Definition highestPriority q qs heap : Prop :=
  heap ≡ₚ q :: qs /\ Forall (fun other => comp q other = false) qs.

(** The selection as it is described: while the budget is positive and
    the heap is not empty, a highest-priority queue is popped from the
    heap; its front is accepted when its operation count fits the
    budget, the count is taken off the budget and the queue goes back to
    the heap if transactions remain; else the whole queue is dropped. The
    operation count of a transaction is [opsCountOf]. *)
Inductive SurgeSelects : SurgeState -> SurgeState -> Prop :=
  | select_done st :
      opsLeft st = 0%N \/ surgeQueue st = [] ->
      SurgeSelects st st
  | select_accept st curTopTx cur' rest final :
      (0 < opsLeft st)%N ->
      highestPriority (curTopTx :: cur') rest (surgeQueue st) ->
      (opsCountOf maxIsOps curTopTx <= opsLeft st)%N ->
      SurgeSelects
        {| opsLeft := (opsLeft st - opsCountOf maxIsOps curTopTx)%N;
           surgeQueue := if decide (cur' = []) then rest else rest ++ [cur'];
           updatedSet := updatedSet st ++ [curTopTx] |} final ->
      SurgeSelects st final
  | select_drop st curTopTx cur' rest final :
      (0 < opsLeft st)%N ->
      highestPriority (curTopTx :: cur') rest (surgeQueue st) ->
      (opsLeft st < opsCountOf maxIsOps curTopTx)%N ->
      SurgeSelects
        {| opsLeft := opsLeft st; surgeQueue := rest;
           updatedSet := updatedSet st |} final ->
      SurgeSelects st final.

(** The account a queue belongs to: the source of its front. *)
Definition queueAccount q : option AccountID := getSourceID <$> head q.

(** What is left in the heap for account [a]. *)
Definition remainingOf (a : AccountID) heap : list TransactionFrameBase :=
  concat (filter (fun q => queueAccount q = Some a) heap).

(** The queues of a heap are non-empty, each holds the transactions of
    one account, and no two belong to the same account. *)
Definition heapWellFormed heap : Prop :=
  Forall (fun q => exists k, queueAccount q = Some k
                             /\ Forall (fun tx => getSourceID tx = k) q) heap
  /\ NoDup (omap queueAccount heap).

(** The operations the selected transactions count for. *)
Definition opsOf txs : N :=
  foldr (fun tx n => (opsCountOf maxIsOps tx + n)%N) 0%N txs.

(** Every queue of the map is filed under the account of its
    transactions. *)
Definition keyedByAccount (m : gmap AccountID (list TransactionFrameBase)) : Prop :=
  forall k q, m !! k = Some q ->
    queueAccount q = Some k /\ Forall (fun tx => getSourceID tx = k) q.

End SurgePricingTerms.

Section BaseFeeTerms.
Implicit Types (tx : TransactionFrameBase) (txs : list TransactionFrameBase).

(** The bid of a transaction per operation, rounded up. *)
Definition perOpBid tx : Z :=
  bigDivide (getFeeBid tx) 1 (Z.of_N (getNumOperations tx)) ROUND_UP.

(** The number of operations above which the set is taken to have been
    surge priced: [maxTxSetSize - MAX_OPS_PER_TX], or 0 when that would be
    negative. *)
Definition surgeOpsCutoff (lh : LedgerHeader) : N :=
  if (MAX_OPS_PER_TX <=? maxTxSetSize lh)%N
  then (maxTxSetSize lh - MAX_OPS_PER_TX)%N else 0%N.

(** The base fee as the claim words it, without regard to the protocol
    version and with the plain difference [maxTxSetSize - 100]. *)
Definition claimedBaseFee (lh : LedgerHeader) (s : TxSetFrame) : Z :=
  if Z.of_N (maxTxSetSize lh) - 100 <? Z.of_N (sizeOp s)
  then foldr (fun tx low => Z.min (perOpBid tx) low) INT64_MAX (mTransactions s)
  else baseFee lh.

End BaseFeeTerms.

Section FeeBumpFeeTerms.
Implicit Types (tx : FeeBumpTransactionFrame).

(** The flat, non-market part of the fee: the declared Soroban resource
    fee of the inner transaction. *)
Definition fb_flatFee tx : Z :=
  if tf_isSoroban (mInnerTx tx)
  then tf_declaredSorobanResourceFee (mInnerTx tx) else 0.

(** The operations a fee bump is charged for. *)
Definition fb_chargedOps tx : Z := Z.max 1 (Z.of_N (fb_getNumOperations tx)).

End FeeBumpFeeTerms.

Section FeeBumpValidTerms.
Context `{FeeBumpExternals}.
Implicit Types (tx : FeeBumpTransactionFrame).

(** The inclusion fee per operation of the outer envelope is strictly
    below that of the inner transaction (compared by cross
    multiplication, operations counted as at least one). *)
Definition outerRateBelowInner tx : Prop :=
  fb_getInclusionFee tx * Z.max 1 (Z.of_N (tf_getNumOperations (mInnerTx tx)))
  < tf_getInclusionFee (mInnerTx tx) * Z.max 1 (Z.of_N (fb_getNumOperations tx)).

(** The two inclusion fees per operation are equal. *)
Definition outerRateEqualsInner tx : Prop :=
  fb_getInclusionFee tx * Z.max 1 (Z.of_N (tf_getNumOperations (mInnerTx tx)))
  = tf_getInclusionFee (mInnerTx tx) * Z.max 1 (Z.of_N (fb_getNumOperations tx)).

End FeeBumpValidTerms.

Section CheckValidTerms.
Context `{SHA} `{TxExternals} `{AccountExternals}.
Implicit Types (tx : TransactionFrameBase) (txs q : list TransactionFrameBase).
Implicit Types (qs : list (list TransactionFrameBase)).
Implicit Types (st : TrimState) (m : gmap AccountID Z).

(** Every transaction of the queue passes checkValid, the first against
    [lastSeq] and each next one against the sequence number of the one
    before it. *)
Fixpoint validFrom (ltx : LedgerTxn) (lastSeq : Z) q : Prop :=
  match q with
  | [] => True
  | tx :: rest =>
      tx_checkValid tx ltx lastSeq = true /\ validFrom ltx (getSeqNum tx) rest
  end.

Global Instance validFrom_dec ltx lastSeq q : Decision (validFrom ltx lastSeq q).
Proof. revert lastSeq. induction q; simpl; intros; apply _. Defined.

(** The sum of the fee bids of the transactions whose fee source is
    [feeSource]. *)
Definition feeBidTotal (feeSource : AccountID) txs : Z :=
  foldr (fun tx sum => getFeeBid tx + sum) 0
        (filter (fun tx => getFeeSourceID tx = feeSource) txs).

(** The fee source of the transaction exists and can afford [total]. *)
Definition canAfford (ltx : LedgerTxn) (total : Z) tx : Prop :=
  exists feeSource,
    loadAccount ltx (getFeeSourceID tx) = Some feeSource
    /\ total <= getAvailableBalance (ltxHeader ltx) feeSource.

Definition withFeeMap m st : TrimState :=
  {| accountFeeMap := m; trimmed := trimmed st; frame := frame st |}.

End CheckValidTerms.

Section AccountTransactionQueueInvariantTerms.
Import TxSetUtils.
Implicit Types (tx : TransactionFrameBase) (txs : list TransactionFrameBase).
Implicit Types (q : AccountTransactionQueue).

(** The operations of a list of transactions. *)
Definition sumOperations txs : N :=
  foldr (fun tx n => (getNumOperations tx + n)%N) 0%N txs.

(** The invariant: the queue is in ascending order of sequence number and
    the counter is the sum of the operations of its transactions, as a
    uint32. *)
Definition queueInvariant q : Prop :=
  ascendingSeqNum (mTxs q)
  /\ mNumOperations q = (sumOperations (mTxs q) mod UINT32_MOD)%N.

End AccountTransactionQueueInvariantTerms.

Section FootprintGatheringTerms.
Import InvokeHostFunctionOpFrame.
Context `{HostExternals}.
Implicit Types (lk : LedgerKey) (keys : list LedgerKey) (st : ApplyState).

(** The key loads a contract entry whose expiration entry is there and is
    not live at the current ledger. *)
Definition loadsExpired (l : Ledger) lk : Prop :=
  exists le expirationLe,
    loadWithoutRecord l lk = Some le
    /\ isSorobanEntry (le_type le) = true
    /\ loadWithoutRecord l (getExpirationKey lk) = Some expirationLe
    /\ (le_expirationLedgerSeq expirationLe < hdr_ledgerSeq l)%N.

(** The key loads nothing. *)
Definition loadsNothing (l : Ledger) lk : Prop := loadWithoutRecord l lk = None.

End FootprintGatheringTerms.

(** ** Sample data

    Instances of the external collaborators and small transactions, sets
    and ledgers on which the model is run in the examples of Part II. *)

(** A stand-in for SHA-256 on which the model can be run: a polynomial
    fingerprint of the bytes. *)
Definition polySHA : SHA :=
  {| sha256 := fun bs =>
       fold_left (fun h b => (h * 257 + Byte.to_N b + 1)%N) bs 7%N |}.

(** Validity of a transaction for running the model on examples: the
    source account exists and the sequence number is above the last one. *)
Definition sampleTxExternals : TxExternals :=
  {| tx_checkValid := fun tx ltx lastSeq =>
       bool_decide (is_Some (loadAccount ltx (getSourceID tx)))
       && (lastSeq <? getSeqNum tx);
     tx_getMinFee := fun tx header =>
       baseFee header * Z.max 1 (Z.of_N (getNumOperations tx)) |}.

Definition sampleAccountExternals : AccountExternals :=
  {| getAvailableBalance := fun header acc => balance acc |}.

Definition mkTx (address : N) (env : list byte) (source : AccountID)
    (seqNum : Z) (numOps : N) (feeBid : Z) : TransactionFrameBase :=
  {| frameAddress := address;
     getEnvelope := env; getSourceID := source; getFeeSourceID := source;
     getSeqNum := seqNum; getNumOperations := numOps; getFeeBid := feeBid |}.

Definition txA1 := mkTx 1%N [x01] 1%N 1 1%N 100.
Definition txA2 := mkTx 2%N [x02] 1%N 2 1%N 300.
Definition txB1 := mkTx 3%N [x03] 2%N 1 1%N 200.
Definition txB2 := mkTx 4%N [x04] 2%N 2 2%N 101.

Definition headerV (version : N) (maxSize : N) : LedgerHeader :=
  {| ledgerVersion := version; ledgerSeq := 7%N; baseFee := 100;
     maxTxSetSize := maxSize; feePool := 0 |}.

Definition setAB : TxSetFrame := TxSetFrame_fromXDR 5%N [txA1; txB1; txA2; txB2].
Definition setBA : TxSetFrame := TxSetFrame_fromXDR 5%N [txB2; txA2; txB1; txA1].

Definition setTwo : TxSetFrame := TxSetFrame_fromXDR 5%N [txA1; txB1].

(** The comparator of the heap for seed 0 under a header of protocol 10,
    and the state in which the selection starts on [setTwo] with a budget
    of one operation. *)
Definition surgeAtV10 (q1 q2 : list TransactionFrameBase) : bool :=
  @SurgeCompare polySHA sampleTxExternals 0%N (headerV 10 1) (Some q1) (Some q2).

Definition startTwo : SurgeState :=
  {| opsLeft := 1%N;
     surgeQueue := queuesOf (buildAccountTxQueues (mTransactions setTwo));
     updatedSet := [] |}.

Definition innerOneOp : TransactionFrame :=
  {| tf_getInclusionFee := 100; tf_isSoroban := false;
     tf_declaredSorobanResourceFee := 0; tf_getNumOperations := 1%N;
     tf_XDRProvidesValidFee := true |}.

Definition feeBump201 : FeeBumpTransactionFrame :=
  {| fb_fee := 201; fb_feeSource := 9%N; mInnerTx := innerOneOp |}.

Definition feeBump201AsBase : TransactionFrameBase :=
  {| frameAddress := 5%N; getEnvelope := [x05]; getSourceID := 1%N;
     getFeeSourceID := fb_getFeeSourceID feeBump201; getSeqNum := 1;
     getNumOperations := fb_getNumOperations feeBump201;
     getFeeBid := fb_getInclusionFee feeBump201 |}.

Definition sampleFeeBumpExternals : FeeBumpExternals :=
  {| minFeePerOp := fun header => baseFee header;
     fb_checkSignature := fun tx acc => true |}.

Definition sampleLedger (version : N) : LedgerTxn :=
  {| ltxHeader := headerV version 100;
     ltxAccounts := {[ 1%N := {| balance := 1000; accSeqNum := 0 |};
                       2%N := {| balance := 500; accSeqNum := 0 |};
                       9%N := {| balance := 150; accSeqNum := 0 |} ]} |}.

Definition innerRate200 : TransactionFrame :=
  {| tf_getInclusionFee := 200; tf_isSoroban := false;
     tf_declaredSorobanResourceFee := 0; tf_getNumOperations := 1%N;
     tf_XDRProvidesValidFee := true |}.

(** Outer fee 400 for two operations, inner fee 200 for one: equal rates. *)
Definition feeBumpEqualRate : FeeBumpTransactionFrame :=
  {| fb_fee := 400; fb_feeSource := 9%N; mInnerTx := innerRate200 |}.

(** Outer fee 300 for two operations, inner fee 200 for one: a lower rate. *)
Definition feeBumpLowerRate : FeeBumpTransactionFrame :=
  {| fb_fee := 300; fb_feeSource := 9%N; mInnerTx := innerRate200 |}.

Definition freshResult (tx : FeeBumpTransactionFrame) (ltx : LedgerTxn) : TxResult :=
  fb_createResultPayloadWithFeeCharged tx (ltxHeader ltx)
    (Some (baseFee (ltxHeader ltx))) false.

Definition setSorted : TxSetFrame := TxSetFrame_fromXDR 5%N [txA1; txA2; txB1].

Definition lclV (version maxSize : N) : LedgerHeaderHistoryEntry :=
  {| lclHash := 5%N; lclHeader := headerV version maxSize |}.

Definition setTwoOps : TxSetFrame := TxSetFrame_fromXDR 5%N [txB2].

Section HostSamples.
Import InvokeHostFunctionOpFrame.

Definition sampleHostExternals : HostExternals :=
  {| getExpirationKey := fun lk =>
       {| lk_type := EXPIRATION; lk_durability := lk_durability lk;
          lk_id := lk_id lk |};
     xdr_size := fun lk => 40%N;
     invoke_host_function := fun input => None;
     consumeRefundableSorobanResources := fun eventBytes rentFee => true |}.

Definition persistentKey : LedgerKey :=
  {| lk_type := CONTRACT_DATA; lk_durability := PERSISTENT; lk_id := 1%N |}.

Definition temporaryKey : LedgerKey :=
  {| lk_type := CONTRACT_DATA; lk_durability := TEMPORARY; lk_id := 2%N |}.

Definition dataEntry (lk : LedgerKey) : LedgerEntry :=
  {| le_type := CONTRACT_DATA; le_key := lk; le_expirationLedgerSeq := 0%N;
     le_expiration_xdr := []; le_codeSize := 0%N; le_xdr := [x0a; x0b] |}.

Definition expirationEntry (lk : LedgerKey) (expirationLedgerSeq : N) : LedgerEntry :=
  {| le_type := EXPIRATION; le_key := @getExpirationKey sampleHostExternals lk;
     le_expirationLedgerSeq := expirationLedgerSeq;
     le_expiration_xdr := [x0c]; le_codeSize := 0%N; le_xdr := [x0c; x0d] |}.

(** A ledger at sequence 7 whose two contract-data entries expired at 6. *)
Definition expiredLedger : Ledger :=
  {| hdr_ledgerSeq := 7%N; hdr_ledgerVersion := 20%N;
     entries := fun k =>
       if decide (k = persistentKey) then Some (dataEntry persistentKey)
       else if decide (k = temporaryKey) then Some (dataEntry temporaryKey)
       else if decide (k = @getExpirationKey sampleHostExternals persistentKey)
       then Some (expirationEntry persistentKey 6)
       else if decide (k = @getExpirationKey sampleHostExternals temporaryKey)
       then Some (expirationEntry temporaryKey 6)
       else None |}.

Definition sampleResources : SorobanResources :=
  {| footprint_readOnly := [temporaryKey; persistentKey];
     footprint_readWrite := [];
     instructions := 1000%N; readBytes := 100%N; writeBytes := 100%N |}.

Definition sampleConfig : SorobanNetworkConfig :=
  {| maxContractSizeBytes := 1000%N; maxContractDataEntrySizeBytes := 1000%N;
     txMemoryLimit := 1000%N; txMaxContractEventsSizeBytes := 1000%N |}.

End HostSamples.

Definition sampleQueue : TxSetUtils.AccountTransactionQueue :=
  {| TxSetUtils.mTxs := [txA1; txA2]; TxSetUtils.mNumOperations := 2%N |}.

(** ** The wire form of a transaction set *)

(** The XDR struct TransactionSet: the previous ledger hash and the
    envelopes. *)
Record TransactionSet := {
  ts_previousLedgerHash : Hash;
  ts_txs : list (list byte);
}.

(** Modelled from the spec: xdr::size32 and xdr::xvector belong to the
    xdrpp library, which is not among the given sources. size32 throws
    when the size does not fit a uint32, and resize throws above the bound
    of the vector, which for the unbounded [txs<>] is XDR_MAX_LEN. *)
Definition XDR_MAX_LEN : N := 4294967292%N.      (* 0xfffffffc *)

(** TxSetFrame::toXDR: [None] when releaseAssert(is_sorted) fails, when
    xdr::size32 rejects the size or when resize does. *)
Definition toXDR `{SHA} (s : TxSetFrame) : option TransactionSet :=
  let size := N.of_nat (length (mTransactions s)) in
  if negb (is_sorted HashTxSorter (mTransactions s)) then None
  else if (UINT32_MOD <=? size)%N then None
  else if (XDR_MAX_LEN <? size)%N then None
  else
    Some {| ts_previousLedgerHash := mPreviousLedgerHash s;
            ts_txs := map getEnvelope (mTransactions s) |}.

(** ** TxSetUtils: removing invalid transactions *)

(** removeTxs (anonymous namespace of TxSetUtils.cpp): the transactions of
    [txs] whose full hash is not that of a transaction to remove. The
    capacity reserved is [txs.size() - txsToRemove.size()], a size_t
    subtraction that wraps around when [txsToRemove] is the longer;
    std::vector::reserve then throws std::length_error ([None]). *)
Definition removeTxs `{SHA} (txs txsToRemove : list TransactionFrameBase)
    : option (list TransactionFrameBase) :=
  let txsToRemoveSet : gset Hash := list_to_set (getFullHash <$> txsToRemove) in
  if (length txs <? length txsToRemove)%nat then None
  else Some (filter (fun tx => getFullHash tx ∉ txsToRemoveSet) txs).

(** What TxSetUtils::getInvalidTxList asks of a transaction and the given
    sources do not define: whether
    [checkValid(app, ltx, 0, lowerBoundCloseTimeOffset,
    upperBoundCloseTimeOffset)] succeeds. *)
Class CloseTimeExternals := {
  tx_checkValidWithOffsets :
    TransactionFrameBase -> LedgerTxn -> Z -> N -> N -> bool;
}.

(** The ledger state with the sequence number of its header replaced. *)
Definition withLedgerSeq (seq : N) (ltx : LedgerTxn) : LedgerTxn :=
  {| ltxHeader := {| ledgerVersion := ledgerVersion (ltxHeader ltx);
                     ledgerSeq := seq;
                     baseFee := baseFee (ltxHeader ltx);
                     maxTxSetSize := maxTxSetSize (ltxHeader ltx);
                     feePool := feePool (ltxHeader ltx) |};
     ltxAccounts := ltxAccounts ltx |}.

(** TxSetUtils::getInvalidTxList. [ltxRoot] is the root ledger state and
    [lastClosedLedgerNum] what LedgerManager::getLastClosedLedgerNum
    returns; the transactions are checked against the next ledger
    sequence number (uint32 arithmetic). *)
Definition getInvalidTxList `{CloseTimeExternals}
    (txs : list TransactionFrameBase) (ltxRoot : LedgerTxn)
    (lastClosedLedgerNum : N)
    (lowerBoundCloseTimeOffset upperBoundCloseTimeOffset : N)
    : list TransactionFrameBase :=
  let ltx := withLedgerSeq ((lastClosedLedgerNum + 1) mod UINT32_MOD)%N ltxRoot in
  fold_left
    (fun invalidTxs tx =>
       if negb (tx_checkValidWithOffsets tx ltx 0 lowerBoundCloseTimeOffset
                  upperBoundCloseTimeOffset)
       then invalidTxs ++ [tx] else invalidTxs)
    txs [].

(** TxSetUtils::trimInvalid: the transactions kept and [invalidTxs]. *)
Definition TxSetUtils_trimInvalid `{SHA} `{CloseTimeExternals}
    (txs : list TransactionFrameBase) (ltxRoot : LedgerTxn)
    (lastClosedLedgerNum : N)
    (lowerBoundCloseTimeOffset upperBoundCloseTimeOffset : N)
    : option (list TransactionFrameBase) * list TransactionFrameBase :=
  let invalidTxs :=
    getInvalidTxList txs ltxRoot lastClosedLedgerNum lowerBoundCloseTimeOffset
      upperBoundCloseTimeOffset in
  (removeTxs txs invalidTxs, invalidTxs).

(** The order in which the range-for of TxSetUtils::buildAccountTxQueues
    visits its UnorderedMap. C++ leaves it unspecified, and it need not
    be the order in which any other map is visited: all that is known is
    that every entry is visited once. *)
Class UnorderedMapOrder := {
  visitOrder :
    gmap AccountID (list TransactionFrameBase) ->
    list (AccountID * list TransactionFrameBase);
  visitOrder_Permutation : forall m, visitOrder m ≡ₚ map_to_list m;
}.

(** TxSetUtils::buildAccountTxQueues: the transactions are grouped by
    source account in an unordered map, and a queue is constructed from
    every group, in the order in which the map is visited; [None] when a
    constructor fails. *)
Definition TxSetUtils_buildAccountTxQueues `{UnorderedMapOrder}
    (txs : list TransactionFrameBase)
    : option (list TxSetUtils.AccountTransactionQueue) :=
  let actTxMap := fold_left addToQueue txs ∅ in
  mapM (fun kv => TxSetUtils.AccountTransactionQueue_new kv.2)
       (visitOrder actTxMap).
(** ** FeeBumpTransactionFrame::checkValid *)

(** What checkValid asks of its collaborators and the given sources do
    not define: the result a fresh payload holds (createResultPayload),
    whether the signature checker, after the check of the fee source, has
    seen every signature used (checkAllSignaturesUsed), the check of the
    inner transaction (checkValidWithOptionallyChargedFee, with the inner
    payload it returns) and what setInnerResultPayload makes of the
    result. *)
Class FeeBumpCheckExternals := {
  InnerPayload : Type;
  fb_createResultPayload : FeeBumpTransactionFrame -> TxResult;
  fb_checkAllSignaturesUsed : FeeBumpTransactionFrame -> AccountEntry -> bool;
  tf_checkValidWithOptionallyChargedFee :
    TransactionFrame -> LedgerTxn -> Z -> N -> N -> bool * InnerPayload;
  fb_setInnerResultPayload :
    InnerPayload -> TransactionFrame -> TxResult -> TxResult;
}.

(** FeeBumpTransactionFrame::checkValid: the boolean and the result
    payload returned. The nested LedgerTxn is never committed. *)
Definition fb_checkValid `{FeeBumpExternals} `{AccountExternals}
    `{FeeBumpCheckExternals} (tx : FeeBumpTransactionFrame)
    (ltxOuter : LedgerTxn) (current : Z)
    (lowerBoundCloseTimeOffset upperBoundCloseTimeOffset : N)
    : bool * TxResult :=
  if negb (fb_XDRProvidesValidFee tx) then
    (false, setResultCode txMALFORMED (fb_createResultPayload tx))
  else
    let ltx := ltxOuter in
    let minBaseFee := baseFee (ltxHeader ltx) in
    let txResult :=
      fb_createResultPayloadWithFeeCharged tx (ltxHeader ltx) (Some minBaseFee)
        false in
    match fb_commonValid tx ltx false txResult with
    | (kFullyValid, txResult') =>
        let allUsed :=
          match loadAccount ltx (fb_getFeeSourceID tx) with
          | Some feeSource => fb_checkAllSignaturesUsed tx feeSource
          | None => false
          end in
        if negb allUsed then (false, setResultCode txBAD_AUTH_EXTRA txResult')
        else
          let '(res, innerResPayload) :=
            tf_checkValidWithOptionallyChargedFee (mInnerTx tx) ltx current
              lowerBoundCloseTimeOffset upperBoundCloseTimeOffset in
          (res, fb_setInnerResultPayload innerResPayload (mInnerTx tx) txResult')
    | (_, txResult') => (false, txResult')
    end.

(** ** Terms for the properties of the fee bump *)

Section FeeBumpCheckTerms.
Context `{FeeBumpExternals} `{AccountExternals}.
Implicit Types (tx : FeeBumpTransactionFrame) (ltx : LedgerTxn).

(** The checks of commonValidPreSeqNum: protocol 13 at least, an
    inclusion fee that reaches the minimum, an inner inclusion fee that
    is not negative, an outer fee rate that is not below the inner one
    (by cross multiplication with the minimum inclusion fees), and a fee
    source that exists. *)
Definition fb_passesPreSeqNum tx ltx : Prop :=
  (13 <= ledgerVersion (ltxHeader ltx))%N
  /\ getMinInclusionFee (fb_getNumOperations tx) (ltxHeader ltx)
     <= fb_getInclusionFee tx
  /\ 0 <= tf_getInclusionFee (mInnerTx tx)
  /\ tf_getInclusionFee (mInnerTx tx)
       * getMinInclusionFee (fb_getNumOperations tx) (ltxHeader ltx)
     <= fb_getInclusionFee tx
          * getMinInclusionFee (tf_getNumOperations (mInnerTx tx)) (ltxHeader ltx)
  /\ is_Some (loadAccount ltx (fb_getFeeSourceID tx)).

(** The fee source exists, its signature check passes and its available
    balance covers [feeToPay]. *)
Definition fb_feeSourceCovers tx ltx (feeToPay : Z) : Prop :=
  exists feeSource,
    loadAccount ltx (fb_getFeeSourceID tx) = Some feeSource
    /\ fb_checkSignature tx feeSource = true
    /\ feeToPay <= getAvailableBalance (ltxHeader ltx) feeSource.

(** The sum of the balances of the accounts of a ledger state. *)
Definition totalBalance ltx : Z :=
  map_fold (fun _ acc sum => balance acc + sum) 0 (ltxAccounts ltx).

End FeeBumpCheckTerms.

(** ** Terms for the properties of trimInvalid *)

Section TrimTerms.
Context `{TxExternals} `{AccountExternals}.
Implicit Types (tx : TransactionFrameBase) (txs q : list TransactionFrameBase).

(** The transactions of an account queue that pass checkValid, each
    against the sequence number of the one kept before it ([lastSeq] for
    the first), and those that do not. *)
Fixpoint keptValid (ltx : LedgerTxn) (lastSeq : Z) q : list TransactionFrameBase :=
  match q with
  | [] => []
  | tx :: rest =>
      if tx_checkValid tx ltx lastSeq then tx :: keptValid ltx (getSeqNum tx) rest
      else keptValid ltx lastSeq rest
  end.

Fixpoint droppedInvalid (ltx : LedgerTxn) (lastSeq : Z) q
    : list TransactionFrameBase :=
  match q with
  | [] => []
  | tx :: rest =>
      if tx_checkValid tx ltx lastSeq then droppedInvalid ltx (getSeqNum tx) rest
      else tx :: droppedInvalid ltx lastSeq rest
  end.

(** The transactions at the front of an account queue whose fee source
    exists and has an available balance that covers the total [m] holds
    for it. *)
Fixpoint keptAffordable (ltx : LedgerTxn) (m : gmap AccountID Z) q
    : list TransactionFrameBase :=
  match q with
  | [] => []
  | tx :: rest =>
      match loadAccount ltx (getFeeSourceID tx) with
      | Some feeSource =>
          if getAvailableBalance (ltxHeader ltx) feeSource
             <? default 0 (m !! getFeeSourceID tx)
          then [] else tx :: keptAffordable ltx m rest
      | None => []
      end
  end.

(** The frame after removeTx has been called for every transaction of a
    list, in order. *)
Definition removeAllTxs (dropped : list TransactionFrameBase) (s : TxSetFrame)
    : TxSetFrame :=
  fold_left (fun f tx => removeTx tx f) dropped s.

(** The fee source of every transaction of the list exists. *)
Definition feeSourcesExist (ltx : LedgerTxn) txs : Prop :=
  Forall (fun tx => is_Some (loadAccount ltx (getFeeSourceID tx))) txs.

End TrimTerms.

(** ** Terms for the properties of doApply *)

Section HostApplyTerms.
Import InvokeHostFunctionOpFrame.
Context `{HostExternals}.
Implicit Types (lk : LedgerKey) (keys : list LedgerKey) (st : ApplyState).

(** The input doApply hands to the host in state [st]. *)
Definition hostInputOf (resources : SorobanResources) st : HostInput :=
  {| in_instructions := instructions resources;
     in_ledgerEntries := ledgerEntryCxxBufs st;
     in_expirationEntries := expirationEntryCxxBufs st |}.

(** The result code for an output of the host that is not a success. *)
Definition hostFailureCode (config : SorobanNetworkConfig)
    (resources : SorobanResources) (out : InvokeHostFunctionOutput)
    : InvokeHostFunctionResultCode :=
  if (instructions resources <? cpu_insns out)%N
  then INVOKE_HOST_FUNCTION_RESOURCE_LIMIT_EXCEEDED
  else if (txMemoryLimit config <? mem_bytes out)%N
  then INVOKE_HOST_FUNCTION_RESOURCE_LIMIT_EXCEEDED
  else INVOKE_HOST_FUNCTION_TRAPPED.

(** What the host is given for a footprint key in ledger [l]: the
    serialized entry and expiration entry of a key that loads a live
    entry (an empty expiration buffer for an entry without expiration),
    nothing for a key that loads no entry or an expired one. *)
Definition hostView (l : Ledger) lk : option (list byte * list byte) :=
  match loadWithoutRecord l lk with
  | None => None
  | Some le =>
      if isSorobanEntry (le_type le) then
        match loadWithoutRecord l (getExpirationKey lk) with
        | None => None
        | Some expirationLe =>
            if isLive expirationLe (hdr_ledgerSeq l)
            then Some (le_xdr le, le_expiration_xdr expirationLe)
            else None
        end
      else Some (le_xdr le, [])
  end.

(** The byte counters of the metrics add up: what is read (written) from
    the ledger is what is read (written) as data and as code, in uint32
    arithmetic. *)
Definition metricsAddUp (m : HostFunctionMetrics) : Prop :=
  mLedgerReadByte m = u32 (mReadDataByte m + mReadCodeByte m)
  /\ mLedgerWriteByte m = u32 (mWriteDataByte m + mWriteCodeByte m).

(** The write-key-byte counter stays at zero: noteWriteEntry does not
    update it. *)
Definition metricsSound (m : HostFunctionMetrics) : Prop :=
  metricsAddUp m /\ mWriteKeyByte m = 0%N.

(** The keys of the entries the host returned. *)
Definition returnedKeys (out : InvokeHostFunctionOutput) : list LedgerKey :=
  (fun b => le_key b.1) <$> modified_ledger_entries out.

(** The result codes doApply sets when it returns false. *)
Definition failureCodes : list InvokeHostFunctionResultCode :=
  [INVOKE_HOST_FUNCTION_RESOURCE_LIMIT_EXCEEDED;
   INVOKE_HOST_FUNCTION_ENTRY_EXPIRED;
   INVOKE_HOST_FUNCTION_TRAPPED;
   INVOKE_HOST_FUNCTION_INSUFFICIENT_REFUNDABLE_FEE].

(** What only the gathering of the footprint and the call of the host
    change, and the later steps of doApply keep: the calls made to the
    host, the success flag and the read counters. *)
Definition keepsReads st st' : Prop :=
  hostCalls st' = hostCalls st
  /\ mSuccess (metrics st') = mSuccess (metrics st)
  /\ mLedgerReadByte (metrics st') = mLedgerReadByte (metrics st)
  /\ mReadEntry (metrics st') = mReadEntry (metrics st)
  /\ (metricsSound (metrics st) -> metricsSound (metrics st')).

(** The read-write keys that doApply erases: those the host did not
    return. *)
Definition notReturned (resources : SorobanResources)
    (out : InvokeHostFunctionOutput) : list LedgerKey :=
  filter (fun lk => lk ∉ returnedKeys out) (footprint_readWrite resources).

(** The footprint in the order in which it is gathered. *)
Definition footprintKeys (resources : SorobanResources) : list LedgerKey :=
  footprint_readOnly resources ++ footprint_readWrite resources.

(** The input of the host for a footprint gathered in ledger [l]. *)
Definition gatheredInput (resources : SorobanResources) (l : Ledger) : HostInput :=
  {| in_instructions := instructions resources;
     in_ledgerEntries := (omap (hostView l) (footprintKeys resources)).*1;
     in_expirationEntries := (omap (hostView l) (footprintKeys resources)).*2 |}.

(** The output doApply works with: that of the host, or [failedOutput]
    when the host raises an exception. *)
Definition hostOutput (resources : SorobanResources) (l : Ledger)
    : InvokeHostFunctionOutput :=
  default failedOutput (invoke_host_function (gatheredInput resources l)).

End HostApplyTerms.
(** ** Sample data for doApply *)

Section HostApplySamples.
Import InvokeHostFunctionOpFrame.

(** The sample ledger two ledgers earlier, at sequence 5: its two
    contract-data entries, which expire at 6, are live. *)
Definition liveLedger : Ledger :=
  {| hdr_ledgerSeq := 5%N; hdr_ledgerVersion := 20%N;
     entries := entries expiredLedger |}.

(** A new value for the entry of the persistent key. *)
Definition updatedEntry : LedgerEntry :=
  {| le_type := CONTRACT_DATA; le_key := persistentKey;
     le_expirationLedgerSeq := 0%N; le_expiration_xdr := [];
     le_codeSize := 0%N; le_xdr := [x0e; x0f; x10] |}.

(** A host that succeeds: it returns a new value for the persistent key,
    one event of four bytes and a return value of one byte. *)
Definition writingHostExternals : HostExternals :=
  {| getExpirationKey := @getExpirationKey sampleHostExternals;
     xdr_size := fun lk => 40%N;
     invoke_host_function := fun input =>
       Some {| success := true; cpu_insns := 10%N; mem_bytes := 10%N;
               modified_ledger_entries := [(updatedEntry, 3%N)];
               contract_events := [4%N]; result_value_size := 1%N;
               rent_fee := 0 |};
     consumeRefundableSorobanResources := fun eventBytes rentFee => true |}.

(** Both sample keys in the read-write footprint. *)
Definition readWriteResources : SorobanResources :=
  {| footprint_readOnly := [];
     footprint_readWrite := [persistentKey; temporaryKey];
     instructions := 1000%N; readBytes := 100%N; writeBytes := 100%N |}.

(** The state in which doApply returns true with the writing host. *)
Definition writtenState : ApplyState :=
  default (initialState INVOKE_HOST_FUNCTION_MALFORMED liveLedger)
    (snd <$> @doApply writingHostExternals sampleConfig readWriteResources
               INVOKE_HOST_FUNCTION_MALFORMED liveLedger).

(** The state in which doApply returns false with the sample host, whose
    every call raises an exception. *)
Definition trappedState : ApplyState :=
  default (initialState INVOKE_HOST_FUNCTION_MALFORMED liveLedger)
    (snd <$> @doApply sampleHostExternals sampleConfig readWriteResources
               INVOKE_HOST_FUNCTION_MALFORMED liveLedger).

End HostApplySamples.
(** ** Sample data for trimming *)

(** A transaction of account 3, which the sample ledger does not hold,
    and a third transaction of account 2, with a bid that brings the
    bids of the account above its balance. *)
Definition txC1 := mkTx 6%N [x06] 3%N 1 1%N 50.
Definition txB3 := mkTx 7%N [x07] 2%N 3 1%N 400.

Definition trimSet : TxSetFrame :=
  TxSetFrame_fromXDR 5%N [txA1; txB1; txC1; txB2; txA2; txB3].

(** What trimInvalid returns for the sample set on the sample ledger. *)
Definition trimOutcome : list TransactionFrameBase * TxSetFrame :=
  match @trimInvalid polySHA sampleTxExternals sampleAccountExternals
          (sampleLedger 11) trimSet with
  | Normal r => r
  | _ => ([], trimSet)
  end.

(** ** Further sample data *)

(** A frame with the content of [txA1] behind another pointer. *)
Definition txA1Copy := mkTx 8%N [x01] 1%N 1 1%N 100.

(** A visiting order of the map other than that of [map_to_list]: its
    reverse. *)
Definition reversedVisit : UnorderedMapOrder :=
  {| visitOrder := fun m => reverse (map_to_list m);
     visitOrder_Permutation := fun m => reverse_Permutation (map_to_list m) |}.

(** The sample ledger at protocol 13 with a fee pool that is 100 short
    of INT64_MAX. *)
Definition fullPoolLedger : LedgerTxn :=
  {| ltxHeader := {| ledgerVersion := 13%N; ledgerSeq := 7%N; baseFee := 100;
                     maxTxSetSize := 100%N; feePool := INT64_MAX - 100 |};
     ltxAccounts := ltxAccounts (sampleLedger 13) |}.

(* ===================================================================== *)
(** * Part II: properties                                                 *)
(* ===================================================================== *)

(** ** Sorting *)

Section Sorting.
Context {A : Type} (comp : A -> A -> bool).

Lemma std_sort_Permutation (l : list A) : std_sort comp l ≡ₚ l.
Proof. apply merge_sort_Permutation. Qed.

Lemma std_sort_elem_of (l : list A) (x : A) : x ∈ std_sort comp l ↔ x ∈ l.
Proof. by rewrite std_sort_Permutation. Qed.

Lemma std_sort_length (l : list A) : length (std_sort comp l) = length l.
Proof. by rewrite std_sort_Permutation. Qed.

Lemma std_sort_nil_inv (l : list A) : std_sort comp l = [] -> l = [].
Proof.
  intros E. apply Permutation_nil_r. rewrite <- E.
  symmetry. apply std_sort_Permutation.
Qed.

(** A comparator that orders by a numeric key is a strict weak order:
    the sort then yields a range in which every element is in order with
    every later one. *)
Context (key : A -> Z) (Hkey : forall x y, comp x y = (key x <? key y)).

Lemma in_order_key (x y : A) : in_order comp x y <-> key x <= key y.
Proof. unfold in_order. rewrite Hkey. rewrite Z.ltb_ge. reflexivity. Qed.

Lemma in_order_total : Total (in_order comp).
Proof. intros x y. rewrite !in_order_key. lia. Qed.

Lemma in_order_trans : Transitive (in_order comp).
Proof. intros x y z. rewrite !in_order_key. lia. Qed.

Lemma std_sort_StronglySorted (l : list A) :
  StronglySorted (in_order comp) (std_sort comp l).
Proof.
  apply (@StronglySorted_merge_sort _ _ _ in_order_trans in_order_total).
Qed.

Lemma std_sort_by_key (l : list A) :
  StronglySorted (fun x y => key x <= key y) (std_sort comp l).
Proof.
  pose proof (std_sort_StronglySorted l) as Hs.
  apply (StronglySorted_fmap id (in_order comp)
           (fun x y => key x <= key y)) in Hs.
  - by rewrite list_fmap_id in Hs.
  - intros x y. apply in_order_key.
Qed.

End Sorting.

Lemma is_sorted_Sorted {A} (comp : A -> A -> bool) (l : list A) :
  is_sorted comp l = true <-> Sorted (in_order comp) l.
Proof.
  induction l as [|x [|y tl] IH].
  - split; [constructor | done].
  - split; [repeat constructor | done].
  - change (is_sorted comp (x :: y :: tl))
      with (negb (comp y x) && is_sorted comp (y :: tl)).
    rewrite andb_true_iff, negb_true_iff, IH. split.
    + intros [H1 H2]. constructor; [done | by constructor].
    + intros Hs. inv Hs. match goal with Hh : HdRel _ _ _ |- _ => inv Hh end. done.
Qed.

Lemma N_ltb_Z (a b : N) : (a <? b)%N = (Z.of_N a <? Z.of_N b).
Proof. unfold N.ltb, Z.ltb. by rewrite N2Z.inj_compare. Qed.


(** ** The contents hash *)

Section ContentsHash.
Context `{SHA}.

Lemma HashTxSorter_key (x y : TransactionFrameBase) :
  HashTxSorter x y = (Z.of_N (getFullHash x) <? Z.of_N (getFullHash y)).
Proof. apply N_ltb_Z. Qed.


Lemma SeqSorter_key (x y : TransactionFrameBase) :
  SeqSorter x y = (getSeqNum x <? getSeqNum y).
Proof. reflexivity. Qed.

(** The bytes the hasher of getContentsHash has been fed. *)
Lemma hasher_bytes (txs : list TransactionFrameBase) (acc : list byte) :
  fold_left (fun acc tx => acc ++ getEnvelope tx) txs acc
  = acc ++ concat (map getEnvelope txs).
Proof.
  revert acc. induction txs as [|tx txs IH]; intros acc; simpl.
  - by rewrite app_nil_r.
  - by rewrite IH, app_assoc.
Qed.

Lemma fromXDR_transactions (prev : Hash) (txs : list TransactionFrameBase) :
  mTransactions (TxSetFrame_fromXDR prev txs) = txs.
Proof.
  unfold TxSetFrame_fromXDR; simpl.
  enough (forall acc, fold_left (fun acc tx => acc ++ [tx]) txs acc = acc ++ txs)
    as E by apply (E []).
  induction txs as [|tx txs IH]; intros acc; simpl.
  - by rewrite app_nil_r.
  - by rewrite IH, <- app_assoc.
Qed.

Lemma sortForHash_ascending (txs : list TransactionFrameBase) :
  ascendingFullHash (std_sort HashTxSorter txs).
Proof.
  pose proof (std_sort_by_key HashTxSorter _ HashTxSorter_key txs) as Hs.
  unfold ascendingFullHash.
  apply (StronglySorted_fmap id _
           (fun a b => (getFullHash a <= getFullHash b)%N)) in Hs.
  - by rewrite list_fmap_id in Hs.
  - intros x y; simpl. lia.
Qed.

(** The value getContentsHash computes when the cache is not valid. *)
Lemma getContentsHash_fresh (s : TxSetFrame) :
  mHashIsValid s = false ->
  fst (getContentsHash s)
  = sha256 (hashBytes (mPreviousLedgerHash s)
              ++ concat (map getEnvelope (std_sort HashTxSorter (mTransactions s)))).
Proof.
  intros Hv. unfold getContentsHash. rewrite Hv. simpl.
  by rewrite hasher_bytes.
Qed.

(** Two lists of envelopes in ascending hash order with the same elements
    are equal when equal hashes mean equal envelopes. *)
Lemma sorted_envelopes_unique (l l' : list TransactionFrameBase) :
  l ≡ₚ l' -> collisionFree l ->
  ascendingFullHash l -> ascendingFullHash l' ->
  map getEnvelope l = map getEnvelope l'.
Proof.
  intros Hp Hcf Hl Hl'.
  apply (StronglySorted_unique_strong (fun e1 e2 => (sha256 e1 <= sha256 e2)%N)).
  - intros e1 e2 He1 He2 H1 H2.
    apply list_elem_of_fmap in He1 as (t1 & -> & Ht1).
    apply list_elem_of_fmap in He2 as (t2 & -> & Ht2).
    rewrite <- Hp in Ht2.
    unfold collisionFree in Hcf. rewrite Forall_forall in Hcf.
    specialize (Hcf t1 Ht1). rewrite Forall_forall in Hcf.
    apply (Hcf t2 Ht2). unfold getFullHash. lia.
  - eapply (StronglySorted_fmap getEnvelope); [|exact Hl]. by intros x y.
  - eapply (StronglySorted_fmap getEnvelope); [|exact Hl']. by intros x y.
  - by apply fmap_Permutation.
Qed.

Lemma collisionFree_Permutation (l l' : list TransactionFrameBase) :
  l ≡ₚ l' -> collisionFree l -> collisionFree l'.
Proof.
  unfold collisionFree. intros Hp Hcf.
  rewrite Forall_forall in Hcf. apply Forall_forall. intros t1 Ht1.
  apply Forall_forall. intros t2 Ht2.
  rewrite <- Hp in Ht1, Ht2. specialize (Hcf t1 Ht1).
  rewrite Forall_forall in Hcf. by apply Hcf.
Qed.

Lemma sorted_envelopes_Permutation (txs txs' : list TransactionFrameBase) :
  txs ≡ₚ txs' -> collisionFree txs ->
  map getEnvelope (std_sort HashTxSorter txs)
  = map getEnvelope (std_sort HashTxSorter txs').
Proof.
  intros Hp Hcf. apply sorted_envelopes_unique.
  - by rewrite !std_sort_Permutation.
  - eapply collisionFree_Permutation; [|exact Hcf].
    symmetry. apply std_sort_Permutation.
  - apply sortForHash_ascending.
  - apply sortForHash_ascending.
Qed.

(** C1. The contents hash of a set whose cache is not valid (a new set, or
    one changed since the last call) is the SHA-256 of the previous ledger
    hash followed by the envelopes in ascending order of full hash; two
    such sets with the same previous ledger hash whose transactions are
    permutations of one another have the same contents hash, provided
    no two different envelopes of the set collide under SHA-256; and a
    second call returns the cached value. *)
Theorem getContentsHash_canonical (s s' : TxSetFrame) :
  mHashIsValid s = false -> mHashIsValid s' = false ->
  mPreviousLedgerHash s = mPreviousLedgerHash s' ->
  mTransactions s ≡ₚ mTransactions s' ->
  collisionFree (mTransactions s) ->
  fst (getContentsHash s) = fst (getContentsHash s')
  /\ (exists sorted,
        sorted ≡ₚ mTransactions s /\ ascendingFullHash sorted
        /\ fst (getContentsHash s)
           = sha256 (hashBytes (mPreviousLedgerHash s)
                       ++ concat (map getEnvelope sorted)))
  /\ fst (getContentsHash (snd (getContentsHash s))) = fst (getContentsHash s).
Proof.
  intros Hv Hv' Hprev Hp Hcf. split; [|split].
  - rewrite !getContentsHash_fresh by done.
    by rewrite Hprev, (sorted_envelopes_Permutation _ _ Hp Hcf).
  - exists (std_sort HashTxSorter (mTransactions s)). split; [|split].
    + apply std_sort_Permutation.
    + apply sortForHash_ascending.
    + by apply getContentsHash_fresh.
  - unfold getContentsHash. rewrite Hv. reflexivity.
Qed.
End ContentsHash.

(** ** Account queues *)

Section AccountQueues.

Implicit Types (tx : TransactionFrameBase) (txs q : list TransactionFrameBase).
Implicit Types (qs : list (list TransactionFrameBase)).
Implicit Types (m : gmap AccountID (list TransactionFrameBase)).

Lemma addToQueue_lookup m tx a :
  addToQueue m tx !! a
  = if decide (getSourceID tx = a) then Some (default [] (m !! a) ++ [tx])
    else m !! a.
Proof.
  unfold addToQueue. case_decide as Ha.
  - subst a. by rewrite lookup_insert_eq.
  - by rewrite lookup_insert_ne.
Qed.

Lemma fold_addToQueue_lookup txs m a :
  fold_left addToQueue txs m !! a
  = match ofAccount a txs with
    | [] => m !! a
    | _ :: _ => Some (default [] (m !! a) ++ ofAccount a txs)
    end.
Proof.
  revert m. induction txs as [|tx txs IH]; intros m; [done|].
  simpl. rewrite IH, addToQueue_lookup. unfold ofAccount.
  rewrite filter_cons. case_decide as Ha; simpl.
  - destruct (filter _ txs); simpl; by rewrite <- ?app_assoc.
  - done.
Qed.

(** The queue of an account holds exactly its transactions, sorted by
    sequence number; an account without transactions has no queue. *)
Lemma buildAccountTxQueues_lookup txs a :
  buildAccountTxQueues txs !! a
  = match ofAccount a txs with
    | [] => None
    | _ :: _ => Some (std_sort SeqSorter (ofAccount a txs))
    end.
Proof.
  unfold buildAccountTxQueues.
  rewrite lookup_fmap, fold_addToQueue_lookup, lookup_empty.
  by destruct (ofAccount a txs).
Qed.

Lemma buildAccountTxQueues_elem txs a q :
  (a, q) ∈ map_to_list (buildAccountTxQueues txs) ->
  q = std_sort SeqSorter (ofAccount a txs) /\ q <> []
  /\ Forall (fun tx => getSourceID tx = a) q /\ ascendingSeqNum q.
Proof.
  rewrite elem_of_map_to_list, buildAccountTxQueues_lookup.
  destruct (ofAccount a txs) as [|t l] eqn:E; [done|].
  intros [= <-]. split; [done|]. split; [|split].
  - intros Hnil. by apply std_sort_nil_inv in Hnil.
  - apply Forall_forall. intros x Hx.
    apply std_sort_elem_of in Hx. rewrite <- E in Hx.
    unfold ofAccount in Hx. by apply list_elem_of_filter in Hx as [? _].
  - apply (std_sort_by_key SeqSorter getSeqNum SeqSorter_key).
Qed.

Lemma concat_queues_addToQueue m tx :
  concat (map_to_list (addToQueue m tx)).*2 ≡ₚ concat (map_to_list m).*2 ++ [tx].
Proof.
  unfold addToQueue. set (id := getSourceID tx).
  destruct (m !! id) as [q|] eqn:E; simpl.
  - rewrite <- insert_delete_eq.
    rewrite map_to_list_insert by apply lookup_delete_eq.
    rewrite <- (map_to_list_delete m id q E). simpl.
    rewrite <- !app_assoc. apply Permutation_app_head, Permutation_app_comm.
  - rewrite map_to_list_insert by done. simpl. apply Permutation_cons_append.
Qed.

Lemma concat_queues_fold txs m :
  concat (map_to_list (fold_left addToQueue txs m)).*2
  ≡ₚ concat (map_to_list m).*2 ++ txs.
Proof.
  revert m. induction txs as [|tx txs IH]; intros m; simpl.
  - by rewrite app_nil_r.
  - rewrite IH, concat_queues_addToQueue. by rewrite <- app_assoc.
Qed.

Lemma concat_sorted_Permutation {A} (comp : A -> A -> bool) (ls : list (list A)) :
  concat (map (std_sort comp) ls) ≡ₚ concat ls.
Proof.
  induction ls as [|l ls IH]; simpl; [done|].
  by rewrite IH, std_sort_Permutation.
Qed.

(** Together the queues hold the transactions of the set. *)
Lemma buildAccountTxQueues_Permutation txs :
  concat (queuesOf (buildAccountTxQueues txs)) ≡ₚ txs.
Proof.
  unfold queuesOf, buildAccountTxQueues.
  rewrite map_to_list_fmap, <- list_fmap_compose.
  transitivity (concat (map (std_sort SeqSorter)
                          (map_to_list (fold_left addToQueue txs ∅)).*2)).
  { by rewrite <- list_fmap_compose. }
  rewrite concat_sorted_Permutation, concat_queues_fold.
  by rewrite map_to_list_empty.
Qed.




End AccountQueues.

(** ** The apply order *)

Section ApplyOrder.
Context `{SHA}.

Implicit Types (tx : TransactionFrameBase) (txs q : list TransactionFrameBase).
Implicit Types (qs : list (list TransactionFrameBase)).











End ApplyOrder.

(** ** Per-account order in the apply order *)

Section PerAccount.
Context `{SHA}.
Variable a : AccountID.

Implicit Types (tx : TransactionFrameBase) (txs q : list TransactionFrameBase).
Implicit Types (qs : list (list TransactionFrameBase)).

Lemma ofAccount_app l1 l2 :
  ofAccount a (l1 ++ l2) = ofAccount a l1 ++ ofAccount a l2.
Proof. apply filter_app. Qed.

Lemma ofAccount_cons_same tx l :
  getSourceID tx = a -> ofAccount a (tx :: l) = tx :: ofAccount a l.
Proof. intros Ha. unfold ofAccount. rewrite filter_cons. by case_decide. Qed.

Lemma ofAccount_cons_other tx l :
  getSourceID tx <> a -> ofAccount a (tx :: l) = ofAccount a l.
Proof. intros Ha. unfold ofAccount. rewrite filter_cons. by case_decide. Qed.

Lemma ofAccount_none q :
  Forall (fun tx => getSourceID tx <> a) q -> ofAccount a q = [].
Proof.
  induction 1 as [|x q Hx _ IH]; [done|]. by rewrite ofAccount_cons_other.
Qed.

Lemma ofAccount_all q :
  Forall (fun tx => getSourceID tx = a) q -> ofAccount a q = q.
Proof.
  induction 1 as [|x q Hx _ IH]; [done|].
  by rewrite ofAccount_cons_same, IH.
Qed.











End PerAccount.

(** ** The apply order is a function of the set *)

Section ApplyOrderPure.
Context `{SHA}.

Implicit Types (tx : TransactionFrameBase) (txs q : list TransactionFrameBase).
Implicit Types (qs : list (list TransactionFrameBase)).


Lemma fullHashesDistinct_elem txs x y :
  fullHashesDistinct txs -> x ∈ txs -> y ∈ txs ->
  getFullHash x = getFullHash y -> x = y.
Proof.
  unfold fullHashesDistinct. rewrite Forall_forall. intros Hd Hx Hy.
  specialize (Hd x Hx). rewrite Forall_forall in Hd. by apply Hd.
Qed.





End ApplyOrderPure.

(** ** Surge pricing *)

Section SurgePricing.
Context `{SHA} `{TxExternals}.

Implicit Types (tx : TransactionFrameBase) (txs q : list TransactionFrameBase).
Implicit Types (qs heap : list (list TransactionFrameBase)).
Implicit Types (st : SurgeState).

Variable comp : list TransactionFrameBase -> list TransactionFrameBase -> bool.
Variable maxIsOps : bool.

Lemma popTopFrom_Permutation {A} (c : A -> A -> bool) best seen rest cur out :
  popTopFrom c best seen rest = (cur, out) ->
  cur :: out ≡ₚ best :: seen ++ rest.
Proof.
  revert best seen. induction rest as [|x rest IH]; intros best seen; simpl.
  - intros [= -> ->]. by rewrite app_nil_r.
  - destruct (c best x); intros E; apply IH in E; rewrite E.
    + rewrite <- !app_assoc. simpl.
      rewrite <- !Permutation_middle. apply perm_swap.
    + by rewrite <- !app_assoc.
Qed.

Lemma popTop_Permutation {A} (c : A -> A -> bool) (heap : list A) cur out :
  popTop c heap = Some (cur, out) -> cur :: out ≡ₚ heap.
Proof.
  destruct heap as [|x tl]; [done|]. simpl. intros [= E].
  by apply popTopFrom_Permutation in E.
Qed.

Lemma popTop_None {A} (c : A -> A -> bool) (heap : list A) :
  popTop c heap = None <-> heap = [].
Proof. destruct heap; simpl; [done|]. split; [done|]. done. Qed.

(** With a comparator that is a strict weak order, nothing in the heap is
    above the queue that [popTop] returns. *)
Lemma popTopFrom_greatest {A} (c : A -> A -> bool)
    `{!Total (in_order c), !Transitive (in_order c)} best seen rest cur out :
  Forall (fun x => c best x = false) seen ->
  popTopFrom c best seen rest = (cur, out) ->
  Forall (fun x => c cur x = false) out.
Proof.
  revert best seen. induction rest as [|x rest IH]; intros best seen Hseen; simpl.
  - by intros [= <- <-].
  - destruct (c best x) eqn:E; apply IH.
    + apply Forall_app. split.
      * eapply Forall_impl; [exact Hseen|]. intros y Hy.
        assert (in_order c best x) as Hbx.
        { destruct (total (in_order c) best x) as [Hbx|Hxb]; [done|].
          unfold in_order in Hxb. congruence. }
        apply (transitivity (R := in_order c) (y := best)); done.
      * constructor; [|done].
        destruct (total (in_order c) best x) as [Hbx|Hxb]; [done|].
        unfold in_order in Hxb. congruence.
    + apply Forall_app. split; [done|]. by constructor.
Qed.

Lemma popTop_greatest {A} (c : A -> A -> bool)
    `{!Total (in_order c), !Transitive (in_order c)} (heap : list A) cur out :
  popTop c heap = Some (cur, out) -> Forall (fun x => c cur x = false) out.
Proof.
  destruct heap as [|x tl]; [done|]. simpl. intros [= E].
  by apply (popTopFrom_greatest c x [] tl).
Qed.

Lemma surgeStep_None st :
  surgeStep comp maxIsOps st = None <-> opsLeft st = 0%N \/ surgeQueue st = [].
Proof.
  unfold surgeStep. destruct (0 <? opsLeft st)%N eqn:E.
  - apply N.ltb_lt in E. destruct (popTop comp (surgeQueue st)) as [[cur heap']|] eqn:P.
    + split.
      * destruct cur; [done|]. by destruct (_ <=? _)%N.
      * intros [?|Hq]; [lia|]. rewrite Hq in P. done.
    + apply popTop_None in P. split; [by right | done].
  - apply N.ltb_ge in E. split; [intros _; left; lia | done].
Qed.

Lemma queueAccount_cons tx q : queueAccount (tx :: q) = Some (getSourceID tx).
Proof. done. Qed.

Lemma heapWellFormed_Permutation heap heap2 :
  heap ≡ₚ heap2 -> heapWellFormed heap -> heapWellFormed heap2.
Proof. intros Hp [H1 H2]. split; by rewrite <- Hp. Qed.

Lemma heapWellFormed_cons q heap :
  heapWellFormed (q :: heap) ->
  (exists tx q', q = tx :: q' /\ Forall (fun t => getSourceID t = getSourceID tx) q'
                 /\ getSourceID tx ∉ omap queueAccount heap)
  /\ heapWellFormed heap.
Proof.
  intros [H1 H2]. apply Forall_cons in H1 as [(k & Hk & Hq) H1].
  destruct q as [|tx q']; [done|]. injection Hk as <-.
  cbn in H2. apply NoDup_cons in H2 as [Hn H2].
  apply Forall_cons in Hq as [_ Hq]. split; [|by split].
  by exists tx, q'.
Qed.

Lemma heapWellFormed_snoc q heap k :
  heapWellFormed heap -> q <> [] -> Forall (fun t => getSourceID t = k) q ->
  k ∉ omap queueAccount heap -> heapWellFormed (heap ++ [q]).
Proof.
  intros [H1 H2] Hq Hk Hn. destruct q as [|tx q']; [done|].
  assert (getSourceID tx = k) as Htx by by inv Hk.
  split.
  - apply Forall_app. split; [done|]. constructor; [|done].
    exists k. split; [by rewrite queueAccount_cons, Htx | done].
  - rewrite omap_app. cbn. rewrite Htx.
    rewrite <- Permutation_cons_append. by constructor.
Qed.

Lemma heapWellFormed_nonempty heap :
  heapWellFormed heap -> Forall (fun q => q <> []) heap.
Proof.
  intros [H1 _]. eapply Forall_impl; [exact H1|].
  intros q (k & Hk & _) ->. done.
Qed.

Lemma filter_account_absent a heap :
  a ∉ omap queueAccount heap ->
  filter (fun q => queueAccount q = Some a) heap = [].
Proof.
  intros Hn. induction heap as [|q heap IH]; [done|].
  rewrite filter_cons. case_decide as Hq.
  - exfalso. apply Hn. cbn. rewrite Hq. by left.
  - apply IH. intros Hin. apply Hn. cbn.
    destruct (queueAccount q); [by right | done].
Qed.

Lemma remainingOf_absent a heap :
  a ∉ omap queueAccount heap -> remainingOf a heap = [].
Proof.
  intros Hn. unfold remainingOf. by rewrite filter_account_absent.
Qed.

Lemma remainingOf_cons a q heap :
  remainingOf a (q :: heap)
  = (if decide (queueAccount q = Some a) then q else []) ++ remainingOf a heap.
Proof. unfold remainingOf. rewrite filter_cons. by case_decide. Qed.

Lemma remainingOf_app a heap heap2 :
  remainingOf a (heap ++ heap2) = remainingOf a heap ++ remainingOf a heap2.
Proof. unfold remainingOf. by rewrite filter_app, concat_app. Qed.

Lemma filter_account_length a heap :
  NoDup (omap queueAccount heap) ->
  (length (filter (fun q => queueAccount q = Some a) heap) <= 1)%nat.
Proof.
  induction heap as [|q heap IH]; [simpl; lia|].
  intros Hnd. rewrite filter_cons.
  assert (NoDup (omap queueAccount heap)) as Hnd'.
  { cbn in Hnd. destruct (queueAccount q); [|done].
    by apply NoDup_cons in Hnd as [_ ?]. }
  case_decide as Hq; [|by apply IH].
  assert (a ∉ omap queueAccount heap) as Hk.
  { cbn in Hnd. rewrite Hq in Hnd. by apply NoDup_cons in Hnd as [? _]. }
  rewrite filter_account_absent by done. simpl. lia.
Qed.

Lemma remainingOf_Permutation a heap heap2 :
  heap ≡ₚ heap2 -> NoDup (omap queueAccount heap) ->
  remainingOf a heap = remainingOf a heap2.
Proof.
  intros Hp Hnd. unfold remainingOf. f_equal.
  assert (filter (fun q => queueAccount q = Some a) heap
          ≡ₚ filter (fun q => queueAccount q = Some a) heap2) as Hf by by rewrite Hp.
  pose proof (filter_account_length a heap Hnd) as Hlen.
  destruct (filter _ heap) as [|x [|y l]]; simpl in Hlen; [| |lia].
  - symmetry. by apply Permutation_nil.
  - by apply Permutation_singleton_l.
Qed.

Lemma opsOf_snoc txs tx :
  opsOf maxIsOps (txs ++ [tx]) = (opsOf maxIsOps txs + opsCountOf maxIsOps tx)%N.
Proof. unfold opsOf. induction txs as [|x txs IH]; simpl; lia. Qed.

Lemma kept_tail_decide q heap :
  match q with [] => heap | _ :: _ => heap ++ [q] end
  = if decide (q = []) then heap else heap ++ [q].
Proof. by destruct q. Qed.

(** The loop of surgePricingFilter carries out the selection, and ends
    within as many iterations as the heap holds transactions. *)
Lemma surgeLoop_runs fuel st :
  heapWellFormed (surgeQueue st) ->
  (length (concat (surgeQueue st)) <= fuel)%nat ->
  SurgeRuns comp maxIsOps st (surgeLoop comp maxIsOps fuel st).
Proof.
  revert st. induction fuel as [|fuel IH]; intros st Hwf Hlen.
  - simpl. apply run_done. right.
    apply heapWellFormed_nonempty in Hwf.
    destruct (surgeQueue st) as [|q heap]; [done|].
    inv Hwf. destruct q; [done|]. simpl in Hlen. lia.
  - simpl. destruct (surgeStep comp maxIsOps st) as [st'|] eqn:E.
    2:{ apply run_done. by apply surgeStep_None. }
    unfold surgeStep in E.
    destruct (0 <? opsLeft st)%N eqn:Hpos; [|done]. apply N.ltb_lt in Hpos.
    destruct (popTop comp (surgeQueue st)) as [[cur heap']|] eqn:P; [|done].
    pose proof (popTop_Permutation _ _ _ _ P) as Hp.
    apply (heapWellFormed_Permutation _ (cur :: heap')) in Hwf; [|done].
    apply heapWellFormed_cons in Hwf as [(tx & q' & -> & Hq' & Hn) Hwf'].
    assert (length (concat (surgeQueue st))
            = S (length q' + length (concat heap')))%nat as Hl.
    { rewrite <- Hp. simpl. by rewrite length_app. }
    destruct (opsCountOf maxIsOps tx <=? opsLeft st)%N eqn:Hfit;
      injection E as <-.
    + apply N.leb_le in Hfit.
      eapply run_accept; [done | exact P | done |].
      rewrite <- kept_tail_decide. apply IH; simpl.
      * destruct q' as [|t q'']; [done|].
        by apply (heapWellFormed_snoc _ _ (getSourceID tx)).
      * destruct q' as [|t q'']; [simpl in *; lia|].
        rewrite concat_app, length_app. simpl in *.
        rewrite app_nil_r. lia.
    + apply N.leb_gt in Hfit.
      eapply run_drop; [done | exact P | done |].
      apply IH; simpl; [done | lia].
Qed.

(** With a comparator that is a strict weak order, the queue popped at
    every iteration is a highest-priority queue of the heap: the run is
    the selection. *)
Lemma SurgeRuns_selects
    `{!Total (in_order comp), !Transitive (in_order comp)} st final :
  SurgeRuns comp maxIsOps st final -> SurgeSelects comp maxIsOps st final.
Proof.
  induction 1 as [st Hd|st tx q' heap' final Hpos P Hfit _ IH
                 |st tx q' heap' final Hpos P Hfit _ IH].
  - by apply select_done.
  - eapply select_accept; [done| |done|exact IH]. split.
    + symmetry. by apply popTop_Permutation in P.
    + by apply popTop_greatest in P.
  - eapply select_drop; [done| |done|exact IH]. split.
    + symmetry. by apply popTop_Permutation in P.
    + by apply popTop_greatest in P.
Qed.

Lemma SurgeRuns_final st final :
  SurgeRuns comp maxIsOps st final -> opsLeft final = 0%N \/ surgeQueue final = [].
Proof. by induction 1. Qed.

(** Whatever is selected is paid for out of the budget. *)
Lemma SurgeRuns_budget st final :
  SurgeRuns comp maxIsOps st final ->
  (opsLeft final + opsOf maxIsOps (updatedSet final) = opsLeft st + opsOf maxIsOps (updatedSet st))%N.
Proof.
  induction 1 as [st _|st tx q' heap' final Hpos P Hfit _ IH
                 |st tx q' heap' final Hpos P Hfit _ IH]; [done| |].
  - rewrite IH. simpl. rewrite opsOf_snoc. lia.
  - exact IH.
Qed.

(** For every account, the transactions selected so far followed by what
    the heap still holds of the account only ever lose a tail. *)
Lemma SurgeRuns_account a st final :
  SurgeRuns comp maxIsOps st final -> heapWellFormed (surgeQueue st) ->
  exists dropped,
    ofAccount a (updatedSet final) ++ remainingOf a (surgeQueue final) ++ dropped
    = ofAccount a (updatedSet st) ++ remainingOf a (surgeQueue st).
Proof.
  induction 1 as [st _|st tx q' heap' final Hpos P Hfit _ IH
                 |st tx q' heap' final Hpos P Hfit _ IH]; intros Hwf.
  - exists []. by rewrite app_nil_r.
  - pose proof (popTop_Permutation _ _ _ _ P) as Hp.
    rewrite (remainingOf_Permutation a (surgeQueue st) ((tx :: q') :: heap')
               (Permutation_sym Hp) (proj2 Hwf)).
    apply (heapWellFormed_Permutation _ ((tx :: q') :: heap')) in Hwf; [|done].
    apply heapWellFormed_cons in Hwf as [(tx0 & q0 & [= <- <-] & Hq' & Hn) Hwf'].
    destruct IH as [dropped IH].
    { simpl. case_decide as Hq; [done|].
      by apply (heapWellFormed_snoc _ _ (getSourceID tx)). }
    exists dropped. rewrite IH. simpl.
    rewrite remainingOf_cons, queueAccount_cons, ofAccount_app.
    assert (remainingOf a (if decide (q' = []) then heap' else heap' ++ [q'])
            = remainingOf a heap'
              ++ (if decide (getSourceID tx = a) then q' else [])) as ->.
    { case_decide as Hq.
      - subst q'. by destruct (decide _); rewrite app_nil_r.
      - rewrite remainingOf_app. f_equal.
        rewrite remainingOf_cons. unfold remainingOf at 1. simpl.
        rewrite app_nil_r. destruct q' as [|t q'']; [done|].
        apply Forall_cons in Hq' as [Ht _].
        rewrite queueAccount_cons, Ht.
        destruct (decide (getSourceID tx = a)) as [->|Hne].
        + by rewrite decide_True.
        + rewrite decide_False; [done|]. congruence. }
    destruct (decide (getSourceID tx = a)) as [Ha|Ha].
    + rewrite decide_True by congruence.
      rewrite (ofAccount_cons_same a tx []) by done.
      rewrite remainingOf_absent by (by rewrite <- Ha).
      change (ofAccount a []) with (@nil TransactionFrameBase).
      simpl. by rewrite app_nil_r, <- !app_assoc.
    + rewrite decide_False by congruence.
      rewrite (ofAccount_cons_other a tx []) by done.
      change (ofAccount a []) with (@nil TransactionFrameBase).
      simpl. by rewrite !app_nil_r.
  - pose proof (popTop_Permutation _ _ _ _ P) as Hp.
    rewrite (remainingOf_Permutation a (surgeQueue st) ((tx :: q') :: heap')
               (Permutation_sym Hp) (proj2 Hwf)).
    apply (heapWellFormed_Permutation _ ((tx :: q') :: heap')) in Hwf; [|done].
    apply heapWellFormed_cons in Hwf as [(tx0 & q0 & [= <- <-] & Hq' & Hn) Hwf'].
    destruct (IH Hwf') as [dropped IH']. simpl in IH'.
    rewrite remainingOf_cons, queueAccount_cons.
    destruct (decide (Some (getSourceID tx) = Some a)) as [Ha|Ha].
    + injection Ha as Ha. exists (dropped ++ tx :: q').
      rewrite (remainingOf_absent a heap') in IH' |- * by (by rewrite <- Ha).
      rewrite !app_nil_r in *. rewrite <- IH'. by rewrite <- !app_assoc.
    + exists dropped. simpl. exact IH'.
Qed.

Lemma buildAccountTxQueues_keyed txs : keyedByAccount (buildAccountTxQueues txs).
Proof.
  intros k q Hq. apply elem_of_map_to_list in Hq.
  apply buildAccountTxQueues_elem in Hq as (_ & Hne & Hall & _).
  split; [|done]. destruct q as [|tx q]; [done|].
  apply Forall_cons in Hall as [Htx _]. by rewrite queueAccount_cons, Htx.
Qed.

Lemma keyed_accounts (kvs : list (AccountID * list TransactionFrameBase)) :
  Forall (fun kv => queueAccount kv.2 = Some kv.1) kvs ->
  omap queueAccount kvs.*2 = kvs.*1.
Proof.
  induction 1 as [|[k q] kvs Hk _ IH]; [done|].
  cbn in *. by rewrite Hk, IH.
Qed.

Lemma keyedByAccount_accounts m :
  keyedByAccount m -> omap queueAccount (queuesOf m) = (map_to_list m).*1.
Proof.
  intros Hm. apply keyed_accounts, Forall_forall. intros [k q] Hkq.
  apply elem_of_map_to_list in Hkq. by apply Hm in Hkq as [? _].
Qed.

Lemma keyedByAccount_heapWellFormed m :
  keyedByAccount m -> heapWellFormed (queuesOf m).
Proof.
  intros Hm. split.
  - apply Forall_fmap, Forall_forall. intros [k q] Hkq.
    apply elem_of_map_to_list in Hkq. exists k. by apply Hm.
  - rewrite keyedByAccount_accounts by done. apply NoDup_fst_map_to_list.
Qed.

Lemma keyedByAccount_remainingOf a m :
  keyedByAccount m -> remainingOf a (queuesOf m) = default [] (m !! a).
Proof.
  intros Hm. destruct (m !! a) as [q|] eqn:E; simpl.
  - assert (queuesOf m ≡ₚ q :: queuesOf (delete a m)) as Hp.
    { unfold queuesOf. by rewrite <- (map_to_list_delete m a q E). }
    rewrite (remainingOf_Permutation a _ _ Hp)
      by apply (keyedByAccount_heapWellFormed m Hm).
    rewrite remainingOf_cons, decide_True by by apply Hm.
    rewrite remainingOf_absent; [by rewrite app_nil_r|].
    rewrite keyedByAccount_accounts.
    + intros Hin. apply list_elem_of_fmap in Hin as ([k q'] & -> & Hin).
      apply elem_of_map_to_list in Hin. simpl in Hin.
      by rewrite lookup_delete_eq in Hin.
    + intros k q' Hk. apply lookup_delete_Some in Hk as [_ Hk]. by apply Hm.
  - apply remainingOf_absent. rewrite keyedByAccount_accounts by done.
    intros Hin. apply list_elem_of_fmap in Hin as ([k q'] & -> & Hin).
    apply elem_of_map_to_list in Hin. simpl in *. congruence.
Qed.

Lemma queuesOf_remainingOf a txs :
  remainingOf a (queuesOf (buildAccountTxQueues txs))
  = std_sort SeqSorter (ofAccount a txs).
Proof.
  rewrite keyedByAccount_remainingOf by apply buildAccountTxQueues_keyed.
  rewrite buildAccountTxQueues_lookup. by destruct (ofAccount a txs).
Qed.
End SurgePricing.

Section SurgeComparator.
Context `{SHA} `{TxExternals}.

Implicit Types (tx : TransactionFrameBase) (txs q : list TransactionFrameBase).

(** Comparing rates by cross multiplication is transitive when the
    denominators are positive. *)
Lemma rate_le_trans (b1 b2 b3 m1 m2 m3 : Z) :
  0 < m1 -> 0 < m2 -> 0 < m3 ->
  b1 * m2 <= b2 * m1 -> b2 * m3 <= b3 * m2 -> b1 * m3 <= b3 * m1.
Proof.
  intros H1 H2 H3 Ha Hb.
  assert (m2 * (b1 * m3) <= m2 * (b3 * m1)) by nia. nia.
Qed.

Lemma rate_lt_le_trans (b1 b2 b3 m1 m2 m3 : Z) :
  0 < m1 -> 0 < m2 -> 0 < m3 ->
  b1 * m2 < b2 * m1 -> b2 * m3 <= b3 * m2 -> b1 * m3 < b3 * m1.
Proof.
  intros H1 H2 H3 Ha Hb.
  assert (m2 * (b1 * m3) < m2 * (b3 * m1)) by nia. nia.
Qed.

Lemma rate_le_lt_trans (b1 b2 b3 m1 m2 m3 : Z) :
  0 < m1 -> 0 < m2 -> 0 < m3 ->
  b1 * m2 <= b2 * m1 -> b2 * m3 < b3 * m2 -> b1 * m3 < b3 * m1.
Proof.
  intros H1 H2 H3 Ha Hb.
  assert (m2 * (b1 * m3) < m2 * (b3 * m1)) by nia. nia.
Qed.

(** SurgeCompare on two non-empty queues: the lexicographic order of the
    fee rate and of the full hash XORed with the seed. *)
Lemma SurgeCompare_tops seed header tx1 q1 tx2 q2 :
  SurgeCompare seed header (Some (tx1 :: q1)) (Some (tx2 :: q2)) = true
  <-> getFeeBid tx1 * tx_getMinFee tx2 header < getFeeBid tx2 * tx_getMinFee tx1 header
      \/ (getFeeBid tx1 * tx_getMinFee tx2 header
          = getFeeBid tx2 * tx_getMinFee tx1 header
          /\ (N.lxor (getFullHash tx1) seed < N.lxor (getFullHash tx2) seed)%N).
Proof.
  cbn. unfold bigMultiply, lessThanXored.
  destruct (Z.ltb_spec (getFeeBid tx1 * tx_getMinFee tx2 header)
              (getFeeBid tx2 * tx_getMinFee tx1 header)) as [Hlt|Hge].
  - split; [by left|done].
  - destruct (Z.ltb_spec (getFeeBid tx2 * tx_getMinFee tx1 header)
                (getFeeBid tx1 * tx_getMinFee tx2 header)) as [Hgt|Hle].
    + split; [done|]. intros [?|[? _]]; lia.
    + rewrite N.ltb_lt. split.
      * intros Hx. right. split; [lia|done].
      * intros [?|[_ ?]]; [lia|done].
Qed.

Lemma SurgeCompare_tops_false seed header tx1 q1 tx2 q2 :
  SurgeCompare seed header (Some (tx1 :: q1)) (Some (tx2 :: q2)) = false
  <-> getFeeBid tx2 * tx_getMinFee tx1 header < getFeeBid tx1 * tx_getMinFee tx2 header
      \/ (getFeeBid tx1 * tx_getMinFee tx2 header
          = getFeeBid tx2 * tx_getMinFee tx1 header
          /\ (N.lxor (getFullHash tx2) seed <= N.lxor (getFullHash tx1) seed)%N).
Proof.
  rewrite <- not_true_iff_false, SurgeCompare_tops. lia.
Qed.

(** Of two queues, one is not below the other. *)
Lemma SurgeCompare_total seed header q1 q2 :
  SurgeCompare seed header (Some q1) (Some q2) = false
  \/ SurgeCompare seed header (Some q2) (Some q1) = false.
Proof.
  destruct q1 as [|tx1 q1], q2 as [|tx2 q2]; [by left|by right|by left|].
  destruct (SurgeCompare seed header (Some (tx1 :: q1)) (Some (tx2 :: q2))) eqn:E;
    [right|by left].
  apply SurgeCompare_tops in E. apply SurgeCompare_tops_false. lia.
Qed.

(** With positive minimum fees, not being below is transitive. *)
Lemma SurgeCompare_not_below_trans seed header q1 q2 q3 :
  (forall tx, 0 < tx_getMinFee tx header) ->
  SurgeCompare seed header (Some q2) (Some q1) = false ->
  SurgeCompare seed header (Some q3) (Some q2) = false ->
  SurgeCompare seed header (Some q3) (Some q1) = false.
Proof.
  intros Hpos.
  destruct q1 as [|tx1 q1]; [by destruct q3|].
  destruct q2 as [|tx2 q2]; [done|].
  destruct q3 as [|tx3 q3]; [done|].
  rewrite !SurgeCompare_tops_false.
  pose proof (Hpos tx1) as P1. pose proof (Hpos tx2) as P2.
  pose proof (Hpos tx3) as P3.
  intros [H12|[H12 X12]] [H23|[H23 X23]].
  - left. apply (rate_lt_le_trans _ (getFeeBid tx2) _ _ (tx_getMinFee tx2 header));
      [done..|lia].
  - left. apply (rate_lt_le_trans _ (getFeeBid tx2) _ _ (tx_getMinFee tx2 header));
      [done..|lia].
  - left. apply (rate_le_lt_trans _ (getFeeBid tx2) _ _ (tx_getMinFee tx2 header));
      [done..|lia|done].
  - right. split; [|lia]. apply Z.le_antisymm.
    + apply (rate_le_trans _ (getFeeBid tx2) _ _ (tx_getMinFee tx2 header));
        [done..|lia|lia].
    + apply (rate_le_trans _ (getFeeBid tx2) _ _ (tx_getMinFee tx2 header));
        [done..|lia|lia].
Qed.

End SurgeComparator.

Section SurgePricingFilter.
Context `{SHA} `{TxExternals}.

(** C2 (as amended). surgePricingFilter leaves the set alone unless its
    size exceeds the budget, the size being counted in operations from
    protocol 11 on and in transactions of MAX_OPS_PER_TX operations each
    before. Otherwise, the minimum fee of every transaction being
    positive (so that SurgeCompare orders the heap), the new set is, in
    hash order, what the selection accepts: while budget is left and the
    heap is not empty a highest-priority queue under SurgeCompare is
    popped; its front is accepted, popped and paid for when its operation
    count (its own from protocol 11 on, MAX_OPS_PER_TX before) fits the
    budget, and the queue is pushed back if transactions remain; else the
    whole queue is dropped. The operations accepted and the budget left
    add up to the budget, and the transactions accepted of an account are
    a prefix of its queue: none is accepted after one was refused. *)
Theorem surgePricingFilter_selection (header : LedgerHeader) (budget : N)
    (seed : Hash) (s : TxSetFrame) :
  (forall tx, 0 < tx_getMinFee tx header) ->
  let maxIsOps := (11 <=? ledgerVersion header)%N in
  let curSizeOps :=
    if maxIsOps then sizeOp s else ((sizeTx s * MAX_OPS_PER_TX) mod SIZE_MOD)%N in
  let surge q1 q2 := SurgeCompare seed header (Some q1) (Some q2) in
  let st0 := {| opsLeft := budget;
                surgeQueue := queuesOf (buildAccountTxQueues (mTransactions s));
                updatedSet := [] |} in
  ((curSizeOps <= budget)%N -> surgePricingFilter header budget seed s = s)
  /\ ((budget < curSizeOps)%N ->
      exists final,
        SurgeSelects surge maxIsOps st0 final
        /\ mTransactions (surgePricingFilter header budget seed s)
           = std_sort HashTxSorter (updatedSet final)
        /\ (opsLeft final + opsOf maxIsOps (updatedSet final) = budget)%N
        /\ forall a,
             ofAccount a (updatedSet final)
             `prefix_of` std_sort SeqSorter (ofAccount a (mTransactions s))).
Proof.
  intros Hfee maxIsOps curSizeOps surge st0. unfold surgePricingFilter.
  fold maxIsOps. fold curSizeOps. split.
  - intros Hle. apply N.ltb_ge in Hle. by rewrite Hle.
  - intros Hlt. apply N.ltb_lt in Hlt. rewrite Hlt.
    fold surge. fold st0.
    set (final := surgeLoop surge maxIsOps (length (mTransactions s)) st0).
    assert (heapWellFormed (surgeQueue st0)) as Hwf.
    { apply keyedByAccount_heapWellFormed, buildAccountTxQueues_keyed. }
    assert (SurgeRuns surge maxIsOps st0 final) as Hrun.
    { apply surgeLoop_runs; [done|]. simpl.
      by rewrite buildAccountTxQueues_Permutation. }
    assert (Total (in_order surge)) as Htotal.
    { intros q1 q2. unfold in_order, surge.
      destruct (SurgeCompare_total seed header q2 q1); [by left|by right]. }
    assert (Transitive (in_order surge)) as Htrans.
    { intros q1 q2 q3. unfold in_order, surge.
      by apply SurgeCompare_not_below_trans. }
    exists final. split; [by apply SurgeRuns_selects|]. split; [done|]. split.
    + rewrite (SurgeRuns_budget _ _ _ _ Hrun). cbn. lia.
    + intros a.
      destruct (SurgeRuns_account _ _ a _ _ Hrun Hwf) as [dropped Hd].
      simpl in Hd. rewrite queuesOf_remainingOf in Hd.
      change (ofAccount a []) with (@nil TransactionFrameBase) in Hd.
      simpl in Hd. rewrite <- Hd. by eexists.
Qed.
End SurgePricingFilter.

(** ** The base fee of a set *)

Section BaseFee.

Implicit Types (tx : TransactionFrameBase) (txs : list TransactionFrameBase).

Lemma perOpBid_ceiling tx :
  (0 < getNumOperations tx)%N ->
  (perOpBid tx - 1) * Z.of_N (getNumOperations tx) < getFeeBid tx
  /\ getFeeBid tx <= perOpBid tx * Z.of_N (getNumOperations tx).
Proof.
  intros Hops. unfold perOpBid, bigDivide.
  set (c := Z.of_N (getNumOperations tx)). set (a := getFeeBid tx).
  assert (0 < c) as Hc by (unfold c; lia).
  rewrite Z.mul_1_r.
  pose proof (Z.div_mod (a + c - 1) c ltac:(lia)) as Hdm.
  pose proof (Z.mod_pos_bound (a + c - 1) c Hc) as Hm.
  split; nia.
Qed.

Lemma getBaseFee_loop txs (ops0 : N) (low0 : Z) :
  fold_left
    (fun '(ops, lowBaseFee) txPtr =>
       let txOps := getNumOperations txPtr in
       let txBaseFee := bigDivide (getFeeBid txPtr) 1 (Z.of_N txOps) ROUND_UP in
       (((ops + txOps) mod SIZE_MOD)%N, Z.min lowBaseFee txBaseFee))
    txs (ops0, low0)
  = (fold_left (fun a tx => ((a + getNumOperations tx) mod SIZE_MOD)%N) txs ops0,
     fold_left (fun low tx => Z.min low (perOpBid tx)) txs low0).
Proof.
  revert ops0 low0. induction txs as [|tx txs IH]; intros ops0 low0; [done|].
  simpl. by rewrite IH.
Qed.

Lemma lowest_bid_fold txs (low0 : Z) :
  let r := fold_left (fun low tx => Z.min low (perOpBid tx)) txs low0 in
  r <= low0 /\ Forall (fun tx => r <= perOpBid tx) txs
  /\ (r = low0 \/ exists tx, tx ∈ txs /\ r = perOpBid tx).
Proof.
  revert low0. induction txs as [|tx txs IH]; intros low0; simpl.
  - split; [lia|]. split; [constructor | by left].
  - destruct (IH (Z.min low0 (perOpBid tx))) as (H1 & H2 & H3).
    split; [lia|]. split.
    + constructor; [lia | done].
    + destruct H3 as [H3 | (tx' & Hin & H3)].
      * destruct (Z.min_spec low0 (perOpBid tx)) as [[_ E]|[_ E]].
        -- left. lia.
        -- right. exists tx. split; [by left | lia].
      * right. exists tx'. split; [by right | done].
Qed.

(** C3 (as amended). Before protocol 11 getBaseFee returns header.baseFee.
    From protocol 11 on it returns the lowest per-operation bid of the set,
    each bid being feeBid/ops rounded up and the minimum starting from
    INT64_MAX, when the operation count of the set exceeds the cutoff
    [maxTxSetSize - 100] (0 when maxTxSetSize < 100), and header.baseFee
    otherwise. *)
Theorem getBaseFee_spec (lh : LedgerHeader) (s : TxSetFrame) :
  ((ledgerVersion lh < 11)%N -> getBaseFee lh s = baseFee lh)
  /\ ((11 <= ledgerVersion lh)%N -> (sizeOp s <= surgeOpsCutoff lh)%N ->
      getBaseFee lh s = baseFee lh)
  /\ ((11 <= ledgerVersion lh)%N -> (surgeOpsCutoff lh < sizeOp s)%N ->
      getBaseFee lh s <= INT64_MAX
      /\ Forall (fun tx => getBaseFee lh s <= perOpBid tx) (mTransactions s)
      /\ (getBaseFee lh s = INT64_MAX
          \/ exists tx, tx ∈ mTransactions s /\ getBaseFee lh s = perOpBid tx))
  /\ (forall tx, (0 < getNumOperations tx)%N ->
        (perOpBid tx - 1) * Z.of_N (getNumOperations tx) < getFeeBid tx
        /\ getFeeBid tx <= perOpBid tx * Z.of_N (getNumOperations tx)).
Proof.
  unfold getBaseFee. rewrite getBaseFee_loop. fold (sizeOp s). fold (surgeOpsCutoff lh).
  split; [|split; [|split]].
  - intros Hv. apply N.leb_gt in Hv. by rewrite Hv.
  - intros Hv Hle. apply N.leb_le in Hv. apply N.ltb_ge in Hle. by rewrite Hv, Hle.
  - intros Hv Hlt. apply N.leb_le in Hv. apply N.ltb_lt in Hlt. rewrite Hv, Hlt.
    apply lowest_bid_fold.
  - apply perOpBid_ceiling.
Qed.
End BaseFee.

(** ** Fee-bump transactions: the fee charged *)

Section FeeBumpFee.

Implicit Types (tx : FeeBumpTransactionFrame).

(** An operation whose exact result fits an int64 gives that result. *)
Lemma wrap64_fits (z : Z) : fitsInt64 z -> wrap64 z = z.
Proof.
  unfold fitsInt64, INT64_MIN, INT64_MAX, wrap64. intros Hz.
  rewrite Z.mod_small by lia. lia.
Qed.

Lemma fb_inclusion_plus_flat tx :
  0 <= fb_flatFee tx <= fb_getFullFee tx ->
  fb_getFullFee tx <= INT64_MAX ->
  fb_getInclusionFee tx + fb_flatFee tx = fb_getFullFee tx.
Proof.
  unfold fb_getInclusionFee, fb_flatFee, fb_isSoroban,
    fb_declaredSorobanResourceFee.
  destruct (tf_isSoroban (mInnerTx tx)); intros Hflat Hfull; [|lia].
  rewrite wrap64_fits; [lia|]. unfold fitsInt64, INT64_MIN, INT64_MAX in *. lia.
Qed.

Lemma fb_chargedOps_inner tx :
  (tf_getNumOperations (mInnerTx tx) + 1 < UINT32_MOD)%N ->
  fb_chargedOps tx = Z.of_N (tf_getNumOperations (mInnerTx tx)) + 1.
Proof.
  intros Hlt. unfold fb_chargedOps, fb_getNumOperations.
  rewrite N.mod_small by done. lia.
Qed.

(** C4 (as amended). getFee computes in int64; for a base fee that is
    not negative, a flat fee (the declared Soroban resource fee, 0 for a
    classic inner transaction) between 0 and the full fee, and a product
    of base fee and operation count that fits an int64, nothing
    overflows, and with a base fee present and [applying] set, getFee
    returns the flat fee plus the smaller of the inclusion fee bid and
    base fee times the operation count. It is operation count times base
    fee, plus the flat fee, exactly when that product does not exceed the
    inclusion fee bid; the inclusion part never exceeds the inclusion fee
    bid, so the fee charged never exceeds the full fee. The operation
    count of a fee bump is that of the inner transaction plus one. *)
Theorem fb_getFee_applying tx (header : LedgerHeader) (baseFee : Z) :
  0 <= baseFee ->
  baseFee * fb_chargedOps tx <= INT64_MAX ->
  0 <= fb_flatFee tx <= fb_getFullFee tx ->
  fb_getFullFee tx <= INT64_MAX ->
  fb_getFee tx header (Some baseFee) true
  = fb_flatFee tx + Z.min (fb_getInclusionFee tx) (baseFee * fb_chargedOps tx)
  /\ (baseFee * fb_chargedOps tx <= fb_getInclusionFee tx ->
      fb_getFee tx header (Some baseFee) true
      = fb_chargedOps tx * baseFee + fb_flatFee tx)
  /\ (fb_getInclusionFee tx < baseFee * fb_chargedOps tx ->
      fb_getFee tx header (Some baseFee) true = fb_getFullFee tx)
  /\ fb_getFee tx header (Some baseFee) true - fb_flatFee tx <= fb_getInclusionFee tx
  /\ fb_getFee tx header (Some baseFee) true <= fb_getFullFee tx
  /\ ((tf_getNumOperations (mInnerTx tx) + 1 < UINT32_MOD)%N ->
      fb_chargedOps tx = Z.of_N (tf_getNumOperations (mInnerTx tx)) + 1).
Proof.
  intros Hbase Hprod Hflat Hmax.
  pose proof (fb_inclusion_plus_flat tx Hflat Hmax) as Hfull.
  assert (1 <= fb_chargedOps tx) as Hops by (unfold fb_chargedOps; lia).
  assert (0 <= baseFee * fb_chargedOps tx) as Hprod0 by nia.
  assert (fb_getFee tx header (Some baseFee) true
          = fb_flatFee tx
            + Z.min (fb_getInclusionFee tx) (baseFee * fb_chargedOps tx)) as E.
  { unfold fb_getFee. fold (fb_flatFee tx). fold (fb_chargedOps tx).
    rewrite (wrap64_fits (baseFee * fb_chargedOps tx))
      by (unfold fitsInt64, INT64_MIN; lia).
    apply wrap64_fits. unfold fitsInt64, INT64_MIN. lia. }
  rewrite E. split; [done|]. split; [|split; [|split; [|split]]].
  - intros Hle. lia.
  - intros Hlt. lia.
  - lia.
  - lia.
  - apply fb_chargedOps_inner.
Qed.
End FeeBumpFee.

(** ** Fee-bump transactions: the fee check *)

Section FeeBumpValid.
Context `{FeeBumpExternals}.

Implicit Types (tx : FeeBumpTransactionFrame).

(** C5 (as amended). From protocol 13 on, and with a positive minimum fee
    per operation, a fee bump whose outer inclusion fee per operation is
    strictly below that of the inner transaction fails
    commonValidPreSeqNum with txINSUFFICIENT_FEE; before protocol 13 every
    fee bump fails with txNOT_SUPPORTED. *)
Theorem fb_commonValidPreSeqNum_insufficient_fee tx (ltx : LedgerTxn)
    (txResult : TxResult) :
  ((13 <= ledgerVersion (ltxHeader ltx))%N ->
   0 < minFeePerOp (ltxHeader ltx) ->
   outerRateBelowInner tx ->
   fst (fb_commonValidPreSeqNum tx ltx txResult) = false
   /\ resultCode (snd (fb_commonValidPreSeqNum tx ltx txResult)) = txINSUFFICIENT_FEE)
  /\ ((ledgerVersion (ltxHeader ltx) < 13)%N ->
      fst (fb_commonValidPreSeqNum tx ltx txResult) = false
      /\ resultCode (snd (fb_commonValidPreSeqNum tx ltx txResult)) = txNOT_SUPPORTED).
Proof.
  unfold fb_commonValidPreSeqNum. split.
  - intros Hv Hrate Hlow. unfold outerRateBelowInner in Hlow.
    apply N.ltb_ge in Hv. rewrite Hv.
    destruct (fb_getInclusionFee tx
              <? getMinInclusionFee (fb_getNumOperations tx) (ltxHeader ltx)) eqn:E1;
      [done|].
    apply Z.ltb_ge in E1. unfold getMinInclusionFee in E1.
    set (r := minFeePerOp (ltxHeader ltx)) in *.
    set (no := Z.max 1 (Z.of_N (fb_getNumOperations tx))) in *.
    set (ni := Z.max 1 (Z.of_N (tf_getNumOperations (mInnerTx tx)))) in *.
    assert (1 <= no) by (unfold no; lia). assert (1 <= ni) by (unfold ni; lia).
    assert (0 < fb_getInclusionFee tx) as Hpos by nia.
    assert (0 < tf_getInclusionFee (mInnerTx tx)) as Hinner by nia.
    destruct (tf_getInclusionFee (mInnerTx tx) <? 0) eqn:E2;
      [apply Z.ltb_lt in E2; lia|].
    unfold bigMultiply, getMinInclusionFee. fold r no ni.
    assert ((fb_getInclusionFee tx * (r * ni)
             <? tf_getInclusionFee (mInnerTx tx) * (r * no)) = true) as ->.
    { apply Z.ltb_lt. nia. }
    split; [done|]. by destruct (bigDivide128 _ _ _).
  - intros Hv. apply N.ltb_lt in Hv. by rewrite Hv.
Qed.
End FeeBumpValid.

(** ** Fee-bump transactions: collecting the fee *)

Section FeeBumpProcessFee.

Implicit Types (tx : FeeBumpTransactionFrame).

Lemma addBalance_deduct (bal fee : Z) :
  0 < fee -> 0 <= bal <= INT64_MAX ->
  fst (addBalance bal (wrap64 (- Z.min bal fee))) = bal - Z.min bal fee.
Proof.
  intros Hf Hb.
  rewrite wrap64_fits by (unfold fitsInt64, INT64_MIN, INT64_MAX in *; lia).
  unfold addBalance. unfold INT64_MAX in *.
  destruct (- Z.min bal fee =? 0) eqn:E0; simpl.
  - apply Z.eqb_eq in E0. lia.
  - assert ((bal + - Z.min bal fee <? 0) = false) as -> by (apply Z.ltb_ge; lia).
    assert ((2 ^ 63 - 1 <? bal + - Z.min bal fee) = false) as ->
      by (apply Z.ltb_ge; lia).
    simpl. lia.
Qed.

(** The fee pool takes what is moved to it without overflow. *)
Lemma feePool_takes (pool bal fee : Z) :
  0 < fee -> 0 <= bal -> 0 <= pool -> pool + bal <= INT64_MAX ->
  wrap64 (pool + Z.min bal fee) = pool + Z.min bal fee.
Proof.
  intros Hf Hb Hp Hsum. apply wrap64_fits.
  unfold fitsInt64, INT64_MIN, INT64_MAX in *. lia.
Qed.

End FeeBumpProcessFee.

(** ** Validity of a transaction set *)

Section CheckValid.
Context `{SHA} `{TxExternals} `{AccountExternals}.

Implicit Types (tx : TransactionFrameBase) (txs q : list TransactionFrameBase).
Implicit Types (qs : list (list TransactionFrameBase)).
Implicit Types (st : TrimState) (m : gmap AccountID Z).

Lemma checkQueueValidity_justCheck ltx q lastSeq st :
  (validFrom ltx lastSeq q ->
   checkQueueValidity ltx true q lastSeq st
   = Normal (withFeeMap (fold_left addFeeBid q (accountFeeMap st)) st, q))
  /\ (~ validFrom ltx lastSeq q ->
      checkQueueValidity ltx true q lastSeq st = ReturnedFalse).
Proof.
  revert lastSeq st. induction q as [|tx q IH]; intros lastSeq st.
  - split; [|done]. intros _. by destruct st.
  - simpl. destruct (tx_checkValid tx ltx lastSeq) eqn:E; simpl.
    + destruct (IH (getSeqNum tx)
                  {| accountFeeMap := addFeeBid (accountFeeMap st) tx;
                     trimmed := trimmed st; frame := frame st |}) as [IH1 IH2].
      split.
      * intros [_ Hv]. by rewrite (IH1 Hv).
      * intros Hn. rewrite IH2; [done|]. intros Hv. apply Hn. by split.
    + split; [|done]. by intros [? _].
Qed.

Lemma checkAllValidity_justCheck ltx qs st :
  (Forall (validFrom ltx 0) qs ->
   checkAllValidity ltx true qs st
   = Normal (withFeeMap (fold_left addFeeBid (concat qs) (accountFeeMap st)) st, qs))
  /\ (~ Forall (validFrom ltx 0) qs ->
      checkAllValidity ltx true qs st = ReturnedFalse).
Proof.
  revert st. induction qs as [|q qs IH]; intros st.
  - split; [|by intros []]. intros _. by destruct st.
  - simpl. destruct (checkQueueValidity_justCheck ltx q 0 st) as [Hq1 Hq2].
    destruct (decide (validFrom ltx 0 q)) as [Hv|Hv].
    + rewrite (Hq1 Hv).
      destruct (IH (withFeeMap (fold_left addFeeBid q (accountFeeMap st)) st))
        as [IH1 IH2].
      split.
      * intros Hall. apply Forall_cons in Hall as [_ Hall].
        rewrite (IH1 Hall). simpl. by rewrite fold_left_app.
      * intros Hn. rewrite IH2; [done|]. intros Hall. apply Hn. by constructor.
    + rewrite (Hq2 Hv). split; [|done]. intros Hall.
      by apply Forall_cons in Hall as [? _].
Qed.

Lemma checkQueueFees_justCheck ltx q st :
  checkQueueFees ltx true q st = Normal st
  <-> Forall (fun tx =>
        canAfford ltx (default 0 (accountFeeMap st !! getFeeSourceID tx)) tx) q.
Proof.
  induction q as [|tx q IH]; simpl.
  - split; [constructor | done].
  - destruct (loadAccount ltx (getFeeSourceID tx)) as [feeSource|] eqn:E.
    + destruct (getAvailableBalance (ltxHeader ltx) feeSource
                <? default 0 (accountFeeMap st !! getFeeSourceID tx)) eqn:Hlt.
      * apply Z.ltb_lt in Hlt. split; [done|]. intros Hall.
        apply Forall_cons in Hall as [(fs & Hfs & Hle) _].
        rewrite E in Hfs. injection Hfs as <-. lia.
      * apply Z.ltb_ge in Hlt. rewrite IH. split.
        -- intros Hall. constructor; [|done]. by exists feeSource.
        -- intros Hall. by apply Forall_cons in Hall as [_ ?].
    + split; [done|]. intros Hall.
      apply Forall_cons in Hall as [(fs & Hfs & _) _]. congruence.
Qed.

Lemma checkQueueFees_justCheck_state ltx q st st' :
  checkQueueFees ltx true q st = Normal st' -> st' = st.
Proof.
  induction q as [|tx q IH]; simpl; [by intros [= <-]|].
  destruct (loadAccount ltx (getFeeSourceID tx)); [|done].
  by destruct (_ <? _).
Qed.

Lemma checkAllFees_justCheck ltx qs st :
  (exists st', checkAllFees ltx true qs st = Normal st')
  <-> Forall (fun tx =>
        canAfford ltx (default 0 (accountFeeMap st !! getFeeSourceID tx)) tx)
        (concat qs).
Proof.
  induction qs as [|q qs IH]; simpl.
  - split; [constructor | by exists st].
  - rewrite Forall_app, <- IH, <- checkQueueFees_justCheck.
    destruct (checkQueueFees ltx true q st) as [st1| |] eqn:E.
    + apply checkQueueFees_justCheck_state in E as ->. split; [by split | by intros [_ ?]].
    + split; [by intros [? ?] | by intros [? _]].
    + split; [by intros [? ?] | by intros [? _]].
Qed.

(** The saturating addition computes the sum of the bids, capped at
    INT64_MAX, when no bid is negative. *)
Lemma addFeeBid_lookup m tx a :
  0 <= getFeeBid tx -> 0 <= default 0 (m !! a) <= INT64_MAX ->
  default 0 (addFeeBid m tx !! a)
  = Z.min INT64_MAX
      (default 0 (m !! a)
       + (if decide (getFeeSourceID tx = a) then getFeeBid tx else 0)).
Proof.
  intros Hbid Hm. unfold addFeeBid. case_decide as Ha.
  - subst a. destruct (_ <? _) eqn:E; rewrite lookup_insert_eq; simpl.
    + apply Z.ltb_lt in E. lia.
    + apply Z.ltb_ge in E. lia.
  - destruct (_ <? _); rewrite lookup_insert_ne by done; lia.
Qed.

Lemma feeBidTotal_cons a tx txs :
  feeBidTotal a (tx :: txs)
  = (if decide (getFeeSourceID tx = a) then getFeeBid tx else 0) + feeBidTotal a txs.
Proof. unfold feeBidTotal. rewrite filter_cons. by case_decide. Qed.

Lemma feeBidTotal_nonneg a txs :
  Forall (fun tx => 0 <= getFeeBid tx) txs -> 0 <= feeBidTotal a txs.
Proof.
  induction 1 as [|tx txs Htx _ IH]; [done|].
  rewrite feeBidTotal_cons. case_decide; lia.
Qed.

Lemma feeBidTotal_Permutation a txs txs' :
  txs ≡ₚ txs' -> feeBidTotal a txs = feeBidTotal a txs'.
Proof.
  induction 1 as [|x l l' _ IH|x y l|l1 l2 l3 _ IH1 _ IH2].
  - done.
  - by rewrite !feeBidTotal_cons, IH.
  - rewrite !feeBidTotal_cons. lia.
  - congruence.
Qed.

Lemma fold_addFeeBid_lookup txs m a :
  Forall (fun tx => 0 <= getFeeBid tx) txs ->
  0 <= default 0 (m !! a) <= INT64_MAX ->
  default 0 (fold_left addFeeBid txs m !! a)
  = Z.min INT64_MAX (default 0 (m !! a) + feeBidTotal a txs).
Proof.
  intros Hall. revert m. induction Hall as [|tx txs Htx Hall IH]; intros m Hm.
  - simpl. unfold feeBidTotal. simpl. lia.
  - simpl. pose proof (addFeeBid_lookup m tx a Htx Hm) as Hstep.
    pose proof (feeBidTotal_nonneg a txs Hall) as Hnn.
    rewrite IH, Hstep, feeBidTotal_cons.
    + case_decide; lia.
    + rewrite Hstep. case_decide; unfold INT64_MAX in *; lia.
Qed.

Lemma checkOrTrim_justCheck ltx s :
  Forall (fun tx => 0 <= getFeeBid tx) (mTransactions s) ->
  (exists st, checkOrTrim ltx true [] s = Normal st)
  <-> (forall a q, buildAccountTxQueues (mTransactions s) !! a = Some q ->
         validFrom ltx 0 q)
      /\ (forall tx, tx ∈ mTransactions s ->
            canAfford ltx
              (Z.min INT64_MAX (feeBidTotal (getFeeSourceID tx) (mTransactions s)))
              tx).
Proof.
  intros Hbids. unfold checkOrTrim.
  set (m := buildAccountTxQueues (mTransactions s)).
  set (st0 := {| accountFeeMap := ∅; trimmed := []; frame := s |}).
  assert (concat (queuesOf m) ≡ₚ mTransactions s) as Hp
    by apply buildAccountTxQueues_Permutation.
  assert (Forall (validFrom ltx 0) (queuesOf m)
          <-> forall a q, m !! a = Some q -> validFrom ltx 0 q) as Hval.
  { rewrite Forall_forall. split.
    - intros Hall a q Hq. apply Hall. unfold queuesOf.
      apply list_elem_of_fmap. exists (a, q). split; [done|].
      by apply elem_of_map_to_list.
    - intros Hall q Hq. unfold queuesOf in Hq.
      apply list_elem_of_fmap in Hq as ([a q'] & -> & Hq).
      apply elem_of_map_to_list in Hq. by apply (Hall a). }
  destruct (checkAllValidity_justCheck ltx (queuesOf m) st0) as [Hv1 Hv2].
  destruct (decide (Forall (validFrom ltx 0) (queuesOf m))) as [Hv|Hv].
  - rewrite (Hv1 Hv), checkAllFees_justCheck. rewrite <- Hval.
    split.
    + intros Hall. split; [done|]. intros tx Htx. rewrite <- Hp in Htx.
      rewrite Forall_forall in Hall. specialize (Hall tx Htx). simpl in Hall.
      rewrite fold_addFeeBid_lookup in Hall.
      * rewrite lookup_empty in Hall. simpl in Hall.
        by rewrite (feeBidTotal_Permutation _ _ _ Hp) in Hall.
      * by rewrite Hp.
      * rewrite lookup_empty. simpl. unfold INT64_MAX. lia.
    + intros [_ Hall]. apply Forall_forall. intros tx Htx. simpl.
      rewrite fold_addFeeBid_lookup.
      * rewrite lookup_empty. simpl.
        rewrite (feeBidTotal_Permutation _ _ _ Hp). apply Hall. by rewrite <- Hp.
      * by rewrite Hp.
      * rewrite lookup_empty. simpl. unfold INT64_MAX. lia.
  - rewrite (Hv2 Hv). rewrite <- Hval. split; [by intros [? ?] | by intros [? _]].
Qed.

(** C7 (as amended). For a set without negative fee bids, checkValid
    returns true exactly when (i) the previous ledger hash of the set is
    the hash of the last closed ledger, (ii) the size of the set, counted
    in operations from protocol 11 on and in transactions before, does not
    exceed maxTxSetSize, (iii) the transactions are in ascending order of
    full hash, (iv) in every account queue (the transactions of a source
    account by sequence number) each transaction passes checkValid given
    the sequence number of the one before it, 0 for the first, and (v) the
    fee source of every transaction exists and its available balance
    covers the sum of the fee bids of the set's transactions with that fee
    source, the sum being capped at INT64_MAX. *)
Theorem checkValid_iff (lcl : LedgerHeaderHistoryEntry) (ltx : LedgerTxn)
    (s : TxSetFrame) :
  Forall (fun tx => 0 <= getFeeBid tx) (mTransactions s) ->
  checkValid lcl ltx s = Some true
  <-> lclHash lcl = mPreviousLedgerHash s
      /\ (size (lclHeader lcl) s <= maxTxSetSize (lclHeader lcl))%N
      /\ Sorted (fun a b => (getFullHash a <= getFullHash b)%N) (mTransactions s)
      /\ (forall a q, buildAccountTxQueues (mTransactions s) !! a = Some q ->
            validFrom ltx 0 q)
      /\ (forall tx, tx ∈ mTransactions s ->
            canAfford ltx
              (Z.min INT64_MAX (feeBidTotal (getFeeSourceID tx) (mTransactions s)))
              tx).
Proof.
  intros Hbids. unfold checkValid.
  assert (is_sorted HashTxSorter (mTransactions s) = true
          <-> Sorted (fun a b => (getFullHash a <= getFullHash b)%N)
                     (mTransactions s)) as Hsorted.
  { rewrite is_sorted_Sorted. split; intros Hs.
    - apply (Sorted_fmap id (in_order HashTxSorter)
               (fun a b => (getFullHash a <= getFullHash b)%N)) in Hs.
      + by rewrite list_fmap_id in Hs.
      + intros x y. unfold in_order, HashTxSorter. rewrite N.ltb_ge. done.
    - apply (Sorted_fmap id _ (in_order HashTxSorter)) in Hs.
      + by rewrite list_fmap_id in Hs.
      + intros x y. unfold in_order, HashTxSorter. rewrite N.ltb_ge. done. }
  rewrite <- Hsorted, <- (checkOrTrim_justCheck ltx s Hbids).
  destruct (bool_decide (lclHash lcl = mPreviousLedgerHash s)) eqn:E1; simpl.
  2:{ apply bool_decide_eq_false in E1. split; [done | by intros [? _]]. }
  apply bool_decide_eq_true in E1.
  destruct (maxTxSetSize (lclHeader lcl) <? size (lclHeader lcl) s)%N eqn:E2.
  { apply N.ltb_lt in E2. split; [done|]. intros (_ & ? & _). lia. }
  apply N.ltb_ge in E2.
  destruct (is_sorted HashTxSorter (mTransactions s)) eqn:E3; simpl.
  2:{ split; [done | by intros (_ & _ & ? & _)]. }
  destruct (checkOrTrim ltx true [] s) as [st| |] eqn:E4.
  - split; [intros _ | done]. repeat split; try done. by exists st.
  - split; [done|]. by intros (_ & _ & _ & [? ?]).
  - split; [done|]. by intros (_ & _ & _ & [? ?]).
Qed.
End CheckValid.

(** ** AccountTransactionQueue *)

Section AccountTransactionQueueInvariant.
Import TxSetUtils.

Implicit Types (tx : TransactionFrameBase) (txs : list TransactionFrameBase).
Implicit Types (q : AccountTransactionQueue).

Lemma sumOperations_Permutation txs txs' :
  txs ≡ₚ txs' -> sumOperations txs = sumOperations txs'.
Proof.
  induction 1 as [|x l l' _ IH|x y l|l1 l2 l3 _ IH1 _ IH2]; simpl; lia.
Qed.

Lemma count_loop txs (n0 : N) :
  (fold_left (fun n tx => ((n + getNumOperations tx) mod UINT32_MOD)%N) txs n0
   = (n0 + sumOperations txs) mod UINT32_MOD)%N
  \/ (UINT32_MOD <= n0)%N.
Proof.
  destruct (decide (n0 < UINT32_MOD)%N) as [Hn|Hn]; [left | right; lia].
  revert n0 Hn. induction txs as [|tx txs IH]; intros n0 Hn; simpl.
  - rewrite N.add_0_r. by rewrite N.mod_small.
  - rewrite IH by (apply N.mod_upper_bound; unfold UINT32_MOD; lia).
    rewrite N.Div0.add_mod_idemp_l. f_equal. lia.
Qed.

Lemma uint32_sub_front (f r : N) :
  (((f + r) mod UINT32_MOD + UINT32_MOD - f mod UINT32_MOD) mod UINT32_MOD
   = r mod UINT32_MOD)%N.
Proof.
  assert (0 < UINT32_MOD)%N as Hpos by (unfold UINT32_MOD; lia).
  set (M := UINT32_MOD) in *.
  set (F := Z.of_N f). set (R := Z.of_N r). set (Mz := Z.of_N M).
  assert (0 < Mz) as HM by (unfold Mz; lia).
  pose proof (N.mod_upper_bound f M ltac:(lia)) as Hb.
  assert (Z.of_N ((f + r) mod M) = (F + R) mod Mz) as Ea
    by (by rewrite N2Z.inj_mod, N2Z.inj_add).
  assert (Z.of_N (f mod M) = F mod Mz) as Eb by (by rewrite N2Z.inj_mod).
  set (a := ((f + r) mod M)%N) in *. set (b := (f mod M)%N) in *.
  clearbody a b. apply N2Z.inj.
  rewrite !N2Z.inj_mod, N2Z.inj_sub, N2Z.inj_add by lia.
  rewrite Ea, Eb. fold Mz R.
  pose proof (Z.div_mod (F + R) Mz ltac:(lia)) as H1.
  pose proof (Z.div_mod F Mz ltac:(lia)) as H2.
  replace ((F + R) mod Mz + Mz - F mod Mz)
    with (R + (F / Mz - (F + R) / Mz + 1) * Mz) by lia.
  apply Z_mod_plus_full.
Qed.

(** C10. The constructor of AccountTransactionQueue fails on an empty
    vector and otherwise builds a queue that holds the given transactions
    and satisfies the invariant: ascending sequence numbers, and
    mNumOperations equal (as a uint32) to the sum of the operation counts
    of the queued transactions. popTopTx fails on an empty queue and
    otherwise removes the front and keeps the invariant. Whenever the sum
    fits a uint32 the counter is the sum itself. *)
Theorem AccountTransactionQueue_invariant :
  AccountTransactionQueue_new [] = None
  /\ (forall tx txs, exists q,
        AccountTransactionQueue_new (tx :: txs) = Some q
        /\ mTxs q ≡ₚ tx :: txs /\ queueInvariant q)
  /\ (forall q, mTxs q = [] -> popTopTx q = None)
  /\ (forall q front rest,
        queueInvariant q -> mTxs q = front :: rest ->
        exists q', popTopTx q = Some q' /\ mTxs q' = rest /\ queueInvariant q')
  /\ (forall q,
        queueInvariant q -> (sumOperations (mTxs q) < UINT32_MOD)%N ->
        mNumOperations q = sumOperations (mTxs q)).
Proof.
  split; [done|]. split; [|split; [|split]].
  - intros tx txs. eexists. split; [reflexivity|]. simpl. split; [|split].
    + apply std_sort_Permutation.
    + apply (std_sort_by_key SeqSorter getSeqNum SeqSorter_key).
    + cbn [mTxs mNumOperations].
      rewrite (sumOperations_Permutation _ _ (std_sort_Permutation SeqSorter (tx :: txs))).
      destruct (count_loop (tx :: txs) 0) as [E|E].
      * exact E.
      * unfold UINT32_MOD in E. lia.
  - intros q Hq. unfold popTopTx. by rewrite Hq.
  - intros q front rest [Hasc Hnum] Hq. unfold popTopTx. rewrite Hq.
    eexists. split; [reflexivity|]. split; [done|]. split; simpl.
    + rewrite Hq in Hasc. by apply StronglySorted_inv in Hasc as [? _].
    + rewrite Hnum, Hq. simpl.
      apply uint32_sub_front.
  - intros q [_ Hnum] Hfit. rewrite Hnum. by apply N.mod_small.
Qed.
End AccountTransactionQueueInvariant.

(** ** Footprint gathering *)

Section FootprintGathering.
Import InvokeHostFunctionOpFrame.
Context `{HostExternals}.

Implicit Types (lk : LedgerKey) (keys : list LedgerKey) (st : ApplyState).

Lemma noteAndCheck_keeps resources lk keySize entrySize st st' :
  noteAndCheck resources lk keySize entrySize st = GoOn st'
  \/ noteAndCheck resources lk keySize entrySize st = Failed st' ->
  ledgerEntryCxxBufs st' = ledgerEntryCxxBufs st
  /\ expirationEntryCxxBufs st' = expirationEntryCxxBufs st
  /\ ltx st' = ltx st /\ hostCalls st' = hostCalls st.
Proof.
  unfold noteAndCheck. destruct (_ <? _)%N; intros [E|E]; by inv E.
Qed.

(** Gathering the footprint does not touch the ledger and does not call
    the host. *)
Lemma addReadsKey_keeps resources lk st st' :
  addReadsKey resources lk st = GoOn st' \/ addReadsKey resources lk st = Failed st' ->
  ltx st' = ltx st /\ hostCalls st' = hostCalls st.
Proof.
  unfold addReadsKey.
  destruct (loadWithoutRecord (ltx st) lk) as [le|].
  - destruct (isSorobanEntry (le_type le)).
    + destruct (loadWithoutRecord (ltx st) (getExpirationKey lk)) as [e|];
        [|by intros [?|?]].
      destruct (negb (isLive e (hdr_ledgerSeq (ltx st)))).
      * destruct (isTemporaryEntry lk).
        -- intros Hn. by apply noteAndCheck_keeps in Hn as (_ & _ & ? & ?).
        -- intros [E|E]; by inv E.
      * intros Hn. by apply noteAndCheck_keeps in Hn as (_ & _ & ? & ?).
    + intros Hn. by apply noteAndCheck_keeps in Hn as (_ & _ & ? & ?).
  - intros Hn. by apply noteAndCheck_keeps in Hn as (_ & _ & ? & ?).
Qed.

Lemma addReads_keeps resources keys st st' :
  addReads resources keys st = GoOn st' \/ addReads resources keys st = Failed st' ->
  ltx st' = ltx st /\ hostCalls st' = hostCalls st.
Proof.
  revert st. induction keys as [|lk keys IH]; intros st; simpl.
  - intros [E|E]; by inv E.
  - destruct (addReadsKey resources lk st) as [st1|st1|] eqn:E1.
    + intros Hn. apply IH in Hn as [-> ->].
      apply (addReadsKey_keeps resources lk st st1). by left.
    + intros [E|E]; inv E.
      apply (addReadsKey_keeps resources lk st st'). by right.
    + by intros [?|?].
Qed.

Lemma addReads_app resources keys1 keys2 st :
  addReads resources (keys1 ++ keys2) st
  = match addReads resources keys1 st with
    | GoOn st1 => addReads resources keys2 st1
    | Failed st1 => Failed st1
    | Threw => Threw
    end.
Proof.
  revert st. induction keys1 as [|lk keys1 IH]; intros st; simpl; [done|].
  by destruct (addReadsKey resources lk st).
Qed.

(** doApply gathers the read-only keys and then the read-write keys, and
    goes on to the host only when both succeed. *)
Lemma doApply_gather config resources code0 (l : Ledger) :
  doApply config resources code0 l
  = match addReads resources
            (footprint_readOnly resources ++ footprint_readWrite resources)
            (initialState code0 l) with
    | GoOn st => invokeAndFinish config resources st
    | Failed st => Some (false, st)
    | Threw => None
    end.
Proof.
  unfold doApply. rewrite addReads_app.
  by destruct (addReads resources (footprint_readOnly resources) _).
Qed.

Lemma isLive_false (e : LedgerEntry) (seq : N) :
  isLive e seq = false <-> (le_expirationLedgerSeq e < seq)%N.
Proof. unfold isLive. apply N.leb_gt. Qed.

(** C9. While the footprint is gathered, a key that loads a contract entry
    whose expiration entry is not live is handled as follows. If the key is
    a temporary entry, the step does exactly what it does for a key that
    loads nothing: no buffer is added for the host. If it is not (a
    persistent entry), the step fails with
    INVOKE_HOST_FUNCTION_ENTRY_EXPIRED; and when the keys before it in the
    footprint (read-only keys first, then read-write keys) are gathered
    without failure, doApply returns false with that code set, the ledger
    unchanged and no call made to the host. *)
Theorem doApply_expired_entry (config : SorobanNetworkConfig)
    (resources : SorobanResources) lk :
  (forall st,
     loadsExpired (ltx st) lk -> isTemporaryEntry lk = true ->
     addReadsKey resources lk st
     = noteAndCheck resources lk (u32 (xdr_size lk)) 0%N st
     /\ (forall st0, loadsNothing (ltx st0) lk ->
           addReadsKey resources lk st0
           = noteAndCheck resources lk (u32 (xdr_size lk)) 0%N st0)
     /\ (forall st', addReadsKey resources lk st = GoOn st' ->
           ledgerEntryCxxBufs st' = ledgerEntryCxxBufs st
           /\ expirationEntryCxxBufs st' = expirationEntryCxxBufs st))
  /\ (forall st,
        loadsExpired (ltx st) lk -> isTemporaryEntry lk = false ->
        addReadsKey resources lk st
        = Failed (setCode INVOKE_HOST_FUNCTION_ENTRY_EXPIRED st))
  /\ (forall code0 (l : Ledger) before after st,
        footprint_readOnly resources ++ footprint_readWrite resources
        = before ++ lk :: after ->
        addReads resources before (initialState code0 l) = GoOn st ->
        loadsExpired l lk -> isTemporaryEntry lk = false ->
        exists st',
          doApply config resources code0 l = Some (false, st')
          /\ innerResultCode st' = INVOKE_HOST_FUNCTION_ENTRY_EXPIRED
          /\ hostCalls st' = []
          /\ ltx st' = l).
Proof.
  assert (forall st, loadsExpired (ltx st) lk ->
            addReadsKey resources lk st
            = if isTemporaryEntry lk
              then noteAndCheck resources lk (u32 (xdr_size lk)) 0%N st
              else Failed (setCode INVOKE_HOST_FUNCTION_ENTRY_EXPIRED st)) as Hstep.
  { intros st (le & e & Hle & Hsor & He & Hexp). unfold addReadsKey.
    rewrite Hle, Hsor, He. apply isLive_false in Hexp. by rewrite Hexp. }
  split; [|split].
  - intros st Hexp Htemp. rewrite (Hstep st Hexp), Htemp.
    split; [done|]. split.
    + intros st0 Hnone. unfold addReadsKey. unfold loadsNothing in Hnone.
      by rewrite Hnone.
    + intros st' Hgo.
      destruct (noteAndCheck_keeps resources lk _ _ st st' (or_introl Hgo))
        as (? & ? & _). by split.
  - intros st Hexp Htemp. by rewrite (Hstep st Hexp), Htemp.
  - intros code0 l before after st Hfoot Hbefore Hexp Htemp.
    assert (ltx st = l /\ hostCalls st = []) as [Hl Hc].
    { apply (addReads_keeps resources before (initialState code0 l) st). by left. }
    exists (setCode INVOKE_HOST_FUNCTION_ENTRY_EXPIRED st).
    rewrite doApply_gather, Hfoot, addReads_app, Hbefore. simpl.
    rewrite Hstep by (by rewrite Hl). rewrite Htemp. done.
Qed.
End FootprintGathering.

(** ** Transaction sets: removal, wire form and hash *)

Section SetMaintenance.
Context `{SHA}.

Implicit Types (tx : TransactionFrameBase) (txs : list TransactionFrameBase).
Implicit Types (s : TxSetFrame).

Lemma StronglySorted_sublist {A} (R : relation A) (l l' : list A) :
  l' `sublist_of` l -> StronglySorted R l -> StronglySorted R l'.
Proof.
  induction 1 as [|x l1 l2 Hsub IH|x l1 l2 Hsub IH]; intros Hs.
  - done.
  - apply StronglySorted_inv in Hs as [Hs Hall]. constructor; [by apply IH|].
    eapply Forall_forall. intros y Hy. eapply Forall_forall; [exact Hall|].
    by eapply elem_of_sublist.
  - apply StronglySorted_inv in Hs as [Hs Hall]. by apply IH.
Qed.

Lemma remove_first_sublist tx txs : remove_first tx txs `sublist_of` txs.
Proof.
  induction txs as [|x txs IH]; cbn; [done|].
  case_decide; [by apply sublist_cons|by apply sublist_skip].
Qed.

Lemma remove_first_absent tx txs : tx ∉ txs -> remove_first tx txs = txs.
Proof.
  induction txs as [|x txs IH]; cbn; [done|]. intros Hn.
  apply not_elem_of_cons in Hn as [Hne Hn].
  rewrite decide_False by done. by rewrite IH.
Qed.

Lemma remove_first_present tx txs : tx ∈ txs -> txs ≡ₚ tx :: remove_first tx txs.
Proof.
  induction txs as [|x txs IH]; cbn; [by intros ?%elem_of_nil|].
  intros Hin. case_decide as Hx; [by subst|].
  apply elem_of_cons in Hin as [->|Hin]; [done|].
  rewrite (IH Hin) at 1. apply perm_swap.
Qed.

(** Hash order in the sense of std::is_sorted and in the sense of
    [ascendingFullHash] are the same. *)
Lemma is_sorted_ascendingFullHash txs :
  is_sorted HashTxSorter txs = true <-> ascendingFullHash txs.
Proof.
  rewrite is_sorted_Sorted. unfold ascendingFullHash.
  assert (forall a b : TransactionFrameBase,
            in_order HashTxSorter a b <-> (getFullHash a <= getFullHash b)%N) as Hord.
  { intros a b. unfold in_order, HashTxSorter. by rewrite N.ltb_ge. }
  split; intros Hs.
  - apply (Sorted_fmap id (in_order HashTxSorter)
             (fun a b => (getFullHash a <= getFullHash b)%N)) in Hs;
      [|intros x y; apply Hord].
    rewrite list_fmap_id in Hs. apply Sorted_StronglySorted; [|done].
    intros x y z. lia.
  - apply StronglySorted_Sorted in Hs.
    apply (Sorted_fmap id _ (in_order HashTxSorter)) in Hs;
      [|intros x y; apply Hord].
    by rewrite list_fmap_id in Hs.
Qed.

Lemma sortForHash_is_sorted txs :
  is_sorted HashTxSorter (std_sort HashTxSorter txs) = true.
Proof. apply is_sorted_ascendingFullHash, sortForHash_ascending. Qed.

(** X12. removeTx compares pointers: it removes one occurrence of the
    pointer given, the first, and nothing when the set does not hold that
    pointer, in particular nothing for a frame behind an address that no
    pointer of the set holds, whatever its content. It keeps the previous
    ledger hash and the hash order of a sorted set; and it always marks
    the cached hash as invalid, so that the contents hash asked for next
    is computed from the transactions that remain. *)
Theorem removeTx_spec tx s :
  mPreviousLedgerHash (removeTx tx s) = mPreviousLedgerHash s
  /\ (tx ∉ mTransactions s -> mTransactions (removeTx tx s) = mTransactions s)
  /\ (frameAddress tx ∉ frameAddress <$> mTransactions s ->
      mTransactions (removeTx tx s) = mTransactions s)
  /\ (tx ∈ mTransactions s ->
      mTransactions s ≡ₚ tx :: mTransactions (removeTx tx s))
  /\ (is_sorted HashTxSorter (mTransactions s) = true ->
      is_sorted HashTxSorter (mTransactions (removeTx tx s)) = true)
  /\ fst (getContentsHash (removeTx tx s))
     = sha256 (hashBytes (mPreviousLedgerHash s)
                 ++ concat (map getEnvelope
                              (std_sort HashTxSorter
                                 (remove_first tx (mTransactions s))))).
Proof.
  split_and!.
  - done.
  - apply remove_first_absent.
  - intros Hn. apply remove_first_absent. intros Hin. apply Hn.
    apply list_elem_of_fmap. by exists tx.
  - apply remove_first_present.
  - rewrite !is_sorted_ascendingFullHash. cbn.
    apply StronglySorted_sublist, remove_first_sublist.
  - by rewrite getContentsHash_fresh.
Qed.

(** X13. The wire form of a set whose contents hash has just been
    computed exists, the cache being invalid before and the set holding
    no more transactions than an XDR vector can (XDR_MAX_LEN): the
    assertion of toXDR on the hash order holds. It carries the previous
    ledger hash and the envelopes of the set, and hashing the previous
    ledger hash followed by its envelopes gives the contents hash back. A
    set that is not in hash order has no wire form. *)
Theorem toXDR_contents_hash s :
  mHashIsValid s = false ->
  (N.of_nat (length (mTransactions s)) <= XDR_MAX_LEN)%N ->
  (forall s0, is_sorted HashTxSorter (mTransactions s0) = false -> toXDR s0 = None)
  /\ exists txSet,
       toXDR (snd (getContentsHash s)) = Some txSet
       /\ ts_previousLedgerHash txSet = mPreviousLedgerHash s
       /\ ts_txs txSet ≡ₚ map getEnvelope (mTransactions s)
       /\ sha256 (hashBytes (ts_previousLedgerHash txSet) ++ concat (ts_txs txSet))
          = fst (getContentsHash s).
Proof.
  intros Hv Hlen. split.
  { intros s0 Hs0. unfold toXDR. by rewrite Hs0. }
  rewrite getContentsHash_fresh by done.
  unfold getContentsHash, toXDR. rewrite Hv. cbn.
  rewrite sortForHash_is_sorted. cbn [negb].
  rewrite std_sort_length.
  assert (N.of_nat (length (mTransactions s)) < UINT32_MOD)%N as Hlen32
    by (unfold XDR_MAX_LEN, UINT32_MOD in *; lia).
  rewrite (proj2 (N.leb_gt _ _) Hlen32), (proj2 (N.ltb_ge _ _) Hlen).
  eexists. split; [reflexivity|]. cbn. split_and!; try done.
  by rewrite std_sort_Permutation.
Qed.

End SetMaintenance.

(** ** TxSetUtils: trimming and grouping *)

Section TxSetUtilsTrim.
Context `{SHA} `{CloseTimeExternals}.

Implicit Types (tx : TransactionFrameBase) (txs : list TransactionFrameBase).

Lemma filter_ext_elem {A} (P Q : A -> Prop) `{!forall x, Decision (P x)}
    `{!forall x, Decision (Q x)} (l : list A) :
  (forall x, x ∈ l -> (P x <-> Q x)) -> filter P l = filter Q l.
Proof.
  induction l as [|x l IH]; intros Hpq; [done|].
  rewrite !filter_cons. rewrite IH by (intros y Hy; apply Hpq; by right).
  destruct (decide (P x)) as [Hp|Hp], (decide (Q x)) as [Hq|Hq]; try done.
  - destruct Hq. apply Hpq; [by left|done].
  - destruct Hp. apply Hpq; [by left|done].
Qed.

Lemma length_filter_le {A} (P : A -> Prop) `{!forall x, Decision (P x)} (l : list A) :
  (length (filter P l) <= length l)%nat.
Proof. apply sublist_length, sublist_filter. Qed.

Lemma filter_all {A} (P : A -> Prop) `{!forall x, Decision (P x)} (l : list A) :
  (forall x, x ∈ l -> P x) -> filter P l = l.
Proof.
  induction l as [|x l IH]; intros Hp; [done|].
  rewrite filter_cons_True by (apply Hp; by left).
  rewrite IH; [done|]. intros y Hy. apply Hp. by right.
Qed.

Lemma filter_none {A} (P : A -> Prop) `{!forall x, Decision (P x)} (l : list A) :
  (forall x, x ∈ l -> ~ P x) -> filter P l = [].
Proof.
  induction l as [|x l IH]; intros Hp; [done|].
  rewrite filter_cons_False by (apply Hp; by left).
  apply IH. intros y Hy. apply Hp. by right.
Qed.

(** The transactions a call of removeTxs keeps. *)
Lemma removeTxs_Some txs txsToRemove kept :
  removeTxs txs txsToRemove = Some kept ->
  kept = filter (fun tx => getFullHash tx ∉ getFullHash <$> txsToRemove) txs.
Proof.
  unfold removeTxs. case_match; [done|]. intros [= <-].
  apply list_filter_iff. intros tx. by rewrite elem_of_list_to_set.
Qed.

(** removeTxs throws exactly when it is asked to remove more
    transactions than it is given. *)
Lemma removeTxs_None txs txsToRemove :
  removeTxs txs txsToRemove = None <-> (length txs < length txsToRemove)%nat.
Proof.
  unfold removeTxs. destruct (length txs <? length txsToRemove)%nat eqn:E.
  - apply Nat.ltb_lt in E. done.
  - apply Nat.ltb_ge in E. split; [done|lia].
Qed.

(** What removeTxs keeps. *)
Lemma removeTxs_kept txs txsToRemove kept :
  removeTxs txs txsToRemove = Some kept ->
  kept `sublist_of` txs
  /\ (forall tx,
        tx ∈ kept
        <-> tx ∈ txs
            /\ forall r, r ∈ txsToRemove -> getFullHash r <> getFullHash tx).
Proof.
  intros Hk. apply removeTxs_Some in Hk as ->. split.
  - apply sublist_filter.
  - intros tx. rewrite list_elem_of_filter, list_elem_of_fmap. split.
    + intros [Hn Hin]. split; [done|]. intros r Hr He. apply Hn. by exists r.
    + intros [Hin Hn]. split; [|done]. intros (r & He & Hr). by apply (Hn r).
Qed.

(** X16. removeTxs throws exactly when there are more transactions to
    remove than transactions. Otherwise it keeps, in their order, the
    transactions whose full hash is not the full hash of a transaction to
    remove: every transaction to remove is gone, in all its occurrences,
    together with any other transaction of the same full hash; with
    nothing to remove the list is returned as it is, and removing a list
    from itself leaves nothing. *)
Theorem removeTxs_spec txs txsToRemove :
  (removeTxs txs txsToRemove = None <-> (length txs < length txsToRemove)%nat)
  /\ (forall kept,
        removeTxs txs txsToRemove = Some kept ->
        kept `sublist_of` txs
        /\ (forall tx,
              tx ∈ kept
              <-> tx ∈ txs
                  /\ forall r, r ∈ txsToRemove -> getFullHash r <> getFullHash tx))
  /\ removeTxs txs [] = Some txs
  /\ removeTxs txs txs = Some [].
Proof.
  split_and!.
  - apply removeTxs_None.
  - apply removeTxs_kept.
  - unfold removeTxs. cbn. f_equal. apply filter_all. intros tx _.
    set_solver.
  - unfold removeTxs. rewrite Nat.ltb_irrefl. f_equal. apply filter_none.
    intros tx Hin Hn. apply Hn. rewrite elem_of_list_to_set, list_elem_of_fmap.
    by exists tx.
Qed.

(** getInvalidTxList returns, in their order, the transactions that
    fail the check. *)
Lemma getInvalidTxList_filter txs (ltxRoot : LedgerTxn) (lcl lower upper : N) :
  getInvalidTxList txs ltxRoot lcl lower upper
  = filter (fun tx =>
              negb (tx_checkValidWithOffsets tx
                      (withLedgerSeq ((lcl + 1) mod UINT32_MOD)%N ltxRoot) 0
                      lower upper)) txs.
Proof.
  unfold getInvalidTxList.
  set (ltx := withLedgerSeq _ ltxRoot).
  assert (forall acc,
    fold_left (fun invalidTxs tx =>
                 if negb (tx_checkValidWithOffsets tx ltx 0 lower upper)
                 then invalidTxs ++ [tx] else invalidTxs) txs acc
    = acc ++ filter (fun tx => negb (tx_checkValidWithOffsets tx ltx 0 lower upper))
                    txs) as Hgen.
  { induction txs as [|tx txs IH]; intros acc; cbn [fold_left].
    - by rewrite app_nil_r.
    - rewrite IH, filter_cons.
      destruct (tx_checkValidWithOffsets tx ltx 0 lower upper); cbn [negb].
      + rewrite decide_False; [done|]. by intros ?.
      + rewrite decide_True; [|done]. by rewrite <- app_assoc. }
  by rewrite Hgen.
Qed.

(** X17. TxSetUtils::trimInvalid checks every transaction against the
    ledger state whose sequence number is the one after the last closed
    ledger (as a uint32), with 0 as the current sequence number. It
    reports as invalid, in their order, the transactions that fail the
    check; removing them never throws; what it keeps is a subsequence of
    the transactions in which every transaction passes the check; and
    when no two different transactions share a full hash it keeps
    exactly the transactions that pass, so that the transactions kept and
    the invalid ones make up the list again. *)
Theorem TxSetUtils_trimInvalid_spec txs (ltxRoot : LedgerTxn) (lcl lower upper : N) :
  let ltx := withLedgerSeq ((lcl + 1) mod UINT32_MOD)%N ltxRoot in
  let valid tx := tx_checkValidWithOffsets tx ltx 0 lower upper in
  exists kept invalidTxs,
    TxSetUtils_trimInvalid txs ltxRoot lcl lower upper = (Some kept, invalidTxs)
    /\ invalidTxs = filter (fun tx => negb (valid tx)) txs
    /\ kept `sublist_of` txs
    /\ Forall (fun tx => valid tx = true) kept
    /\ (fullHashesDistinct txs ->
        kept = filter (fun tx => valid tx) txs
        /\ kept ++ invalidTxs ≡ₚ txs).
Proof.
  intros ltx valid. unfold TxSetUtils_trimInvalid.
  rewrite getInvalidTxList_filter. fold ltx.
  change (fun tx => negb (tx_checkValidWithOffsets tx ltx 0 lower upper))
    with (fun tx => negb (valid tx)).
  set (invalidTxs := filter (fun tx => negb (valid tx)) txs).
  destruct (removeTxs txs invalidTxs) as [kept|] eqn:Hk.
  2:{ apply removeTxs_None in Hk.
      pose proof (length_filter_le (fun tx => negb (valid tx)) txs) as Hlen.
      unfold invalidTxs in Hk. lia. }
  exists kept, invalidTxs. split; [by rewrite <- Hk|]. split; [done|].
  destruct (removeTxs_kept txs invalidTxs kept Hk) as [Hsub Helem].
  assert (Forall (fun tx => valid tx = true) kept) as Hvalid.
  { apply Forall_forall. intros tx Hin. apply Helem in Hin as [Hin Hn].
    destruct (valid tx) eqn:Ev; [done|]. destruct (Hn tx); [|done].
    apply list_elem_of_filter. by rewrite Ev. }
  split_and!; try done.
  intros Hdist.
  assert (kept = filter (fun tx => valid tx) txs) as ->.
  { rewrite (removeTxs_Some _ _ _ Hk). apply filter_ext_elem. intros tx Hin. split.
    - intros Hn. destruct (valid tx) eqn:Ev; [done|]. destruct Hn.
      apply list_elem_of_fmap. exists tx. split; [done|].
      apply list_elem_of_filter. by rewrite Ev.
    - intros Hv (r & He & Hr)%list_elem_of_fmap.
      apply list_elem_of_filter in Hr as [Hr Hrin].
      assert (tx = r) as -> by (by apply (fullHashesDistinct_elem txs)).
      by destruct (valid r). }
  split; [done|]. unfold invalidTxs.
  rewrite <- (filter_app_complement (fun tx => valid tx) txs) at 3.
  apply Permutation_app_head.
  erewrite (list_filter_iff (fun tx => negb (valid tx))); [done|].
  intros tx. cbv beta. generalize (valid tx). intros []; cbn; tauto.
Qed.

End TxSetUtilsTrim.

Section TxSetUtilsQueues.
Import TxSetUtils.
Context `{UnorderedMapOrder}.

Implicit Types (tx : TransactionFrameBase) (txs : list TransactionFrameBase).
Implicit Types (q : AccountTransactionQueue).

(** The queue the constructor builds from a non-empty vector. *)
Lemma AccountTransactionQueue_new_cons tx txs :
  exists q,
    AccountTransactionQueue_new (tx :: txs) = Some q
    /\ mTxs q = std_sort SeqSorter (tx :: txs)
    /\ queueInvariant q.
Proof.
  eexists. split; [reflexivity|]. split; [done|]. split.
  - apply (std_sort_by_key SeqSorter getSeqNum SeqSorter_key).
  - cbn [mTxs mNumOperations].
    rewrite (sumOperations_Permutation _ _ (std_sort_Permutation SeqSorter (tx :: txs))).
    destruct (count_loop (tx :: txs) 0) as [E|E]; [exact E|].
    unfold UINT32_MOD in E. lia.
Qed.

(** X18. TxSetUtils::buildAccountTxQueues never trips the assertion of
    the queue constructor: no group of transactions is empty. In whatever
    order its map is visited, it builds one queue for every source
    account that has transactions, holding the transactions of that
    account sorted by sequence number: the queues are, up to their order,
    those that TxSetFrame::buildAccountTxQueues builds. Every queue
    satisfies the invariant of AccountTransactionQueue, and the queues
    together hold the transactions given, each once. *)
Theorem TxSetUtils_buildAccountTxQueues_spec txs :
  exists queues,
    TxSetUtils_buildAccountTxQueues txs = Some queues
    /\ mTxs <$> queues ≡ₚ queuesOf (buildAccountTxQueues txs)
    /\ (forall a, ofAccount a txs <> [] ->
          exists q, q ∈ queues /\ mTxs q = std_sort SeqSorter (ofAccount a txs))
    /\ (forall q, q ∈ queues ->
          exists a, ofAccount a txs <> []
                    /\ mTxs q = std_sort SeqSorter (ofAccount a txs))
    /\ Forall queueInvariant queues
    /\ Forall (fun q => mTxs q <> []) queues
    /\ concat (mTxs <$> queues) ≡ₚ txs.
Proof.
  unfold TxSetUtils_buildAccountTxQueues.
  set (m := fold_left addToQueue txs ∅).
  assert (Forall (fun kv : AccountID * list TransactionFrameBase => kv.2 <> [])
                 (visitOrder m)) as Hne.
  { apply Forall_forall. intros [a l] Hin.
    rewrite visitOrder_Permutation in Hin. apply elem_of_map_to_list in Hin.
    unfold m in Hin. rewrite fold_addToQueue_lookup in Hin. cbn.
    destruct (ofAccount a txs) eqn:E; [by rewrite lookup_empty in Hin|].
    rewrite lookup_empty in Hin. cbn in Hin. by injection Hin as <-. }
  assert (exists queues,
            mapM (fun kv : AccountID * list TransactionFrameBase =>
                    AccountTransactionQueue_new kv.2) (visitOrder m) = Some queues
            /\ mTxs <$> queues = (prod_map id (std_sort SeqSorter) <$> visitOrder m).*2
            /\ Forall queueInvariant queues) as (queues & Hq & Hm & Hi).
  { induction (visitOrder m) as [|[a l] kvs IH].
    - by exists [].
    - apply Forall_cons in Hne as [Hl Hne]. destruct (IH Hne) as (qs & Hq & Hm & Hi).
      cbn in Hl. destruct l as [|tx l]; [done|].
      destruct (AccountTransactionQueue_new_cons tx l) as (q & Hnew & Hsorted & Hinv).
      exists (q :: qs). split_and!.
      + cbn [mapM]. cbn [snd]. rewrite Hnew. cbn. by rewrite Hq.
      + cbn. by rewrite Hm, Hsorted.
      + by constructor. }
  assert (mTxs <$> queues ≡ₚ queuesOf (buildAccountTxQueues txs)) as Hperm.
  { rewrite Hm. unfold buildAccountTxQueues, queuesOf. rewrite map_to_list_fmap.
    fold m. by rewrite visitOrder_Permutation. }
  assert (forall l, l ∈ mTxs <$> queues
                    <-> exists a, ofAccount a txs <> []
                                  /\ l = std_sort SeqSorter (ofAccount a txs)) as Hl.
  { intros l. rewrite Hperm. unfold queuesOf. rewrite list_elem_of_fmap. split.
    - intros ([a l'] & -> & Hin). apply elem_of_map_to_list in Hin.
      rewrite buildAccountTxQueues_lookup in Hin. exists a. cbn.
      destruct (ofAccount a txs); [done|]. by injection Hin as <-.
    - intros (a & Hne' & ->). exists (a, std_sort SeqSorter (ofAccount a txs)).
      split; [done|]. apply elem_of_map_to_list.
      rewrite buildAccountTxQueues_lookup. by destruct (ofAccount a txs). }
  exists queues. split_and!; try done.
  - intros a Ha.
    assert (std_sort SeqSorter (ofAccount a txs) ∈ mTxs <$> queues) as Hin
      by (apply Hl; by exists a).
    apply list_elem_of_fmap in Hin as (q & E & Hin). by exists q.
  - intros q Hin. apply (Hl (mTxs q)). apply list_elem_of_fmap. by exists q.
  - apply Forall_forall. intros q Hin.
    destruct (proj1 (Hl (mTxs q))) as (a & Ha & E).
    { apply list_elem_of_fmap. by exists q. }
    rewrite E. intros Hnil. by apply std_sort_nil_inv in Hnil.
  - rewrite Hperm. apply (buildAccountTxQueues_Permutation txs).
Qed.

(** X19. The queue built from a non-empty vector is not empty, and its
    top is a transaction of the vector with the lowest sequence number;
    after popTopTx the top, if there is one, has a sequence number that
    is not lower. *)
Theorem getTopTx_lowest tx txs q :
  AccountTransactionQueue_new (tx :: txs) = Some q ->
  empty q = false
  /\ exists top,
       getTopTx q = Some top
       /\ top ∈ tx :: txs
       /\ (forall tx', tx' ∈ tx :: txs -> getSeqNum top <= getSeqNum tx')
       /\ (forall q' next,
             popTopTx q = Some q' -> getTopTx q' = Some next ->
             getSeqNum top <= getSeqNum next).
Proof.
  intros Hnew.
  destruct (AccountTransactionQueue_new_cons tx txs) as (q0 & Hnew0 & Hsorted & [Hasc _]).
  rewrite Hnew in Hnew0. injection Hnew0 as <-.
  unfold empty, getTopTx, popTopTx.
  destruct (mTxs q) as [|top rest] eqn:Eq.
  { symmetry in Hsorted. by apply std_sort_nil_inv in Hsorted. }
  split; [by rewrite bool_decide_eq_false|].
  exists top. split; [done|].
  unfold ascendingSeqNum in Hasc.
  apply StronglySorted_inv in Hasc as [Hrest Hall].
  assert (forall tx', tx' ∈ tx :: txs -> getSeqNum top <= getSeqNum tx') as Hlow.
  { intros tx' Hin. apply (std_sort_elem_of SeqSorter) in Hin.
    rewrite <- Hsorted in Hin. apply elem_of_cons in Hin as [->|Hin]; [lia|].
    eapply Forall_forall in Hall; [exact Hall|done]. }
  split_and!.
  - apply (std_sort_elem_of SeqSorter). rewrite <- Hsorted. by left.
  - done.
  - intros q' next [= <-]. cbn. intros Hnext.
    destruct rest as [|n rest']; [done|]. injection Hnext as ->.
    by apply Forall_cons in Hall as [? _].
Qed.

End TxSetUtilsQueues.

(** ** Surge pricing: the comparator and what the filter guarantees *)

Section SurgeOrder.
Context `{SHA} `{TxExternals}.

Implicit Types (tx : TransactionFrameBase) (txs q : list TransactionFrameBase).
Implicit Types (p : option (list TransactionFrameBase)).

(** X14. SurgeCompare is a strict weak ordering, as std::priority_queue
    requires of its comparator, whenever the minimum fee of every
    transaction is positive: no queue is below itself, the order is
    asymmetric and transitive, and so is being neither below nor above.
    A null or empty queue is below every non-empty queue and above
    none. *)
Theorem SurgeCompare_strict_weak_order (seed : Hash) (header : LedgerHeader) :
  (forall tx, 0 < tx_getMinFee tx header) ->
  (forall p, SurgeCompare seed header p p = false)
  /\ (forall p1 p2,
        SurgeCompare seed header p1 p2 = true ->
        SurgeCompare seed header p2 p1 = false)
  /\ (forall p1 p2 p3,
        SurgeCompare seed header p1 p2 = true ->
        SurgeCompare seed header p2 p3 = true ->
        SurgeCompare seed header p1 p3 = true)
  /\ (forall p1 p2 p3,
        SurgeCompare seed header p1 p2 = false ->
        SurgeCompare seed header p2 p1 = false ->
        SurgeCompare seed header p2 p3 = false ->
        SurgeCompare seed header p3 p2 = false ->
        SurgeCompare seed header p1 p3 = false
        /\ SurgeCompare seed header p3 p1 = false)
  /\ (forall tx q other,
        SurgeCompare seed header None (Some (tx :: q)) = true
        /\ SurgeCompare seed header (Some []) (Some (tx :: q)) = true
        /\ SurgeCompare seed header other None = false
        /\ SurgeCompare seed header other (Some []) = false).
Proof.
  intros Hpos. split_and!.
  - intros [[|tx q]|]; [done| |done].
    apply SurgeCompare_tops_false. right. split; [done|lia].
  - intros [[|tx1 q1]|] [[|tx2 q2]|]; try done.
    rewrite SurgeCompare_tops, SurgeCompare_tops_false. lia.
  - intros [[|tx1 q1]|] [[|tx2 q2]|] [[|tx3 q3]|]; try done.
    rewrite !SurgeCompare_tops.
    pose proof (Hpos tx1). pose proof (Hpos tx2). pose proof (Hpos tx3).
    intros [H12|[H12 X12]] [H23|[H23 X23]].
    + left. eapply rate_lt_le_trans; [| | |exact H12|]; [done..|lia].
    + left. eapply rate_lt_le_trans; [| | |exact H12|]; [done..|lia].
    + left. eapply rate_le_lt_trans; [| | | |exact H23]; [done..|lia].
    + right. split; [|lia].
      apply Z.le_antisymm.
      * eapply rate_le_trans; [| | | |]; [| | |apply Z.eq_le_incl, H12|];
          [done..|lia].
      * eapply (rate_le_trans _ (getFeeBid tx2) _ _ (tx_getMinFee tx2 header));
          [done..| |]; lia.
  - intros [[|tx1 q1]|] [[|tx2 q2]|] [[|tx3 q3]|]; try done.
    rewrite !SurgeCompare_tops_false.
    pose proof (Hpos tx1). pose proof (Hpos tx2). pose proof (Hpos tx3).
    intros A B C D.
    assert (getFeeBid tx1 * tx_getMinFee tx2 header
            = getFeeBid tx2 * tx_getMinFee tx1 header) as E12 by lia.
    assert (getFeeBid tx2 * tx_getMinFee tx3 header
            = getFeeBid tx3 * tx_getMinFee tx2 header) as E23 by lia.
    assert (getFeeBid tx1 * tx_getMinFee tx3 header
            = getFeeBid tx3 * tx_getMinFee tx1 header) as E13.
    { apply Z.le_antisymm.
      - eapply (rate_le_trans _ (getFeeBid tx2) _ _ (tx_getMinFee tx2 header));
          [done..| |]; lia.
      - eapply (rate_le_trans _ (getFeeBid tx2) _ _ (tx_getMinFee tx2 header));
          [done..| |]; lia. }
    split; right; (split; [lia|]); lia.
  - intros tx q other. split_and!; try done.
    + by destruct other as [[|? ?]|].
    + by destruct other as [[|? ?]|].
Qed.

End SurgeOrder.
Section SurgeFilterGuarantees.
Context `{SHA} `{TxExternals}.

Implicit Types (tx : TransactionFrameBase) (txs q : list TransactionFrameBase).
Implicit Types (st : SurgeState) (s : TxSetFrame).

(** The selection only moves transactions from the queues to the
    selected set or drops them. *)
Lemma SurgeRuns_subset comp maxIsOps st final :
  SurgeRuns comp maxIsOps st final ->
  exists dropped,
    updatedSet final ++ concat (surgeQueue final) ++ dropped
    ≡ₚ updatedSet st ++ concat (surgeQueue st).
Proof.
  induction 1 as [st Hdone|st tx cur' heap' final Hpos Hpop Hfit Hsel IH
                 |st tx cur' heap' final Hpos Hpop Hfit Hsel IH].
  - exists []. by rewrite app_nil_r.
  - destruct IH as [dropped IH]. exists dropped. rewrite IH. cbn.
    apply popTop_Permutation in Hpop. rewrite <- Hpop. cbn.
    rewrite <- app_assoc. cbn. apply Permutation_app_head.
    case_decide as Hc.
    + by subst cur'.
    + rewrite concat_app. cbn. rewrite app_nil_r. constructor.
      apply Permutation_app_comm.
  - destruct IH as [dropped IH]. exists (dropped ++ tx :: cur').
    rewrite !app_assoc, <- (app_assoc (updatedSet final)), IH. cbn.
    apply popTop_Permutation in Hpop. rewrite <- Hpop. cbn.
    rewrite <- !app_assoc. apply Permutation_app_head.
    apply Permutation_app_comm.
Qed.

Lemma sizeOp_fold_le txs (a : N) :
  (fold_left (fun a tx => ((a + getNumOperations tx) mod SIZE_MOD)%N) txs a
   <= a + sumOperations txs)%N.
Proof.
  revert a. induction txs as [|tx txs IH]; intros a.
  - cbn. lia.
  - cbn [fold_left]. etrans; [apply IH|].
    pose proof (N.Div0.mod_le (a + getNumOperations tx) SIZE_MOD).
    unfold sumOperations. cbn [foldr]. lia.
Qed.

Lemma sizeOp_le s : (sizeOp s <= sumOperations (mTransactions s))%N.
Proof. unfold sizeOp. etrans; [apply sizeOp_fold_le|]. lia. Qed.

Lemma opsOf_true txs : opsOf true txs = sumOperations txs.
Proof.
  induction txs as [|tx txs IH]; [done|].
  unfold opsOf, sumOperations in *. cbn [foldr]. by rewrite IH.
Qed.

Lemma opsOf_false txs : opsOf false txs = (N.of_nat (length txs) * MAX_OPS_PER_TX)%N.
Proof.
  induction txs as [|tx txs IH]; [done|].
  unfold opsOf in *. cbn [foldr length]. rewrite IH. unfold opsCountOf. lia.
Qed.

(** What the filter leaves when surge pricing is in effect. *)
Lemma surgePricingFilter_surge header (budget : N) (seed : Hash) s :
  let maxIsOps := (11 <=? ledgerVersion header)%N in
  let curSizeOps :=
    if maxIsOps then sizeOp s else ((sizeTx s * MAX_OPS_PER_TX) mod SIZE_MOD)%N in
  (budget < curSizeOps)%N ->
  exists selected dropped,
    mTransactions (surgePricingFilter header budget seed s)
    = std_sort HashTxSorter selected
    /\ mHashIsValid (surgePricingFilter header budget seed s) = false
    /\ mPreviousLedgerHash (surgePricingFilter header budget seed s)
       = mPreviousLedgerHash s
    /\ selected ++ dropped ≡ₚ mTransactions s
    /\ (opsOf maxIsOps selected <= budget)%N.
Proof.
  intros maxIsOps curSizeOps Hlt. unfold surgePricingFilter.
  fold maxIsOps. fold curSizeOps. rewrite (proj2 (N.ltb_lt _ _) Hlt).
  set (surge := fun q1 q2 => SurgeCompare seed header (Some q1) (Some q2)).
  set (st0 := {| opsLeft := budget;
                 surgeQueue := queuesOf (buildAccountTxQueues (mTransactions s));
                 updatedSet := [] |}).
  assert (SurgeRuns surge maxIsOps st0
            (surgeLoop surge maxIsOps (length (mTransactions s)) st0)) as Hsel.
  { apply surgeLoop_runs.
    - apply keyedByAccount_heapWellFormed, buildAccountTxQueues_keyed.
    - cbn. by rewrite buildAccountTxQueues_Permutation. }
  set (final := surgeLoop surge maxIsOps (length (mTransactions s)) st0) in *.
  destruct (SurgeRuns_subset _ _ _ _ Hsel) as [dropped Hsub].
  pose proof (SurgeRuns_budget _ _ _ _ Hsel) as Hb. cbn in Hb, Hsub.
  exists (updatedSet final), (concat (surgeQueue final) ++ dropped).
  cbn. split_and!; try done.
  - by rewrite Hsub, buildAccountTxQueues_Permutation.
  - lia.
Qed.

(** X15. What surgePricingFilter leaves is made of transactions of the
    set, none of them twice over, with the same previous ledger hash,
    and fits the budget: from protocol 11 on its size in operations
    does not exceed the budget, and before, its size in transactions
    times MAX_OPS_PER_TX does not. Filtering what the filter has left
    changes nothing, whatever the seed of the comparator. When the filter
    changes the set it leaves it in hash order, with the cached hash
    invalid. *)
Theorem surgePricingFilter_fits header (budget : N) (seed : Hash) s :
  (exists dropped,
     mTransactions (surgePricingFilter header budget seed s) ++ dropped
     ≡ₚ mTransactions s)
  /\ mPreviousLedgerHash (surgePricingFilter header budget seed s)
     = mPreviousLedgerHash s
  /\ ((11 <= ledgerVersion header)%N ->
      (sizeOp (surgePricingFilter header budget seed s) <= budget)%N)
  /\ ((ledgerVersion header < 11)%N ->
      ((sizeTx (surgePricingFilter header budget seed s) * MAX_OPS_PER_TX)
         mod SIZE_MOD <= budget)%N)
  /\ (forall seed',
        surgePricingFilter header budget seed'
          (surgePricingFilter header budget seed s)
        = surgePricingFilter header budget seed s)
  /\ (surgePricingFilter header budget seed s <> s ->
      ascendingFullHash (mTransactions (surgePricingFilter header budget seed s))
      /\ mHashIsValid (surgePricingFilter header budget seed s) = false).
Proof.
  set (maxIsOps := (11 <=? ledgerVersion header)%N).
  set (curSizeOps :=
    if maxIsOps then sizeOp s else ((sizeTx s * MAX_OPS_PER_TX) mod SIZE_MOD)%N).
  assert (forall s0,
            ((if maxIsOps then sizeOp s0
              else ((sizeTx s0 * MAX_OPS_PER_TX) mod SIZE_MOD)%N) <= budget)%N ->
            forall seed0, surgePricingFilter header budget seed0 s0 = s0) as Hid.
  { intros s0 Hle seed0. unfold surgePricingFilter. fold maxIsOps.
    by rewrite (proj2 (N.ltb_ge _ _) Hle). }
  destruct (N.le_gt_cases curSizeOps budget) as [Hle|Hlt].
  - rewrite (Hid s Hle seed). split_and!; try done.
    + exists []. by rewrite app_nil_r.
    + intros Hv. unfold curSizeOps, maxIsOps in Hle.
      by rewrite (proj2 (N.leb_le _ _) Hv) in Hle.
    + intros Hv. unfold curSizeOps, maxIsOps in Hle.
      by rewrite (proj2 (N.leb_gt _ _) Hv) in Hle.
    + intros seed'. by apply Hid.
  - destruct (surgePricingFilter_surge header budget seed s Hlt)
      as (selected & dropped & Ht & Hv & Hp & Hsub & Hops).
    fold maxIsOps in Hops.
    set (s' := surgePricingFilter header budget seed s) in *.
    assert ((if maxIsOps then sizeOp s'
             else ((sizeTx s' * MAX_OPS_PER_TX) mod SIZE_MOD)%N) <= budget)%N as Hfit.
    { destruct maxIsOps.
      - etrans; [apply sizeOp_le|]. rewrite Ht.
        rewrite (sumOperations_Permutation _ _ (std_sort_Permutation HashTxSorter selected)).
        by rewrite <- opsOf_true.
      - etrans; [apply N.Div0.mod_le|]. unfold sizeTx. rewrite Ht, std_sort_length.
        by rewrite <- opsOf_false. }
    split_and!; try done.
    + exists dropped. by rewrite Ht, std_sort_Permutation.
    + intros Hver. unfold maxIsOps in Hfit.
      by rewrite (proj2 (N.leb_le _ _) Hver) in Hfit.
    + intros Hver. unfold maxIsOps in Hfit.
      by rewrite (proj2 (N.leb_gt _ _) Hver) in Hfit.
    + intros seed'. by apply Hid.
    + intros _. split; [|done]. rewrite Ht. apply sortForHash_ascending.
Qed.

End SurgeFilterGuarantees.

(** ** Trimming a transaction set *)

Section Trimming.
Context `{SHA} `{TxExternals} `{AccountExternals}.

Implicit Types (tx : TransactionFrameBase) (txs q : list TransactionFrameBase).
Implicit Types (qs : list (list TransactionFrameBase)).
Implicit Types (st : TrimState) (m : gmap AccountID Z) (s : TxSetFrame).

Lemma keptValid_split ltx lastSeq q :
  keptValid ltx lastSeq q ++ droppedInvalid ltx lastSeq q ≡ₚ q.
Proof.
  revert lastSeq. induction q as [|tx q IH]; intros lastSeq; cbn; [done|].
  destruct (tx_checkValid tx ltx lastSeq); cbn.
  - by rewrite IH.
  - by rewrite <- Permutation_middle, IH.
Qed.

Lemma keptValid_sublist ltx lastSeq q : keptValid ltx lastSeq q `sublist_of` q.
Proof.
  revert lastSeq. induction q as [|tx q IH]; intros lastSeq; cbn; [done|].
  destruct (tx_checkValid tx ltx lastSeq);
    [by apply sublist_skip|by apply sublist_cons].
Qed.

Lemma keptValid_validFrom ltx lastSeq q : validFrom ltx lastSeq (keptValid ltx lastSeq q).
Proof.
  revert lastSeq. induction q as [|tx q IH]; intros lastSeq; cbn; [done|].
  destruct (tx_checkValid tx ltx lastSeq) eqn:E; cbn; [|done]. by split.
Qed.

Lemma keptAffordable_prefix ltx m q : keptAffordable ltx m q `prefix_of` q.
Proof.
  induction q as [|tx q IH]; cbn; [done|].
  destruct (loadAccount ltx (getFeeSourceID tx)); [|apply prefix_nil].
  destruct (_ <? _); [apply prefix_nil|]. by apply prefix_cons.
Qed.

Lemma keptAffordable_canAfford ltx m q :
  Forall (fun tx => canAfford ltx (default 0 (m !! getFeeSourceID tx)) tx)
         (keptAffordable ltx m q).
Proof.
  induction q as [|tx q IH]; cbn; [done|].
  destruct (loadAccount ltx (getFeeSourceID tx)) as [fs|] eqn:E; [|done].
  destruct (_ <? _) eqn:El; [done|]. apply Z.ltb_ge in El.
  constructor; [|done]. by exists fs.
Qed.

Lemma validFrom_prefix ltx lastSeq q q' :
  q' `prefix_of` q -> validFrom ltx lastSeq q -> validFrom ltx lastSeq q'.
Proof.
  intros [k ->]. revert lastSeq. induction q' as [|tx q' IH]; intros lastSeq; [done|].
  cbn. intros [Hv Hrest]. split; [done|]. by apply IH.
Qed.

(** *** The two loops of checkOrTrim when it trims *)

Lemma trimAll_spec (dropped : list TransactionFrameBase) st :
  accountFeeMap (trimAll dropped st) = accountFeeMap st
  /\ trimmed (trimAll dropped st) = trimmed st ++ dropped
  /\ frame (trimAll dropped st) = removeAllTxs dropped (frame st).
Proof.
  unfold trimAll, removeAllTxs. revert st.
  induction dropped as [|tx dropped IH]; intros st; cbn [fold_left].
  - by rewrite app_nil_r.
  - destruct (IH {| accountFeeMap := accountFeeMap st;
                    trimmed := trimmed st ++ [tx];
                    frame := removeTx tx (frame st) |}) as (I1 & I2 & I3).
    rewrite I1, I2, I3. cbn. by rewrite <- app_assoc.
Qed.

Lemma removeAllTxs_app (d1 d2 : list TransactionFrameBase) s :
  removeAllTxs (d1 ++ d2) s = removeAllTxs d2 (removeAllTxs d1 s).
Proof. unfold removeAllTxs. apply fold_left_app. Qed.

(** The first loop over one queue never fails when it trims: it keeps
    the valid transactions, adds their bids to the fee totals, and trims
    the others. *)
Lemma checkQueueValidity_trim ltx q lastSeq st :
  exists st',
    checkQueueValidity ltx false q lastSeq st = Normal (st', keptValid ltx lastSeq q)
    /\ accountFeeMap st'
       = fold_left addFeeBid (keptValid ltx lastSeq q) (accountFeeMap st)
    /\ trimmed st' = trimmed st ++ droppedInvalid ltx lastSeq q
    /\ frame st' = removeAllTxs (droppedInvalid ltx lastSeq q) (frame st).
Proof.
  revert lastSeq st. induction q as [|tx q IH]; intros lastSeq st.
  - exists st. cbn. by rewrite app_nil_r.
  - cbn [checkQueueValidity keptValid droppedInvalid].
    destruct (tx_checkValid tx ltx lastSeq); cbn [negb].
    + destruct (IH (getSeqNum tx)
                  {| accountFeeMap := addFeeBid (accountFeeMap st) tx;
                     trimmed := trimmed st; frame := frame st |})
        as (st' & -> & I1 & I2 & I3).
      exists st'. by split_and!.
    + destruct (IH lastSeq
                  {| accountFeeMap := accountFeeMap st;
                     trimmed := trimmed st ++ [tx];
                     frame := removeTx tx (frame st) |})
        as (st' & -> & I1 & I2 & I3).
      exists st'. split_and!; try done.
      rewrite I2. cbn. by rewrite <- app_assoc.
Qed.

Lemma checkAllValidity_trim ltx qs st :
  exists st',
    checkAllValidity ltx false qs st = Normal (st', keptValid ltx 0 <$> qs)
    /\ accountFeeMap st'
       = fold_left addFeeBid (concat (keptValid ltx 0 <$> qs)) (accountFeeMap st)
    /\ trimmed st' = trimmed st ++ concat (droppedInvalid ltx 0 <$> qs)
    /\ frame st' = removeAllTxs (concat (droppedInvalid ltx 0 <$> qs)) (frame st).
Proof.
  revert st. induction qs as [|q qs IH]; intros st.
  - exists st. cbn. by rewrite app_nil_r.
  - cbn [checkAllValidity].
    destruct (checkQueueValidity_trim ltx q 0 st) as (st1 & -> & Q1 & Q2 & Q3).
    destruct (IH st1) as (st' & -> & I1 & I2 & I3).
    exists st'. split_and!; try done.
    + rewrite I1, Q1. cbn. by rewrite fold_left_app.
    + rewrite I2, Q2. cbn. by rewrite <- app_assoc.
    + rewrite I3, Q3. cbn. by rewrite removeAllTxs_app.
Qed.

(** The second loop over one queue, when it trims, keeps the front of
    the queue that is affordable and trims the rest; it throws only on a
    transaction whose fee source does not exist. *)
Lemma checkQueueFees_trim ltx q st :
  (exists tx, tx ∈ q /\ loadAccount ltx (getFeeSourceID tx) = None
              /\ checkQueueFees ltx false q st = Thrown)
  \/ (exists st',
        checkQueueFees ltx false q st = Normal st'
        /\ accountFeeMap st' = accountFeeMap st
        /\ trimmed st'
           = trimmed st
             ++ drop (length (keptAffordable ltx (accountFeeMap st) q)) q
        /\ frame st'
           = removeAllTxs (drop (length (keptAffordable ltx (accountFeeMap st) q)) q)
               (frame st)).
Proof.
  induction q as [|tx q IH].
  - right. exists st. cbn. by rewrite app_nil_r.
  - cbn [checkQueueFees keptAffordable].
    destruct (loadAccount ltx (getFeeSourceID tx)) as [fs|] eqn:E.
    2:{ left. exists tx. split; [by left|done]. }
    destruct (_ <? _).
    + right. eexists. split; [done|]. cbn [length drop]. apply trimAll_spec.
    + destruct IH as [(tx' & Hin & Hn & ->)|(st' & -> & I1 & I2 & I3)].
      * left. exists tx'. split; [by right|done].
      * right. exists st'. by split_and!.
Qed.

Lemma checkAllFees_trim ltx qs st :
  (exists tx, tx ∈ concat qs /\ loadAccount ltx (getFeeSourceID tx) = None
              /\ checkAllFees ltx false qs st = Thrown)
  \/ (exists st',
        checkAllFees ltx false qs st = Normal st'
        /\ accountFeeMap st' = accountFeeMap st
        /\ trimmed st'
           = trimmed st
             ++ concat ((fun q => drop (length (keptAffordable ltx (accountFeeMap st) q)) q)
                          <$> qs)
        /\ frame st'
           = removeAllTxs
               (concat ((fun q => drop (length (keptAffordable ltx (accountFeeMap st) q)) q)
                          <$> qs))
               (frame st)).
Proof.
  revert st. induction qs as [|q qs IH]; intros st.
  - right. exists st. cbn. by rewrite app_nil_r.
  - cbn [checkAllFees].
    destruct (checkQueueFees_trim ltx q st)
      as [(tx & Hin & Hn & ->)|(st1 & -> & Q1 & Q2 & Q3)].
    + left. exists tx. split; [|done]. cbn. apply elem_of_app. by left.
    + destruct (IH st1) as [(tx & Hin & Hn & ->)|(st' & -> & I1 & I2 & I3)].
      * left. exists tx. split; [|done]. cbn. apply elem_of_app. by right.
      * right. exists st'. rewrite Q1 in I1, I2, I3. split_and!.
        -- done.
        -- done.
        -- rewrite I2, Q2. cbn. by rewrite <- app_assoc.
        -- rewrite I3, Q3. cbn. by rewrite removeAllTxs_app.
Qed.

(** *** What is trimmed and what is left *)

Lemma remove_list_Permutation (dropped l : list TransactionFrameBase) :
  dropped ⊆+ l ->
  dropped ++ fold_left (fun l tx => remove_first tx l) dropped l ≡ₚ l.
Proof.
  revert l. induction dropped as [|tx dropped IH]; intros l Hsub; [done|].
  cbn [fold_left]. apply submseteq_cons_l in Hsub as (k & Hk & Hsub).
  assert (tx ∈ l) as Hin by (rewrite Hk; by left).
  pose proof (remove_first_present tx l Hin) as Hp.
  assert (k ≡ₚ remove_first tx l) as Hk'.
  { apply (Permutation_cons_inv (a := tx)). by rewrite <- Hk, <- Hp. }
  rewrite <- app_comm_cons, IH; [by rewrite <- Hp|]. by rewrite <- Hk'.
Qed.

Lemma remove_list_sublist (dropped l : list TransactionFrameBase) :
  fold_left (fun l tx => remove_first tx l) dropped l `sublist_of` l.
Proof.
  revert l. induction dropped as [|tx dropped IH]; intros l; [done|].
  cbn [fold_left]. etrans; [apply IH|]. apply remove_first_sublist.
Qed.

Lemma removeAllTxs_spec (dropped : list TransactionFrameBase) s :
  mTransactions (removeAllTxs dropped s)
  = fold_left (fun l tx => remove_first tx l) dropped (mTransactions s)
  /\ mPreviousLedgerHash (removeAllTxs dropped s) = mPreviousLedgerHash s
  /\ (mHashIsValid s = false -> mHashIsValid (removeAllTxs dropped s) = false).
Proof.
  unfold removeAllTxs. revert s.
  induction dropped as [|tx dropped IH]; intros s; [done|].
  cbn [fold_left]. destruct (IH (removeTx tx s)) as (I1 & I2 & I3).
  rewrite I1, I2. split_and!; try done. intros _. by apply I3.
Qed.

Lemma concat_split_Permutation {A} (f g : list A -> list A) (ls : list (list A)) :
  (forall l, f l ++ g l ≡ₚ l) ->
  concat (f <$> ls) ++ concat (g <$> ls) ≡ₚ concat ls.
Proof.
  intros Hfg. induction ls as [|l ls IH]; [done|]. cbn.
  etrans; [|apply Permutation_app; [apply (Hfg l)|apply IH]].
  rewrite <- !app_assoc. apply Permutation_app_head.
  rewrite !app_assoc. apply Permutation_app_tail. apply Permutation_app_comm.
Qed.

(** What trimInvalid returns, in terms of the account queues of the set:
    of every queue the valid transactions are kept, and of these the
    affordable front. *)
Lemma trimInvalid_Normal ltx s (trimmedTxs : list TransactionFrameBase) s' :
  trimInvalid ltx s = Normal (trimmedTxs, s') ->
  let qs := queuesOf (buildAccountTxQueues (std_sort HashTxSorter (mTransactions s))) in
  let kept1 := keptValid ltx 0 <$> qs in
  let feeMap := fold_left addFeeBid (concat kept1) ∅ in
  let kept2 := keptAffordable ltx feeMap <$> kept1 in
  trimmedTxs ++ mTransactions s' ≡ₚ mTransactions s
  /\ mTransactions s' ≡ₚ concat kept2
  /\ mTransactions s' `sublist_of` std_sort HashTxSorter (mTransactions s)
  /\ mPreviousLedgerHash s' = mPreviousLedgerHash s
  /\ mHashIsValid s' = false
  /\ (exists dropped1, concat kept1 ++ dropped1 ≡ₚ concat qs)
  /\ (exists dropped2, concat kept2 ++ dropped2 ≡ₚ concat kept1).
Proof.
  intros Ht qs kept1 feeMap kept2. unfold trimInvalid, checkOrTrim in Ht.
  cbn [mTransactions sortForHash] in Ht. fold qs in Ht.
  destruct (checkAllValidity_trim ltx qs
              {| accountFeeMap := ∅; trimmed := []; frame := sortForHash s |})
    as (st1 & Hv & V1 & V2 & V3).
  rewrite Hv in Ht. fold kept1 in Ht, V1. cbn in V1, V2, V3. fold feeMap in V1.
  destruct (checkAllFees_trim ltx kept1 st1)
    as [(tx & _ & _ & Hthrown)|(st2 & Hf & F1 & F2 & F3)];
    [by rewrite Hthrown in Ht|].
  rewrite Hf in Ht. injection Ht as <- <-.
  rewrite V1 in F2, F3.
  set (dropped1 := concat (droppedInvalid ltx 0 <$> qs)) in *.
  set (dropped2 := concat ((fun q => drop (length (keptAffordable ltx feeMap q)) q)
                             <$> kept1)) in *.
  rewrite V2 in F2. rewrite V3, <- removeAllTxs_app in F3.
  destruct (removeAllTxs_spec (dropped1 ++ dropped2) (sortForHash s))
    as (R1 & R2 & R3).
  rewrite F2, F3, R1, R2. cbn [mTransactions sortForHash mPreviousLedgerHash].
  set (txs0 := std_sort HashTxSorter (mTransactions s)).
  assert (concat kept1 ++ dropped1 ≡ₚ concat qs) as P1.
  { apply (concat_split_Permutation (keptValid ltx 0) (droppedInvalid ltx 0)).
    intros l. apply keptValid_split. }
  assert (concat kept2 ++ dropped2 ≡ₚ concat kept1) as P2.
  { unfold kept2, dropped2.
    apply (concat_split_Permutation (keptAffordable ltx feeMap)
             (fun q => drop (length (keptAffordable ltx feeMap q)) q)).
    intros l. destruct (keptAffordable_prefix ltx feeMap l) as [k Hk].
    remember (keptAffordable ltx feeMap l) as ka eqn:Hka. clear Hka.
    rewrite Hk. by rewrite drop_app_length. }
  assert (concat qs ≡ₚ txs0) as P0 by apply buildAccountTxQueues_Permutation.
  assert ((dropped1 ++ dropped2) ++ concat kept2 ≡ₚ txs0) as P3.
  { rewrite <- P0, <- P1, <- P2.
    rewrite <- !app_assoc. rewrite (Permutation_app_comm dropped1).
    rewrite <- !app_assoc. rewrite (Permutation_app_comm dropped2).
    rewrite <- !app_assoc. apply Permutation_app_head, Permutation_app_comm. }
  assert (dropped1 ++ dropped2 ⊆+ txs0) as Hsub.
  { rewrite <- P3. by apply submseteq_inserts_r. }
  pose proof (remove_list_Permutation _ _ Hsub) as P4.
  split_and!.
  - cbn. rewrite P4. apply std_sort_Permutation.
  - apply (Permutation_app_inv_l (dropped1 ++ dropped2)). by rewrite P4, P3.
  - apply remove_list_sublist.
  - done.
  - by apply R3.
  - by exists dropped1.
  - by exists dropped2.
Qed.

(** The second loop throws only on a transaction whose fee source does
    not exist, whether it trims or only checks. *)
Lemma checkQueueFees_Thrown ltx (justCheck : bool) q st :
  checkQueueFees ltx justCheck q st = Thrown ->
  exists tx, tx ∈ q /\ loadAccount ltx (getFeeSourceID tx) = None.
Proof.
  induction q as [|tx q IH]; cbn [checkQueueFees]; [done|].
  destruct (loadAccount ltx (getFeeSourceID tx)) as [fs|] eqn:E.
  - destruct (_ <? _); [by destruct justCheck|].
    intros (tx' & Hin & Hn)%IH. exists tx'. split; [by right|done].
  - intros _. exists tx. split; [by left|done].
Qed.

Lemma checkAllFees_Thrown ltx (justCheck : bool) qs st :
  checkAllFees ltx justCheck qs st = Thrown ->
  exists tx, tx ∈ concat qs /\ loadAccount ltx (getFeeSourceID tx) = None.
Proof.
  revert st. induction qs as [|q qs IH]; intros st; cbn [checkAllFees]; [done|].
  destruct (checkQueueFees ltx justCheck q st) as [st1| |] eqn:E.
  - intros (tx & Hin & Hn)%IH. exists tx. split; [|done].
    cbn. apply elem_of_app. by right.
  - done.
  - intros _. apply checkQueueFees_Thrown in E as (tx & Hin & Hn).
    exists tx. split; [|done]. cbn. apply elem_of_app. by left.
Qed.

Lemma checkOrTrim_Thrown ltx (justCheck : bool)
    (trimmed0 : list TransactionFrameBase) s :
  checkOrTrim ltx justCheck trimmed0 s = Thrown ->
  exists tx, tx ∈ mTransactions s /\ loadAccount ltx (getFeeSourceID tx) = None.
Proof.
  unfold checkOrTrim.
  set (qs := queuesOf (buildAccountTxQueues (mTransactions s))).
  set (st0 := {| accountFeeMap := ∅; trimmed := trimmed0; frame := s |}).
  assert (exists st1 qs',
            (checkAllValidity ltx justCheck qs st0 = Normal (st1, qs')
             \/ checkAllValidity ltx justCheck qs st0 = ReturnedFalse)
            /\ forall tx, tx ∈ concat qs' -> tx ∈ concat qs) as (st1 & qs' & Hv & Hsub).
  { destruct justCheck.
    - destruct (checkAllValidity_justCheck ltx qs st0) as [V1 V2].
      destruct (decide (Forall (validFrom ltx 0) qs)) as [Hd|Hd].
      + eexists _, qs. split; [left; by apply V1|done].
      + exists st0, qs. split; [right; by apply V2|done].
    - destruct (checkAllValidity_trim ltx qs st0) as (st1 & Hv & _).
      exists st1, (keptValid ltx 0 <$> qs). split; [by left|].
      intros tx Hin.
      pose proof (concat_split_Permutation (keptValid ltx 0) (droppedInvalid ltx 0) qs
                    (keptValid_split ltx 0)) as Hp.
      rewrite <- Hp. apply elem_of_app. by left. }
  destruct Hv as [-> | ->]; [|done].
  intros (tx & Hin & Hn)%checkAllFees_Thrown. exists tx. split; [|done].
  apply Hsub in Hin. unfold qs in Hin.
  by rewrite buildAccountTxQueues_Permutation in Hin.
Qed.

(** X20. What trimInvalid trims and what it leaves make up the set
    again: no transaction is lost and none appears twice over. What is
    left is in hash order, a subsequence of the sorted set, with the same
    previous ledger hash and an invalid cached hash. When it trims,
    checkOrTrim never returns false; and when the fee source of every
    transaction exists, neither trimInvalid nor checkValid ends with an
    exception. *)
Theorem trimInvalid_partition ltx s :
  (forall trimmedTxs s',
     trimInvalid ltx s = Normal (trimmedTxs, s') ->
     trimmedTxs ++ mTransactions s' ≡ₚ mTransactions s
     /\ mTransactions s' `sublist_of` std_sort HashTxSorter (mTransactions s)
     /\ is_sorted HashTxSorter (mTransactions s') = true
     /\ mPreviousLedgerHash s' = mPreviousLedgerHash s
     /\ mHashIsValid s' = false)
  /\ trimInvalid ltx s <> ReturnedFalse
  /\ (feeSourcesExist ltx (mTransactions s) ->
      (exists trimmedTxs s', trimInvalid ltx s = Normal (trimmedTxs, s'))
      /\ forall lcl, is_Some (checkValid lcl ltx s)).
Proof.
  assert (trimInvalid ltx s <> ReturnedFalse) as Hnf.
  { unfold trimInvalid, checkOrTrim.
    destruct (checkAllValidity_trim ltx
                (queuesOf (buildAccountTxQueues (mTransactions (sortForHash s))))
                {| accountFeeMap := ∅; trimmed := []; frame := sortForHash s |})
      as (st1 & -> & _).
    match goal with
    | |- context [checkAllFees ltx false ?k st1] =>
        destruct (checkAllFees_trim ltx k st1)
          as [(tx & _ & _ & ->)|(st2 & -> & _)]; done
    end. }
  split_and!.
  - intros t s' Ht. destruct (trimInvalid_Normal ltx s t s' Ht) as (T1 & T2 & T3 & T4 & T5 & _).
    split_and!; try done.
    apply is_sorted_ascendingFullHash.
    eapply StronglySorted_sublist; [exact T3|]. apply sortForHash_ascending.
  - done.
  - intros Hex. unfold feeSourcesExist in Hex. rewrite Forall_forall in Hex. split.
    + unfold trimInvalid in *.
      destruct (checkOrTrim ltx false [] (sortForHash s)) as [st| |] eqn:E.
      * by eexists _, _.
      * done.
      * apply checkOrTrim_Thrown in E as (tx & Hin & Hn). cbn in Hin.
        rewrite std_sort_Permutation in Hin. apply Hex in Hin.
        rewrite Hn in Hin. by destruct Hin.
    + intros lcl. unfold checkValid.
      destruct (negb (bool_decide _)); [by eexists|].
      destruct (_ <? _)%N; [by eexists|].
      destruct (negb (is_sorted _ _)); [by eexists|].
      destruct (checkOrTrim ltx true [] s) as [st| |] eqn:E; [by eexists..|].
      apply checkOrTrim_Thrown in E as (tx & Hin & Hn). apply Hex in Hin.
      rewrite Hn in Hin. by destruct Hin.
Qed.

(** *** What is left is valid *)

Lemma prefix_of_sublist {A} (l1 l2 : list A) :
  l1 `prefix_of` l2 -> l1 `sublist_of` l2.
Proof. intros [k ->]. by apply sublist_inserts_r. Qed.

Lemma sorted_Permutation_eq {A} (key : A -> Z) (l l' : list A) :
  StronglySorted (fun x y => key x <= key y) l ->
  StronglySorted (fun x y => key x <= key y) l' ->
  l ≡ₚ l' ->
  (forall x y, x ∈ l -> y ∈ l -> key x = key y -> x = y) ->
  l = l'.
Proof.
  intros Hs Hs' Hp Hinj.
  apply (StronglySorted_unique_strong (fun x y => key x <= key y)); [|done..].
  intros x y Hx Hy Hle1 Hle2. apply Hinj; [done|by rewrite Hp|lia].
Qed.

(** The transactions of an account among queues filed by account, after
    each queue has been thinned out. *)
Lemma ofAccount_concat_keyed (f : list TransactionFrameBase -> list TransactionFrameBase)
    (kvs : list (AccountID * list TransactionFrameBase)) (a : AccountID) :
  (forall q tx, tx ∈ f q -> tx ∈ q) ->
  NoDup kvs.*1 ->
  Forall (fun kv => Forall (fun tx => getSourceID tx = kv.1) kv.2) kvs ->
  (forall q, (a, q) ∈ kvs -> ofAccount a (concat (f <$> kvs.*2)) = f q)
  /\ (a ∉ kvs.*1 -> ofAccount a (concat (f <$> kvs.*2)) = []).
Proof.
  intros Hf. induction kvs as [|[k q] kvs IH]; intros Hnd Hall.
  - split; [by intros q ?%elem_of_nil|done].
  - cbn in Hnd. apply NoDup_cons in Hnd as [Hk Hnd].
    apply Forall_cons in Hall as [Hq Hall]. cbn in Hq.
    destruct (IH Hnd Hall) as [IH1 IH2]. cbn [fmap list_fmap concat fst snd].
    change (ofAccount a (f q ++ concat (f <$> kvs.*2)))
      with (filter (fun tx => getSourceID tx = a) (f q ++ concat (f <$> kvs.*2))).
    rewrite filter_app.
    fold (ofAccount a (f q)). fold (ofAccount a (concat (f <$> kvs.*2))).
    assert (Forall (fun tx => getSourceID tx = k) (f q)) as Hfq.
    { apply Forall_forall. intros tx Hin. apply Hf in Hin.
      by eapply Forall_forall in Hq. }
    destruct (decide (k = a)) as [->|Hne].
    + rewrite (ofAccount_all a (f q)) by done. rewrite IH2 by done.
      rewrite app_nil_r. split.
      * intros q' Hin. apply elem_of_cons in Hin as [[= ->]|Hin]; [done|].
        destruct Hk. apply list_elem_of_fmap. by exists (a, q').
      * intros Hn. destruct Hn. by left.
    + rewrite (ofAccount_none a (f q)).
      2:{ eapply Forall_impl; [exact Hfq|]. cbn. intros tx ->. done. }
      cbn [app]. split.
      * intros q' Hin. apply elem_of_cons in Hin as [[= -> ->]|Hin]; [done|].
        by apply IH1.
      * intros Hn. apply IH2. intros Hin. apply Hn. by right.
Qed.

Lemma feeBidTotal_app (a : AccountID) txs txs' :
  feeBidTotal a (txs ++ txs') = feeBidTotal a txs + feeBidTotal a txs'.
Proof.
  induction txs as [|tx txs IH]; [by unfold feeBidTotal|].
  rewrite <- app_comm_cons, !feeBidTotal_cons, IH. lia.
Qed.

(** X21. What trimInvalid leaves passes the checks it was trimmed for:
    for a set without negative fee bids in which no account has two
    transactions with the same sequence number, checkOrTrim finds
    nothing more to object to in the set that is left, and checkValid
    accepts that set whenever the last closed ledger is the previous
    ledger of the set and the set is not too large. *)
Theorem trimInvalid_valid ltx s (trimmedTxs : list TransactionFrameBase) s'
    (lcl : LedgerHeaderHistoryEntry) :
  Forall (fun tx => 0 <= getFeeBid tx) (mTransactions s) ->
  seqNumsDistinct (mTransactions s) ->
  trimInvalid ltx s = Normal (trimmedTxs, s') ->
  (exists st, checkOrTrim ltx true [] s' = Normal st)
  /\ (lclHash lcl = mPreviousLedgerHash s ->
      (size (lclHeader lcl) s' <= maxTxSetSize (lclHeader lcl))%N ->
      checkValid lcl ltx s' = Some true).
Proof.
  intros Hbids Hseq Ht.
  pose proof (trimInvalid_Normal ltx s trimmedTxs s' Ht) as Hn. cbv zeta in Hn.
  set (txs0 := std_sort HashTxSorter (mTransactions s)) in *.
  set (m0 := buildAccountTxQueues txs0) in *.
  set (qs := queuesOf m0) in *.
  set (kept1 := keptValid ltx 0 <$> qs) in *.
  set (feeMap := fold_left addFeeBid (concat kept1) ∅) in *.
  set (kept2 := keptAffordable ltx feeMap <$> kept1) in *.
  destruct Hn as (T1 & T2 & T3 & T4 & T5 & [dropped1 P1] & [dropped2 P2]).
  assert (concat qs ≡ₚ mTransactions s) as P0.
  { unfold qs, m0. rewrite buildAccountTxQueues_Permutation. apply std_sort_Permutation. }
  assert (forall tx, tx ∈ concat kept1 -> tx ∈ mTransactions s) as Hk1.
  { intros tx Hin. rewrite <- P0, <- P1. apply elem_of_app. by left. }
  assert (forall tx, tx ∈ concat kept2 -> tx ∈ concat kept1) as Hk2.
  { intros tx Hin. rewrite <- P2. apply elem_of_app. by left. }
  rewrite Forall_forall in Hbids.
  assert (Forall (fun tx => 0 <= getFeeBid tx) (mTransactions s')) as Hbids'.
  { apply Forall_forall. intros tx Hin. rewrite T2 in Hin. by apply Hbids, Hk1, Hk2. }
  assert (exists st, checkOrTrim ltx true [] s' = Normal st) as Hok.
  { apply checkOrTrim_justCheck; [done|]. split.
    - intros a q Hq. rewrite buildAccountTxQueues_lookup in Hq.
      set (f := fun q => keptAffordable ltx feeMap (keptValid ltx 0 q)).
      assert (kept2 = f <$> (map_to_list m0).*2) as Ekept.
      { unfold kept2, kept1, qs, queuesOf. by rewrite <- list_fmap_compose. }
      assert (forall q tx, tx ∈ f q -> tx ∈ q) as Hf.
      { intros q0 tx Hin. unfold f in Hin.
        apply (elem_of_sublist _ _ _ Hin).
        etrans; [apply prefix_of_sublist, keptAffordable_prefix|].
        apply keptValid_sublist. }
      destruct (ofAccount_concat_keyed f (map_to_list m0) a Hf) as [Hin Hout].
      { apply NoDup_fst_map_to_list. }
      { apply Forall_forall. intros [k q0] Hkq. apply elem_of_map_to_list in Hkq.
        by apply (buildAccountTxQueues_keyed txs0). }
      assert (ofAccount a (mTransactions s') ≡ₚ ofAccount a (concat kept2)) as Hperm.
      { unfold ofAccount. by rewrite T2. }
      rewrite Ekept in Hperm.
      destruct (m0 !! a) as [qa|] eqn:Ea.
      2:{ rewrite Hout in Hperm.
          - apply Permutation_nil_r in Hperm. by rewrite Hperm in Hq.
          - intros (kv & Hk & Hkv)%list_elem_of_fmap. destruct kv as [k q0].
            cbn in Hk. subst k. apply elem_of_map_to_list in Hkv. congruence. }
      rewrite (Hin qa) in Hperm by (by apply elem_of_map_to_list).
      assert ((a, qa) ∈ map_to_list m0) as Hqa by (by apply elem_of_map_to_list).
      apply (buildAccountTxQueues_elem txs0) in Hqa as (_ & _ & Hsrc & Hasc).
      assert (f qa `sublist_of` qa) as Hsub.
      { unfold f. etrans; [apply prefix_of_sublist, keptAffordable_prefix|].
        apply keptValid_sublist. }
      destruct (ofAccount a (mTransactions s')) as [|x rest] eqn:Eo; [done|].
      injection Hq as <-. rewrite <- Eo in *.
      assert (std_sort SeqSorter (ofAccount a (mTransactions s')) = f qa) as ->.
      { apply (sorted_Permutation_eq getSeqNum).
        - apply (std_sort_by_key SeqSorter getSeqNum SeqSorter_key).
        - by eapply StronglySorted_sublist.
        - by rewrite std_sort_Permutation.
        - intros x1 x2 Hx1 Hx2 Hkey.
          apply std_sort_elem_of in Hx1, Hx2. rewrite Hperm in Hx1, Hx2.
          assert (forall y, y ∈ f qa -> y ∈ mTransactions s /\ getSourceID y = a) as Hy.
          { intros y Hy. apply Hf in Hy. split.
            - rewrite <- P0. unfold qs, queuesOf.
              apply list_elem_of_In, in_concat. exists qa. split; apply list_elem_of_In; [|done].
              apply list_elem_of_fmap. exists (a, qa). split; [done|].
              by apply elem_of_map_to_list.
            - by eapply Forall_forall in Hsrc. }
          destruct (Hy x1 Hx1) as [I1 S1]. destruct (Hy x2 Hx2) as [I2 S2].
          unfold seqNumsDistinct in Hseq. rewrite Forall_forall in Hseq.
          specialize (Hseq x1 I1). rewrite Forall_forall in Hseq.
          apply (Hseq x2 I2); congruence. }
      unfold f. eapply validFrom_prefix; [apply keptAffordable_prefix|].
      apply keptValid_validFrom.
    - intros tx Hin. rewrite T2 in Hin.
      assert (canAfford ltx (default 0 (feeMap !! getFeeSourceID tx)) tx) as Hca.
      { apply list_elem_of_In, in_concat in Hin as (q' & Hq' & Hin).
        apply list_elem_of_In in Hq', Hin. unfold kept2 in Hq'.
        apply list_elem_of_fmap in Hq' as (q & -> & Hq).
        pose proof (keptAffordable_canAfford ltx feeMap q) as Hall.
        by eapply Forall_forall in Hall. }
      destruct Hca as (fs & Hfs & Hle). exists fs. split; [done|].
      etrans; [|exact Hle]. unfold feeMap.
      rewrite fold_addFeeBid_lookup;
        [|apply Forall_forall; intros y Hy; by apply Hbids, Hk1
         |rewrite lookup_empty; cbn; unfold INT64_MAX; lia].
      rewrite lookup_empty. cbn [default].
      rewrite (feeBidTotal_Permutation _ _ _ T2).
      rewrite <- (feeBidTotal_Permutation _ _ _ P2), feeBidTotal_app.
      assert (0 <= feeBidTotal (getFeeSourceID tx) dropped2).
      { apply feeBidTotal_nonneg, Forall_forall. intros y Hy.
        apply Hbids, Hk1. rewrite <- P2. apply elem_of_app. by right. }
      lia. }
  split; [done|].
  intros Hhash Hsize. unfold checkValid.
  rewrite T4, bool_decide_true by done. cbn [negb].
  rewrite (proj2 (N.ltb_ge _ _) Hsize).
  assert (is_sorted HashTxSorter (mTransactions s') = true) as ->.
  { apply is_sorted_ascendingFullHash.
    eapply StronglySorted_sublist; [exact T3|]. apply sortForHash_ascending. }
  cbn [negb]. destruct Hok as [st ->]. done.
Qed.

End Trimming.

(** ** Surge pricing keeps a valid set valid *)

Section SurgeKeepsValid.
Context `{SHA} `{TxExternals} `{AccountExternals}.

Implicit Types (tx : TransactionFrameBase) (txs q : list TransactionFrameBase).
Implicit Types (s : TxSetFrame).

(** What the filter selects under surge pricing, account by account: the
    front of the queue of the account. *)
Lemma surgePricingFilter_surge_prefix header (budget : N) (seed : Hash) s :
  let maxIsOps := (11 <=? ledgerVersion header)%N in
  let curSizeOps :=
    if maxIsOps then sizeOp s else ((sizeTx s * MAX_OPS_PER_TX) mod SIZE_MOD)%N in
  (budget < curSizeOps)%N ->
  exists selected dropped,
    mTransactions (surgePricingFilter header budget seed s)
    = std_sort HashTxSorter selected
    /\ mPreviousLedgerHash (surgePricingFilter header budget seed s)
       = mPreviousLedgerHash s
    /\ selected ++ dropped ≡ₚ mTransactions s
    /\ (opsOf maxIsOps selected <= budget)%N
    /\ forall a,
         ofAccount a selected
         `prefix_of` std_sort SeqSorter (ofAccount a (mTransactions s)).
Proof.
  intros maxIsOps curSizeOps Hlt. unfold surgePricingFilter.
  fold maxIsOps. fold curSizeOps. rewrite (proj2 (N.ltb_lt _ _) Hlt).
  set (surge := fun q1 q2 => SurgeCompare seed header (Some q1) (Some q2)).
  set (st0 := {| opsLeft := budget;
                 surgeQueue := queuesOf (buildAccountTxQueues (mTransactions s));
                 updatedSet := [] |}).
  assert (heapWellFormed (surgeQueue st0)) as Hwf.
  { apply keyedByAccount_heapWellFormed, buildAccountTxQueues_keyed. }
  assert (SurgeRuns surge maxIsOps st0
            (surgeLoop surge maxIsOps (length (mTransactions s)) st0)) as Hsel.
  { apply surgeLoop_runs; [done|].
    cbn. by rewrite buildAccountTxQueues_Permutation. }
  set (final := surgeLoop surge maxIsOps (length (mTransactions s)) st0) in *.
  destruct (SurgeRuns_subset _ _ _ _ Hsel) as [dropped Hsub].
  pose proof (SurgeRuns_budget _ _ _ _ Hsel) as Hb. cbn in Hb, Hsub.
  exists (updatedSet final), (concat (surgeQueue final) ++ dropped).
  cbn. split_and!; try done.
  - by rewrite Hsub, buildAccountTxQueues_Permutation.
  - lia.
  - intros a.
    destruct (SurgeRuns_account _ _ a _ _ Hsel Hwf) as [dropped' Hd].
    simpl in Hd. rewrite queuesOf_remainingOf in Hd.
    change (ofAccount a []) with (@nil TransactionFrameBase) in Hd.
    simpl in Hd. rewrite <- Hd. by eexists.
Qed.

(** X22. Surge pricing keeps a valid set valid: when checkValid accepts
    a set without negative fee bids in which no account has two
    transactions with the same sequence number, it accepts what
    surgePricingFilter leaves of it under the header of the last closed
    ledger, provided that from protocol 11 on the budget of operations
    does not exceed maxTxSetSize. *)
Theorem surgePricingFilter_keeps_valid (lcl : LedgerHeaderHistoryEntry)
    (ltx : LedgerTxn) (budget : N) (seed : Hash) s :
  Forall (fun tx => 0 <= getFeeBid tx) (mTransactions s) ->
  seqNumsDistinct (mTransactions s) ->
  ((11 <= ledgerVersion (lclHeader lcl))%N ->
   (budget <= maxTxSetSize (lclHeader lcl))%N) ->
  checkValid lcl ltx s = Some true ->
  checkValid lcl ltx (surgePricingFilter (lclHeader lcl) budget seed s) = Some true.
Proof.
  intros Hbids Hseq Hbudget Hvalid.
  set (header := lclHeader lcl) in *.
  set (maxIsOps := (11 <=? ledgerVersion header)%N).
  set (curSizeOps :=
    if maxIsOps then sizeOp s else ((sizeTx s * MAX_OPS_PER_TX) mod SIZE_MOD)%N).
  destruct (N.ltb_spec budget curSizeOps) as [Hlt|Hge].
  2:{ unfold surgePricingFilter. fold maxIsOps. fold curSizeOps.
      by rewrite (proj2 (N.ltb_ge _ _) Hge). }
  destruct (surgePricingFilter_surge_prefix header budget seed s Hlt)
    as (selected & dropped & Etxs & Eprev & Hperm & Hops & Hprefix).
  fold maxIsOps in Hops.
  set (s' := surgePricingFilter header budget seed s) in *.
  unfold checkValid in Hvalid. fold header in Hvalid.
  destruct (bool_decide (lclHash lcl = mPreviousLedgerHash s)) eqn:Ehash;
    cbn [negb] in Hvalid; [|done].
  apply bool_decide_eq_true in Ehash.
  destruct (maxTxSetSize header <? size header s)%N eqn:Esize; [done|].
  apply N.ltb_ge in Esize.
  destruct (is_sorted HashTxSorter (mTransactions s)) eqn:Esorted;
    cbn [negb] in Hvalid; [|done].
  assert (exists st, checkOrTrim ltx true [] s = Normal st) as Hok.
  { destruct (checkOrTrim ltx true [] s) as [st| |]; [by exists st|done..]. }
  apply checkOrTrim_justCheck in Hok as [Hq Hfee]; [|done].
  assert (forall tx, tx ∈ mTransactions s' -> tx ∈ mTransactions s) as Hin.
  { intros tx Htx. rewrite Etxs in Htx. apply std_sort_elem_of in Htx.
    rewrite <- Hperm. apply elem_of_app. by left. }
  assert (mTransactions s' ++ dropped ≡ₚ mTransactions s) as Hperm'.
  { by rewrite Etxs, std_sort_Permutation. }
  rewrite Forall_forall in Hbids.
  unfold checkValid. fold header.
  rewrite Eprev, bool_decide_true by done. cbn [negb].
  assert ((maxTxSetSize header <? size header s')%N = false) as ->.
  { apply N.ltb_ge. unfold size in *. fold maxIsOps in Esize |- *.
    destruct maxIsOps eqn:Em.
    - etrans; [apply sizeOp_le|].
      rewrite Etxs, (sumOperations_Permutation _ _ (std_sort_Permutation _ _)).
      rewrite opsOf_true in Hops. etrans; [exact Hops|].
      apply Hbudget. by apply N.leb_le.
    - etrans; [|exact Esize]. unfold sizeTx.
      rewrite <- Hperm', length_app. lia. }
  rewrite Etxs at 1. rewrite sortForHash_is_sorted. cbn [negb].
  assert (exists st, checkOrTrim ltx true [] s' = Normal st) as [st ->]; [|done].
  apply checkOrTrim_justCheck.
  { apply Forall_forall. intros tx Htx. by apply Hbids, Hin. }
  split.
  - intros a q Ea. rewrite buildAccountTxQueues_lookup in Ea.
    assert (ofAccount a (mTransactions s') ≡ₚ ofAccount a selected) as Hpa.
    { unfold ofAccount. by rewrite Etxs, std_sort_Permutation. }
    destruct (ofAccount a (mTransactions s')) as [|x rest] eqn:Eo; [done|].
    injection Ea as <-. rewrite <- Eo in *.
    specialize (Hprefix a).
    assert (std_sort SeqSorter (ofAccount a (mTransactions s'))
            = ofAccount a selected) as ->.
    { apply (sorted_Permutation_eq getSeqNum).
      - apply (std_sort_by_key SeqSorter getSeqNum SeqSorter_key).
      - eapply StronglySorted_sublist; [apply prefix_of_sublist, Hprefix|].
        apply (std_sort_by_key SeqSorter getSeqNum SeqSorter_key).
      - by rewrite std_sort_Permutation.
      - intros x1 x2 Hx1 Hx2 Hkey.
        apply std_sort_elem_of in Hx1, Hx2.
        unfold ofAccount in Hx1, Hx2.
        apply list_elem_of_filter in Hx1 as [S1 I1].
        apply list_elem_of_filter in Hx2 as [S2 I2].
        apply Hin in I1, I2.
        unfold seqNumsDistinct in Hseq. rewrite Forall_forall in Hseq.
        specialize (Hseq x1 I1). rewrite Forall_forall in Hseq.
        apply (Hseq x2 I2); congruence. }
    eapply validFrom_prefix; [exact Hprefix|].
    apply (Hq a). rewrite buildAccountTxQueues_lookup.
    destruct (ofAccount a (mTransactions s)) as [|y l] eqn:Ey; [|done].
    change (std_sort SeqSorter []) with (@nil TransactionFrameBase) in Hprefix.
    apply prefix_nil_inv in Hprefix. rewrite Hprefix in Hpa.
    rewrite Eo in Hpa. by apply Permutation_nil_r in Hpa.
  - intros tx Htx. destruct (Hfee tx (Hin tx Htx)) as (fs & Hfs & Hle).
    exists fs. split; [done|]. etrans; [|exact Hle].
    rewrite <- (feeBidTotal_Permutation _ _ _ Hperm'), feeBidTotal_app.
    assert (0 <= feeBidTotal (getFeeSourceID tx) dropped).
    { apply feeBidTotal_nonneg, Forall_forall. intros y Hy.
      apply Hbids. rewrite <- Hperm'. apply elem_of_app. by right. }
    lia.
Qed.

End SurgeKeepsValid.

(** ** Fee-bump transactions: validation as a whole *)

Section FeeBumpCheck.
Context `{FeeBumpExternals} `{AccountExternals}.

Implicit Types (tx : FeeBumpTransactionFrame) (ltx : LedgerTxn).
Implicit Types (txResult : TxResult).

Lemma fb_commonValidPreSeqNum_true tx ltx txResult :
  fst (fb_commonValidPreSeqNum tx ltx txResult) = true <-> fb_passesPreSeqNum tx ltx.
Proof.
  unfold fb_commonValidPreSeqNum, fb_passesPreSeqNum, bigMultiply.
  destruct (ledgerVersion (ltxHeader ltx) <? 13)%N eqn:Ev.
  { apply N.ltb_lt in Ev. cbn. split; [done|]. intros (Hv & _). lia. }
  apply N.ltb_ge in Ev.
  destruct (fb_getInclusionFee tx
            <? getMinInclusionFee (fb_getNumOperations tx) (ltxHeader ltx)) eqn:Em.
  { apply Z.ltb_lt in Em. cbn. split; [done|]. intros (_ & Hm & _). lia. }
  apply Z.ltb_ge in Em.
  destruct (tf_getInclusionFee (mInnerTx tx) <? 0) eqn:Ei.
  { apply Z.ltb_lt in Ei. cbn. split; [done|]. intros (_ & _ & Hi & _). lia. }
  apply Z.ltb_ge in Ei.
  destruct (_ <? _) eqn:Er.
  { apply Z.ltb_lt in Er. cbn. split; [done|]. intros (_ & _ & _ & Hr & _). lia. }
  apply Z.ltb_ge in Er.
  destruct (loadAccount ltx (fb_getFeeSourceID tx)) as [acc|] eqn:Ea; cbn.
  - split; [|done]. intros _. by split_and!.
  - split; [done|]. intros (_ & _ & _ & _ & Hs). by destruct Hs.
Qed.

(** A check that passes leaves the result as it was. *)
Lemma fb_commonValidPreSeqNum_unchanged tx ltx txResult :
  fst (fb_commonValidPreSeqNum tx ltx txResult) = true ->
  snd (fb_commonValidPreSeqNum tx ltx txResult) = txResult.
Proof.
  unfold fb_commonValidPreSeqNum.
  destruct (ledgerVersion (ltxHeader ltx) <? 13)%N; [done|].
  destruct (fb_getInclusionFee tx <? _); [done|].
  destruct (tf_getInclusionFee (mInnerTx tx) <? 0); [done|].
  destruct (bigMultiply _ _ <? bigMultiply _ _); [done|].
  by destruct (loadAccount ltx (fb_getFeeSourceID tx)).
Qed.

(** X7. commonValidPreSeqNum returns true exactly when the protocol is
    13 at least, the inclusion fee reaches the minimum inclusion fee, the
    inclusion fee of the inner transaction is not negative, the fee rate
    of the outer envelope is not below that of the inner transaction, and
    the fee source exists; it then leaves the result as it was. When it
    returns false the code is one of txNOT_SUPPORTED, txINSUFFICIENT_FEE,
    txFEE_BUMP_INNER_FAILED and txNO_ACCOUNT, the last one only for a
    missing fee source and txFEE_BUMP_INNER_FAILED only for a negative
    inner inclusion fee. *)
Theorem fb_commonValidPreSeqNum_outcome tx ltx txResult :
  (fst (fb_commonValidPreSeqNum tx ltx txResult) = true
   <-> fb_passesPreSeqNum tx ltx)
  /\ (fst (fb_commonValidPreSeqNum tx ltx txResult) = true ->
      snd (fb_commonValidPreSeqNum tx ltx txResult) = txResult)
  /\ (fst (fb_commonValidPreSeqNum tx ltx txResult) = false ->
      resultCode (snd (fb_commonValidPreSeqNum tx ltx txResult))
      ∈ [txNOT_SUPPORTED; txINSUFFICIENT_FEE; txFEE_BUMP_INNER_FAILED; txNO_ACCOUNT])
  /\ (fst (fb_commonValidPreSeqNum tx ltx txResult) = false ->
      resultCode (snd (fb_commonValidPreSeqNum tx ltx txResult)) = txNO_ACCOUNT ->
      loadAccount ltx (fb_getFeeSourceID tx) = None)
  /\ (fst (fb_commonValidPreSeqNum tx ltx txResult) = false ->
      resultCode (snd (fb_commonValidPreSeqNum tx ltx txResult))
      = txFEE_BUMP_INNER_FAILED ->
      tf_getInclusionFee (mInnerTx tx) < 0).
Proof.
  split; [apply fb_commonValidPreSeqNum_true|].
  unfold fb_commonValidPreSeqNum.
  destruct (ledgerVersion (ltxHeader ltx) <? 13)%N;
    [cbn; split_and!; try done; try (intros _; rewrite !elem_of_cons; naive_solver)|].
  destruct (fb_getInclusionFee tx <? _);
    [cbn; split_and!; try done; try (intros _; rewrite !elem_of_cons; naive_solver)|].
  destruct (tf_getInclusionFee (mInnerTx tx) <? 0) eqn:Ei.
  { apply Z.ltb_lt in Ei. cbn; split_and!; try done; try (intros _; rewrite !elem_of_cons; naive_solver). }
  destruct (bigMultiply _ _ <? bigMultiply _ _).
  { cbn; split_and!; try done; try (intros _; rewrite !elem_of_cons; naive_solver). }
  destruct (loadAccount ltx (fb_getFeeSourceID tx));
    cbn; split_and!; try done; try (intros _; rewrite !elem_of_cons; naive_solver).
Qed.

(** X8. When commonValidPreSeqNum rejects a fee bump because the fee
    rate of the outer envelope is below that of the inner transaction
    (the protocol being 13 at least, the minimum fee per operation
    positive, the inclusion fee at the minimum at least and the inner
    inclusion fee not negative), the feeCharged it leaves in the result is
    the least inclusion fee whose rate is not below the inner one, capped
    at INT64_MAX. *)
Theorem fb_commonValidPreSeqNum_fee_hint tx ltx txResult :
  (13 <= ledgerVersion (ltxHeader ltx))%N ->
  0 < minFeePerOp (ltxHeader ltx) ->
  getMinInclusionFee (fb_getNumOperations tx) (ltxHeader ltx)
  <= fb_getInclusionFee tx ->
  0 <= tf_getInclusionFee (mInnerTx tx) ->
  outerRateBelowInner tx ->
  exists q,
    feeCharged (snd (fb_commonValidPreSeqNum tx ltx txResult)) = Z.min q INT64_MAX
    /\ tf_getInclusionFee (mInnerTx tx) * Z.max 1 (Z.of_N (fb_getNumOperations tx))
       <= q * Z.max 1 (Z.of_N (tf_getNumOperations (mInnerTx tx)))
    /\ (q - 1) * Z.max 1 (Z.of_N (tf_getNumOperations (mInnerTx tx)))
       < tf_getInclusionFee (mInnerTx tx) * Z.max 1 (Z.of_N (fb_getNumOperations tx)).
Proof.
  intros Hv Hr Hm Hi Hlow. unfold outerRateBelowInner in Hlow.
  unfold fb_commonValidPreSeqNum, bigMultiply.
  rewrite (proj2 (N.ltb_ge _ _) Hv), (proj2 (Z.ltb_ge _ _) Hm),
    (proj2 (Z.ltb_ge _ _) Hi).
  unfold getMinInclusionFee in *.
  set (r := minFeePerOp (ltxHeader ltx)) in *.
  set (no := Z.max 1 (Z.of_N (fb_getNumOperations tx))) in *.
  set (ni := Z.max 1 (Z.of_N (tf_getNumOperations (mInnerTx tx)))) in *.
  set (fi := tf_getInclusionFee (mInnerTx tx)) in *.
  assert (1 <= no) by (unfold no; lia). assert (1 <= ni) by (unfold ni; lia).
  assert ((fb_getInclusionFee tx * (r * ni) <? fi * (r * no)) = true) as ->
    by (apply Z.ltb_lt; nia).
  set (q := (fi * (r * no) + r * ni - 1) / (r * ni)).
  exists q. cbn [snd].
  assert (0 < r * ni) as Hpos by nia.
  assert (fi * (r * no) <= q * (r * ni) /\ (q - 1) * (r * ni) < fi * (r * no))
    as [Hq1 Hq2].
  { unfold q.
    pose proof (Z.div_mod (fi * (r * no) + r * ni - 1) (r * ni) ltac:(lia)) as Hd.
    pose proof (Z.mod_pos_bound (fi * (r * no) + r * ni - 1) (r * ni) Hpos) as Hb.
    split; nia. }
  split; [|split; nia].
  unfold bigDivide128. fold q.
  destruct (q <=? INT64_MAX) eqn:E; cbn.
  - apply Z.leb_le in E. lia.
  - apply Z.leb_gt in E. lia.
Qed.

Lemma fb_commonValid_cases tx ltx applying txResult :
  (fst (fb_commonValidPreSeqNum tx ltx txResult) = false
   /\ fb_commonValid tx ltx applying txResult
      = (kInvalid, snd (fb_commonValidPreSeqNum tx ltx txResult)))
  \/ (exists feeSource,
        fb_passesPreSeqNum tx ltx
        /\ loadAccount ltx (fb_getFeeSourceID tx) = Some feeSource
        /\ fb_commonValid tx ltx applying txResult
           = if negb (fb_checkSignature tx feeSource) then
               (kInvalid, setResultCode txBAD_AUTH txResult)
             else if getAvailableBalance (ltxHeader ltx) feeSource
                     <? (if applying then 0 else fb_getFullFee tx) then
               (kInvalidPostAuth, setResultCode txINSUFFICIENT_BALANCE txResult)
             else (kFullyValid, txResult)).
Proof.
  pose proof (fb_commonValidPreSeqNum_true tx ltx txResult) as P1.
  pose proof (fb_commonValidPreSeqNum_unchanged tx ltx txResult) as P2.
  unfold fb_commonValid.
  destruct (fb_commonValidPreSeqNum tx ltx txResult) as [[] r] eqn:E; cbn in *.
  - right. rewrite (P2 eq_refl).
    destruct (proj1 P1 eq_refl) as (_ & _ & _ & _ & [acc Hacc]).
    exists acc. rewrite Hacc. split_and!; [by apply P1|done..].
  - by left.
Qed.

(** commonValid finds a fee bump fully valid exactly when the checks
    before the sequence number pass and the fee source covers the fee to
    pay, and then leaves the result as it was. *)
Lemma fb_commonValid_kFullyValid tx ltx (applying : bool) txResult :
  (fst (fb_commonValid tx ltx applying txResult) = kFullyValid
   <-> fb_passesPreSeqNum tx ltx
       /\ fb_feeSourceCovers tx ltx (if applying then 0 else fb_getFullFee tx))
  /\ (fst (fb_commonValid tx ltx applying txResult) = kFullyValid ->
      snd (fb_commonValid tx ltx applying txResult) = txResult).
Proof.
  destruct (fb_commonValid_cases tx ltx applying txResult)
    as [[Hf ->]|(acc & Hp & Hacc & ->)].
  - assert (~ fb_passesPreSeqNum tx ltx) as Hn.
    { intros Hp. apply (fb_commonValidPreSeqNum_true tx ltx txResult) in Hp.
      congruence. }
    cbn. split; [|done]. split; [done|]. by intros [? _].
  - set (feeToPay := if applying then 0 else fb_getFullFee tx).
    unfold fb_feeSourceCovers.
    destruct (fb_checkSignature tx acc) eqn:Es; cbn [negb].
    + destruct (getAvailableBalance (ltxHeader ltx) acc <? feeToPay) eqn:Eb; cbn.
      * apply Z.ltb_lt in Eb. split; [|done]. split; [done|].
        intros (_ & acc' & Hacc' & _ & Hle).
        rewrite Hacc in Hacc'. injection Hacc' as <-. lia.
      * apply Z.ltb_ge in Eb. split; [|done]. split; [|done].
        intros _. split; [done|]. by exists acc.
    + cbn. split; [|done]. split; [done|].
      intros (_ & acc' & Hacc' & Hs' & _).
      rewrite Hacc in Hacc'. injection Hacc' as <-. congruence.
Qed.

(** X9. commonValid returns kFullyValid exactly when the checks of
    commonValidPreSeqNum pass, the signature check of the fee source
    passes, and its available balance covers the fee to pay, which is the
    full fee when validating and nothing when applying; the result is
    then as it was. It returns kInvalidPostAuth exactly when the first
    two hold and the balance falls short, and the code is then
    txINSUFFICIENT_BALANCE; and when the checks of commonValidPreSeqNum
    pass, kInvalid comes with txBAD_AUTH. *)
Theorem fb_commonValid_outcome tx ltx (applying : bool) txResult :
  (fst (fb_commonValid tx ltx applying txResult) = kFullyValid
   <-> fb_passesPreSeqNum tx ltx
       /\ fb_feeSourceCovers tx ltx (if applying then 0 else fb_getFullFee tx))
  /\ (fst (fb_commonValid tx ltx applying txResult) = kFullyValid ->
      snd (fb_commonValid tx ltx applying txResult) = txResult)
  /\ (fst (fb_commonValid tx ltx applying txResult) = kInvalidPostAuth
      <-> fb_passesPreSeqNum tx ltx
          /\ exists feeSource,
               loadAccount ltx (fb_getFeeSourceID tx) = Some feeSource
               /\ fb_checkSignature tx feeSource = true
               /\ getAvailableBalance (ltxHeader ltx) feeSource
                  < (if applying then 0 else fb_getFullFee tx))
  /\ (fst (fb_commonValid tx ltx applying txResult) = kInvalidPostAuth ->
      resultCode (snd (fb_commonValid tx ltx applying txResult))
      = txINSUFFICIENT_BALANCE)
  /\ (fst (fb_commonValid tx ltx applying txResult) = kInvalid ->
      fb_passesPreSeqNum tx ltx ->
      resultCode (snd (fb_commonValid tx ltx applying txResult)) = txBAD_AUTH).
Proof.
  destruct (fb_commonValid_cases tx ltx applying txResult)
    as [[Hf ->]|(acc & Hp & Hacc & ->)].
  - assert (~ fb_passesPreSeqNum tx ltx) as Hn.
    { intros Hp. apply (fb_commonValidPreSeqNum_true tx ltx txResult) in Hp.
      congruence. }
    cbn. split_and!; try done.
    + split; [done|]. by intros [? _].
    + split; [done|]. by intros [? _].
  - set (feeToPay := if applying then 0 else fb_getFullFee tx).
    unfold fb_feeSourceCovers.
    destruct (fb_checkSignature tx acc) eqn:Es; cbn [negb].
    + destruct (getAvailableBalance (ltxHeader ltx) acc <? feeToPay) eqn:Eb; cbn.
      * apply Z.ltb_lt in Eb. split_and!; try done.
        -- split; [done|]. intros (_ & acc' & Hacc' & _ & Hle).
           rewrite Hacc in Hacc'. injection Hacc' as <-. lia.
        -- split; [|done]. intros _. split; [done|]. by exists acc.
      * apply Z.ltb_ge in Eb. split_and!; try done.
        -- split; [|done]. intros _. split; [done|]. by exists acc.
        -- split; [done|]. intros (_ & acc' & Hacc' & _ & Hlt).
           rewrite Hacc in Hacc'. injection Hacc' as <-. lia.
    + cbn. split_and!; try done.
      * split; [done|]. intros (_ & acc' & Hacc' & Hs' & _).
        rewrite Hacc in Hacc'. injection Hacc' as <-. congruence.
      * split; [done|]. intros (_ & acc' & Hacc' & Hs' & _).
        rewrite Hacc in Hacc'. injection Hacc' as <-. congruence.
Qed.

End FeeBumpCheck.

Section FeeBumpCheckValid.
Context `{FeeBumpExternals} `{AccountExternals} `{FeeBumpCheckExternals}.

Implicit Types (tx : FeeBumpTransactionFrame) (ltx : LedgerTxn).

(** X10. checkValid of a fee bump answers txMALFORMED, without looking
    at the ledger, when the fee is negative or the inner transaction does
    not provide a valid fee. It returns true only if the checks of
    commonValidPreSeqNum pass, the signature check of the fee source
    passes, its available balance covers the full fee, every signature
    has been used and the inner transaction is valid. When only a
    signature is left unused the code is txBAD_AUTH_EXTRA, and the fee
    charged in the result is the one for validation under the base fee
    of the header: the flat fee plus the base fee for every operation,
    computed in int64 arithmetic, and that very sum when it fits an
    int64. *)
Theorem fb_checkValid_outcome tx ltx (current : Z) (lower upper : N) :
  (fb_XDRProvidesValidFee tx = false ->
   fb_checkValid tx ltx current lower upper
   = (false, setResultCode txMALFORMED (fb_createResultPayload tx)))
  /\ (fb_getFullFee tx < 0 -> fb_XDRProvidesValidFee tx = false)
  /\ (fst (fb_checkValid tx ltx current lower upper) = true ->
      fb_XDRProvidesValidFee tx = true
      /\ fb_passesPreSeqNum tx ltx
      /\ fb_feeSourceCovers tx ltx (fb_getFullFee tx)
      /\ (exists feeSource,
            loadAccount ltx (fb_getFeeSourceID tx) = Some feeSource
            /\ fb_checkAllSignaturesUsed tx feeSource = true)
      /\ fst (tf_checkValidWithOptionallyChargedFee (mInnerTx tx) ltx current
                lower upper) = true)
  /\ (forall feeSource,
        fb_XDRProvidesValidFee tx = true ->
        fb_passesPreSeqNum tx ltx ->
        fb_feeSourceCovers tx ltx (fb_getFullFee tx) ->
        loadAccount ltx (fb_getFeeSourceID tx) = Some feeSource ->
        fb_checkAllSignaturesUsed tx feeSource = false ->
        fst (fb_checkValid tx ltx current lower upper) = false
        /\ resultCode (snd (fb_checkValid tx ltx current lower upper))
           = txBAD_AUTH_EXTRA
        /\ feeCharged (snd (fb_checkValid tx ltx current lower upper))
           = wrap64 (fb_flatFee tx
                     + wrap64 (baseFee (ltxHeader ltx) * fb_chargedOps tx))
        /\ (fitsInt64 (baseFee (ltxHeader ltx) * fb_chargedOps tx) ->
            fitsInt64 (fb_flatFee tx
                       + baseFee (ltxHeader ltx) * fb_chargedOps tx) ->
            feeCharged (snd (fb_checkValid tx ltx current lower upper))
            = fb_flatFee tx + baseFee (ltxHeader ltx) * fb_chargedOps tx)).
Proof.
  set (txResult := fb_createResultPayloadWithFeeCharged tx (ltxHeader ltx)
                     (Some (baseFee (ltxHeader ltx))) false).
  pose proof (fb_commonValid_kFullyValid tx ltx false txResult) as [C1 C2].
  unfold fb_checkValid. fold txResult. split_and!.
  - by intros ->.
  - intros Hneg. unfold fb_XDRProvidesValidFee.
    by rewrite (proj2 (Z.ltb_lt _ _) Hneg).
  - destruct (fb_XDRProvidesValidFee tx); cbn [negb]; [|done].
    destruct (fb_commonValid tx ltx false txResult) as [[] r] eqn:E; [done..|].
    cbn in C1, C2. destruct (proj1 C1 eq_refl) as [Hp Hc].
    destruct (loadAccount ltx (fb_getFeeSourceID tx)) as [acc|] eqn:Ea; [|done].
    destruct (fb_checkAllSignaturesUsed tx acc) eqn:Eu; cbn [negb]; [|done].
    destruct (tf_checkValidWithOptionallyChargedFee _ _ _ _ _) as [res payload].
    cbn. intros ->. split_and!; try done. by exists acc.
  - intros acc -> Hp Hc Ha Hu. cbn [negb].
    destruct (fb_commonValid tx ltx false txResult) as [v r] eqn:E.
    cbn in C1, C2. assert (v = kFullyValid) as -> by (by apply C1).
    rewrite (C2 eq_refl), Ha, Hu. cbn. split_and!; try done.
    intros Hfit1 Hfit2. unfold txResult. cbn.
    fold (fb_flatFee tx). fold (fb_chargedOps tx).
    by rewrite (wrap64_fits _ Hfit1), (wrap64_fits _ Hfit2).
Qed.

End FeeBumpCheckValid.

(** ** Fee-bump transactions: what collecting the fee conserves *)

Section FeeBumpConservation.

Implicit Types (tx : FeeBumpTransactionFrame) (ltx : LedgerTxn).

(** Replacing the entry of an account changes the sum of the balances by
    the difference of the two balances. *)
Lemma totalBalance_insert ltx (id : AccountID) (acc acc' : AccountEntry) :
  loadAccount ltx id = Some acc ->
  totalBalance {| ltxHeader := ltxHeader ltx;
                  ltxAccounts := <[id := acc']> (ltxAccounts ltx) |}
  = totalBalance ltx - balance acc + balance acc'.
Proof.
  unfold loadAccount, totalBalance. cbn. intros Hacc.
  rewrite (map_fold_delete_L _ _ id acc (ltxAccounts ltx));
    [|intros; cbn; lia|done].
  rewrite <- insert_delete_eq.
  rewrite map_fold_insert_L;
    [|intros; cbn; lia|apply lookup_delete_eq].
  lia.
Qed.

(** X11. processFeeSeqNum of a fee bump whose fee source exists, the
    balance of the fee source and the fee pool being amounts of lumens
    (not negative, and together within an int64, so that the int64
    addition to the pool does not overflow), moves lumens from the fee
    source to the fee pool and nowhere else: the sum of all balances and
    of the fee pool is what it was, the same accounts exist, no sequence
    number changes (that of the inner source is left to the inner
    transaction), and the header is otherwise untouched. *)
Theorem fb_processFeeSeqNum_conserves tx ltx (optBaseFee : option Z)
    (acc : AccountEntry) :
  loadAccount ltx (fb_getFeeSourceID tx) = Some acc ->
  0 <= balance acc ->
  0 <= feePool (ltxHeader ltx) ->
  feePool (ltxHeader ltx) + balance acc <= INT64_MAX ->
  exists txResult ltx',
    fb_processFeeSeqNum tx ltx optBaseFee = Some (txResult, ltx')
    /\ totalBalance ltx' + feePool (ltxHeader ltx')
       = totalBalance ltx + feePool (ltxHeader ltx)
    /\ (forall id, is_Some (loadAccount ltx' id) <-> is_Some (loadAccount ltx id))
    /\ (forall id, accSeqNum <$> loadAccount ltx' id = accSeqNum <$> loadAccount ltx id)
    /\ ledgerVersion (ltxHeader ltx') = ledgerVersion (ltxHeader ltx)
    /\ ledgerSeq (ltxHeader ltx') = ledgerSeq (ltxHeader ltx)
    /\ baseFee (ltxHeader ltx') = baseFee (ltxHeader ltx)
    /\ maxTxSetSize (ltxHeader ltx') = maxTxSetSize (ltxHeader ltx).
Proof.
  intros Hacc Hbal Hpool Hsum. unfold fb_processFeeSeqNum. rewrite Hacc.
  set (fee := feeCharged (fb_createResultPayloadWithFeeCharged tx (ltxHeader ltx)
                            optBaseFee true)).
  destruct (0 <? fee) eqn:E; [|by eexists _, _].
  apply Z.ltb_lt in E. eexists _, _. split; [reflexivity|].
  set (acc' := {| balance :=
                    fst (addBalance (balance acc)
                           (wrap64 (- Z.min (balance acc) fee)));
                  accSeqNum := accSeqNum acc |}).
  split_and!; try done.
  - pose proof (totalBalance_insert ltx (fb_getFeeSourceID tx) acc acc' Hacc) as Ht.
    unfold totalBalance in *. cbn in *. rewrite Ht. unfold acc'. cbn.
    rewrite addBalance_deduct by lia. rewrite feePool_takes by lia. lia.
  - intros id. unfold loadAccount in *. cbn.
    destruct (decide (id = fb_getFeeSourceID tx)) as [->|Hne].
    + rewrite lookup_insert_eq, Hacc. split; by eexists.
    + by rewrite lookup_insert_ne.
  - intros id. unfold loadAccount in *. cbn.
    destruct (decide (id = fb_getFeeSourceID tx)) as [->|Hne].
    + by rewrite lookup_insert_eq, Hacc.
    + by rewrite lookup_insert_ne.
Qed.

End FeeBumpConservation.

(** ** InvokeHostFunctionOpFrame: the whole of doApply *)

Section HostApply.
Import InvokeHostFunctionOpFrame.
Context `{HostExternals}.

Implicit Types (lk : LedgerKey) (keys : list LedgerKey) (st : ApplyState).
Implicit Types (config : SorobanNetworkConfig) (resources : SorobanResources).
Implicit Types (m : HostFunctionMetrics).

Lemma u32_add_l (a b : N) : u32 (u32 a + b) = u32 (a + b).
Proof. unfold u32. by rewrite N.Div0.add_mod_idemp_l. Qed.

Lemma u32_add_r (a b : N) : u32 (a + u32 b) = u32 (a + b).
Proof. unfold u32. by rewrite N.Div0.add_mod_idemp_r. Qed.

Lemma noteReadEntry_sound isCodeEntry keySize entrySize m :
  metricsSound m -> metricsSound (noteReadEntry isCodeEntry keySize entrySize m).
Proof.
  intros [[Hr Hw] Hk]. split; [split|]; cbn; [|done..].
  rewrite Hr. destruct isCodeEntry.
  - by rewrite u32_add_l, u32_add_r, N.add_assoc.
  - rewrite !u32_add_l. f_equal. lia.
Qed.

Lemma noteWriteEntry_sound isCodeEntry keySize entrySize m :
  metricsSound m -> metricsSound (noteWriteEntry isCodeEntry keySize entrySize m).
Proof.
  intros [[Hr Hw] Hk]. split; [split|]; cbn; [done| |done].
  rewrite Hw. destruct isCodeEntry.
  - by rewrite u32_add_l, u32_add_r, N.add_assoc.
  - rewrite !u32_add_l. f_equal. lia.
Qed.

(** *** Gathering the footprint *)

(** What a step of the gathering leaves as it is. *)
Lemma noteAndCheck_inv resources lk keySize entrySize st :
  let st1 := setMetrics (noteReadEntry (isCodeKey lk) keySize entrySize (metrics st)) st in
  (noteAndCheck resources lk keySize entrySize st = GoOn st1
   /\ (mLedgerReadByte (metrics st1) <= readBytes resources)%N)
  \/ (noteAndCheck resources lk keySize entrySize st
      = Failed (setCode INVOKE_HOST_FUNCTION_RESOURCE_LIMIT_EXCEEDED st1)).
Proof.
  intros st1. unfold noteAndCheck. fold st1.
  destruct (readBytes resources <? mLedgerReadByte (metrics st1))%N eqn:E.
  - by right.
  - left. split; [done|]. by apply N.ltb_ge.
Qed.

(** One key of the footprint that is gathered without failure: the host
    is given the view of the key, the read counters are updated and
    within the budget, and nothing else changes. *)
Lemma addReadsKey_GoOn resources lk st st' :
  addReadsKey resources lk st = GoOn st' ->
  ledgerEntryCxxBufs st'
  = ledgerEntryCxxBufs st ++ option_list (fst <$> hostView (ltx st) lk)
  /\ expirationEntryCxxBufs st'
     = expirationEntryCxxBufs st ++ option_list (snd <$> hostView (ltx st) lk)
  /\ ltx st' = ltx st /\ hostCalls st' = hostCalls st
  /\ innerResultCode st' = innerResultCode st
  /\ mSuccess (metrics st') = mSuccess (metrics st)
  /\ (mLedgerReadByte (metrics st') <= readBytes resources)%N
  /\ mReadEntry (metrics st') = u32 (mReadEntry (metrics st) + 1)
  /\ mLedgerWriteByte (metrics st') = mLedgerWriteByte (metrics st)
  /\ mEmitEventByte (metrics st') = mEmitEventByte (metrics st)
  /\ (metricsSound (metrics st) -> metricsSound (metrics st')).
Proof.
  unfold addReadsKey, hostView.
  destruct (loadWithoutRecord (ltx st) lk) as [le|].
  - destruct (isSorobanEntry (le_type le)).
    + destruct (loadWithoutRecord (ltx st) (getExpirationKey lk)) as [e|]; [|done].
      destruct (isLive e (hdr_ledgerSeq (ltx st))); cbn [negb].
      * match goal with
        | |- noteAndCheck ?r ?k ?ks ?es ?s = _ -> _ =>
            destruct (noteAndCheck_inv r k ks es s) as [[-> Hle]| ->]; [|done]
        end.
        intros [= <-]. cbn in *. split_and!; try done.
        apply noteReadEntry_sound.
      * destruct (isTemporaryEntry lk); [|done].
        match goal with
        | |- noteAndCheck ?r ?k ?ks ?es ?s = _ -> _ =>
            destruct (noteAndCheck_inv r k ks es s) as [[-> Hle]| ->]; [|done]
        end.
        intros [= <-]. cbn in *. rewrite !app_nil_r. split_and!; try done.
        apply noteReadEntry_sound.
    + match goal with
      | |- noteAndCheck ?r ?k ?ks ?es ?s = _ -> _ =>
          destruct (noteAndCheck_inv r k ks es s) as [[-> Hle]| ->]; [|done]
      end.
      intros [= <-]. cbn in *. split_and!; try done.
      apply noteReadEntry_sound.
  - match goal with
    | |- noteAndCheck ?r ?k ?ks ?es ?s = _ -> _ =>
        destruct (noteAndCheck_inv r k ks es s) as [[-> Hle]| ->]; [|done]
    end.
    intros [= <-]. cbn in *. rewrite !app_nil_r. split_and!; try done.
    apply noteReadEntry_sound.
Qed.

(** One key of the footprint on which the gathering fails: the code is
    set, and the ledger and the host are left alone. *)
Lemma addReadsKey_Failed resources lk st st' :
  addReadsKey resources lk st = Failed st' ->
  ltx st' = ltx st /\ hostCalls st' = hostCalls st
  /\ mSuccess (metrics st') = mSuccess (metrics st)
  /\ (innerResultCode st' = INVOKE_HOST_FUNCTION_RESOURCE_LIMIT_EXCEEDED
      \/ innerResultCode st' = INVOKE_HOST_FUNCTION_ENTRY_EXPIRED)
  /\ (metricsSound (metrics st) -> metricsSound (metrics st')).
Proof.
  unfold addReadsKey.
  destruct (loadWithoutRecord (ltx st) lk) as [le|].
  - destruct (isSorobanEntry (le_type le)).
    + destruct (loadWithoutRecord (ltx st) (getExpirationKey lk)) as [e|]; [|done].
      destruct (isLive e (hdr_ledgerSeq (ltx st))); cbn [negb].
      * match goal with
        | |- noteAndCheck ?r ?k ?ks ?es ?s = _ -> _ =>
            destruct (noteAndCheck_inv r k ks es s) as [[-> Hle]| ->]; [done|]
        end.
        intros [= <-]. cbn. split_and!; try done; [by left|].
        apply noteReadEntry_sound.
      * destruct (isTemporaryEntry lk).
        -- match goal with
           | |- noteAndCheck ?r ?k ?ks ?es ?s = _ -> _ =>
               destruct (noteAndCheck_inv r k ks es s) as [[-> Hle]| ->]; [done|]
           end.
           intros [= <-]. cbn. split_and!; try done; [by left|].
           apply noteReadEntry_sound.
        -- intros [= <-]. cbn. split_and!; try done. by right.
    + match goal with
      | |- noteAndCheck ?r ?k ?ks ?es ?s = _ -> _ =>
          destruct (noteAndCheck_inv r k ks es s) as [[-> Hle]| ->]; [done|]
      end.
      intros [= <-]. cbn. split_and!; try done; [by left|].
      apply noteReadEntry_sound.
  - match goal with
    | |- noteAndCheck ?r ?k ?ks ?es ?s = _ -> _ =>
        destruct (noteAndCheck_inv r k ks es s) as [[-> Hle]| ->]; [done|]
    end.
    intros [= <-]. cbn. split_and!; try done; [by left|].
    apply noteReadEntry_sound.
Qed.

Lemma omap_hostView_cons (l : Ledger) lk keys (f : list byte * list byte -> list byte) :
  f <$> omap (hostView l) (lk :: keys)
  = option_list (f <$> hostView l lk) ++ (f <$> omap (hostView l) keys).
Proof. cbn. by destruct (hostView l lk). Qed.

Lemma addReads_GoOn resources keys st st' :
  addReads resources keys st = GoOn st' ->
  ledgerEntryCxxBufs st'
  = ledgerEntryCxxBufs st ++ (omap (hostView (ltx st)) keys).*1
  /\ expirationEntryCxxBufs st'
     = expirationEntryCxxBufs st ++ (omap (hostView (ltx st)) keys).*2
  /\ ltx st' = ltx st /\ hostCalls st' = hostCalls st
  /\ innerResultCode st' = innerResultCode st
  /\ mSuccess (metrics st') = mSuccess (metrics st)
  /\ ((mLedgerReadByte (metrics st) <= readBytes resources)%N ->
      (mLedgerReadByte (metrics st') <= readBytes resources)%N)
  /\ ((mReadEntry (metrics st) < UINT32_MOD)%N ->
      mReadEntry (metrics st')
      = u32 (mReadEntry (metrics st) + N.of_nat (length keys)))
  /\ mLedgerWriteByte (metrics st') = mLedgerWriteByte (metrics st)
  /\ mEmitEventByte (metrics st') = mEmitEventByte (metrics st)
  /\ (metricsSound (metrics st) -> metricsSound (metrics st')).
Proof.
  revert st. induction keys as [|lk keys IH]; intros st.
  - intros [= <-]. cbn. rewrite !app_nil_r, N.add_0_r.
    split_and!; try done. intros Hb. unfold u32. by rewrite N.mod_small.
  - simpl addReads.
    destruct (addReadsKey resources lk st) as [st1|st1|] eqn:E1; [|done..].
    intros Hrest. apply IH in Hrest.
    destruct Hrest as (R1 & R2 & R3 & R4 & R5 & R6 & R7 & R8 & R9 & R10 & R11).
    apply addReadsKey_GoOn in E1.
    destruct E1 as (K1 & K2 & K3 & K4 & K5 & K6 & K7 & K8 & K9 & K10 & K11).
    rewrite !omap_hostView_cons, !app_assoc.
    rewrite R1, R2, R3, R4, R5, R6, R9, R10, K1, K2, K3, K4, K5, K6, K9, K10.
    split_and!; try done.
    + intros _. by apply R7.
    + intros Hb. rewrite R8.
      * rewrite K8, u32_add_l. f_equal. cbn [length]. lia.
      * rewrite K8. unfold u32. by apply N.mod_lt.
    + intros Hs. by apply R11, K11.
Qed.

Lemma addReads_Failed resources keys st st' :
  addReads resources keys st = Failed st' ->
  ltx st' = ltx st /\ hostCalls st' = hostCalls st
  /\ mSuccess (metrics st') = mSuccess (metrics st)
  /\ (innerResultCode st' = INVOKE_HOST_FUNCTION_RESOURCE_LIMIT_EXCEEDED
      \/ innerResultCode st' = INVOKE_HOST_FUNCTION_ENTRY_EXPIRED)
  /\ (metricsSound (metrics st) -> metricsSound (metrics st')).
Proof.
  revert st. induction keys as [|lk keys IH]; intros st; [done|].
  simpl addReads.
  destruct (addReadsKey resources lk st) as [st1|st1|] eqn:E1; [| |done].
  - intros Hrest. apply IH in Hrest as (R1 & R2 & R3 & R4 & R5).
    apply addReadsKey_GoOn in E1.
    destruct E1 as (K1 & K2 & K3 & K4 & K5 & K6 & K7 & K8 & K9 & K10 & K11).
    rewrite R1, R2, R3, K3, K4, K6. split_and!; try done.
    intros Hs. by apply R5, K11.
  - intros [= <-]. by apply addReadsKey_Failed in E1.
Qed.

(** *** After the call of the host *)

Lemma keepsReads_refl st : keepsReads st st.
Proof. by split_and!. Qed.

Lemma keepsReads_trans st1 st2 st3 :
  keepsReads st1 st2 -> keepsReads st2 st3 -> keepsReads st1 st3.
Proof.
  intros (A1 & A2 & A3 & A4 & A5) (B1 & B2 & B3 & B4 & B5).
  split_and!; [congruence..|]. intros Hs. by apply B5, A5.
Qed.

Lemma setEmit_sound events bytes maxBytes ok m :
  metricsSound m -> metricsSound (setEmit events bytes maxBytes ok m).
Proof. by intros [[Hr Hw] Hk]. Qed.

Lemma setHostMetrics_sound cpu mem m :
  metricsSound m -> metricsSound (setHostMetrics cpu mem m).
Proof. by intros [[Hr Hw] Hk]. Qed.

(** Writing back what the host returned never throws; it fails only with
    INVOKE_HOST_FUNCTION_RESOURCE_LIMIT_EXCEEDED; when it goes through,
    every entry passed the size limits, the bytes written are within the
    budget, and the ledger changes at the returned keys only. *)
Lemma writeBack_inv resources config (bufs : list (LedgerEntry * N))
    (cam ck : list LedgerKey) st :
  match writeBack resources config bufs cam ck st with
  | (Threw, _, _) => False
  | (Failed st', _, _) =>
      innerResultCode st' = INVOKE_HOST_FUNCTION_RESOURCE_LIMIT_EXCEEDED
      /\ keepsReads st st'
  | (GoOn st', cam', _) =>
      cam' = cam ++ ((fun b => le_key b.1) <$> bufs)
      /\ Forall (fun b => validateContractLedgerEntry b.1 b.2 config = true) bufs
      /\ ((mLedgerWriteByte (metrics st) <= writeBytes resources)%N ->
          (mLedgerWriteByte (metrics st') <= writeBytes resources)%N)
      /\ innerResultCode st' = innerResultCode st
      /\ keepsReads st st'
      /\ (forall k, k ∉ (fun b => le_key b.1) <$> bufs ->
            entries (ltx st') k = entries (ltx st) k)
      /\ hdr_ledgerSeq (ltx st') = hdr_ledgerSeq (ltx st)
  end.
Proof.
  revert cam ck st. induction bufs as [|[le bufSize] bufs IH]; intros cam ck st.
  - cbn. rewrite app_nil_r. by split_and!.
  - cbn [writeBack].
    destruct (validateContractLedgerEntry le bufSize config) eqn:Ev; cbn [negb];
      [|by split; [|split_and!]].
    set (lk := le_key le).
    set (st1 := if bool_decide (lk_type lk = EXPIRATION) then st
                else withMetrics (noteWriteEntry (isCodeKey lk) (u32 (xdr_size lk))
                                    (u32 bufSize)) st).
    assert (keepsReads st st1 /\ ltx st1 = ltx st
            /\ innerResultCode st1 = innerResultCode st) as (Hk1 & Hl1 & Hc1).
    { unfold st1. case_bool_decide; [by split; [apply keepsReads_refl|]|].
      split; [|done]. split_and!; try done. cbn. apply noteWriteEntry_sound. }
    destruct (negb (bool_decide (lk_type lk = EXPIRATION))
              && (writeBytes resources <? mLedgerWriteByte (metrics st1))%N) eqn:Ew.
    { split; [done|]. eapply keepsReads_trans; [exact Hk1|]. by split_and!. }
    assert ((mLedgerWriteByte (metrics st) <= writeBytes resources)%N ->
            (mLedgerWriteByte (metrics st1) <= writeBytes resources)%N) as Hw1.
    { intros Hle. apply andb_false_iff in Ew as [Ew|Ew].
      - apply negb_false_iff in Ew. unfold st1. by rewrite Ew.
      - by apply N.ltb_ge in Ew. }
    set (st2 := setLedger (setEntry (ltx st1) lk (Some le)) st1).
    assert (keepsReads st1 st2) as Hk2 by (by split_and!).
    assert (forall cam2 ck2,
      match writeBack resources config bufs cam2 ck2 st2 with
      | (Threw, _, _) => False
      | (Failed st', _, _) =>
          innerResultCode st' = INVOKE_HOST_FUNCTION_RESOURCE_LIMIT_EXCEEDED
          /\ keepsReads st st'
      | (GoOn st', cam', _) =>
          cam' = cam2 ++ ((fun b => le_key b.1) <$> bufs)
          /\ Forall (fun b => validateContractLedgerEntry b.1 b.2 config = true)
                    ((le, bufSize) :: bufs)
          /\ ((mLedgerWriteByte (metrics st) <= writeBytes resources)%N ->
              (mLedgerWriteByte (metrics st') <= writeBytes resources)%N)
          /\ innerResultCode st' = innerResultCode st
          /\ keepsReads st st'
          /\ (forall k, k ∉ (fun b => le_key b.1) <$> ((le, bufSize) :: bufs) ->
                entries (ltx st') k = entries (ltx st) k)
          /\ hdr_ledgerSeq (ltx st') = hdr_ledgerSeq (ltx st)
      end) as Hrest.
    { intros cam2 ck2. specialize (IH cam2 ck2 st2).
      destruct (writeBack resources config bufs cam2 ck2 st2) as [[r cam'] ck'].
      destruct r as [st'|st'|]; [| |done].
      - destruct IH as (I1 & I2 & I3 & I4 & I5 & I6 & I7).
        split_and!; try done.
        + by constructor.
        + intros Hle. by apply I3, Hw1.
        + by rewrite I4.
        + eapply keepsReads_trans; [exact Hk1|].
          eapply keepsReads_trans; [exact Hk2|done].
        + intros k Hk. rewrite fmap_cons, not_elem_of_cons in Hk.
          destruct Hk as [Hne Hk]. rewrite (I6 k Hk). cbn.
          rewrite decide_False by done. by rewrite Hl1.
        + rewrite I7. cbn. by rewrite Hl1.
      - destruct IH as [I1 I2]. split; [done|].
        eapply keepsReads_trans; [exact Hk1|].
        eapply keepsReads_trans; [exact Hk2|done]. }
    destruct (load (ltx st1) lk).
    + specialize (Hrest (cam ++ [lk]) ck). fold st2.
      destruct (writeBack resources config bufs (cam ++ [lk]) ck st2) as [[r cam'] ck'].
      destruct r; [|done..]. rewrite fmap_cons. cbn [fst].
      rewrite <- app_assoc in Hrest. done.
    + specialize (Hrest (cam ++ [lk]) (ck ++ [lk])). fold st2.
      destruct (writeBack resources config bufs (cam ++ [lk]) (ck ++ [lk]) st2)
        as [[r cam'] ck'].
      destruct r; [|done..]. rewrite fmap_cons. cbn [fst].
      rewrite <- app_assoc in Hrest. done.
Qed.

(** Erasing the read-write keys the host did not return never returns
    false; when it goes through, those keys load nothing, a key that loaded
    nothing still loads nothing, and the ledger changes at those keys and
    at the expiration keys of the contract entries among them only. *)
Lemma eraseNotReturned_inv keys (cam : list LedgerKey) st :
  match eraseNotReturned keys cam st with
  | Threw => True
  | Failed _ => False
  | GoOn st' =>
      metrics st' = metrics st
      /\ innerResultCode st' = innerResultCode st
      /\ hostCalls st' = hostCalls st
      /\ (forall k, entries (ltx st) k = None -> entries (ltx st') k = None)
      /\ (forall k, k ∈ keys -> k ∉ cam -> entries (ltx st') k = None)
      /\ (forall k,
            (forall lk, lk ∈ keys -> lk ∉ cam ->
               k <> lk
               /\ (isSorobanEntry (lk_type lk) = true -> k <> getExpirationKey lk)) ->
            entries (ltx st') k = entries (ltx st) k)
  end.
Proof.
  revert st. induction keys as [|lk keys IH]; intros st.
  - cbn. split_and!; try done. intros k Hk. by apply elem_of_nil in Hk.
  - cbn [eraseNotReturned]. case_bool_decide as Hcam.
    { specialize (IH st). destruct (eraseNotReturned keys cam st); [|done..].
      destruct IH as (I1 & I2 & I3 & I4 & I5 & I6). split_and!; try done.
      - intros k Hk Hn. apply elem_of_cons in Hk as [->|Hk]; [done|by apply I5].
      - intros k Hk. apply I6. intros lk' Hin. apply Hk. by right. }
    destruct (load (ltx st) lk) as [e|] eqn:El.
    2:{ specialize (IH st). destruct (eraseNotReturned keys cam st); [|done..].
        destruct IH as (I1 & I2 & I3 & I4 & I5 & I6). split_and!; try done.
        - intros k Hk Hn. apply elem_of_cons in Hk as [->|Hk]; [|by apply I5].
          by apply I4.
        - intros k Hk. apply I6. intros lk' Hin. apply Hk. by right. }
    set (l1 := setEntry (ltx st) lk None).
    destruct (isSorobanEntry (lk_type lk)) eqn:Es.
    + destruct (load l1 (getExpirationKey lk)) as [e'|]; [|done].
      set (st1 := setLedger (setEntry l1 (getExpirationKey lk) None) st).
      specialize (IH st1). destruct (eraseNotReturned keys cam st1); [|done..].
      destruct IH as (I1 & I2 & I3 & I4 & I5 & I6).
      assert (forall k, entries (ltx st) k = None -> entries (ltx st1) k = None) as Hmono.
      { intros k Hk. cbn. repeat case_decide; done. }
      split_and!; try done.
      * intros k Hk. by apply I4, Hmono.
      * intros k Hk Hn. apply elem_of_cons in Hk as [->|Hk]; [|by apply I5].
        apply I4. cbn. case_decide; [done|]. by rewrite decide_True.
      * intros k Hk. rewrite I6.
        -- destruct (Hk lk) as [Hne Hexp]; [by left|done|].
           cbn. rewrite decide_False by (by apply Hexp).
           by rewrite decide_False.
        -- intros lk' Hin. apply Hk. by right.
    + set (st1 := setLedger l1 st).
      specialize (IH st1). destruct (eraseNotReturned keys cam st1); [|done..].
      destruct IH as (I1 & I2 & I3 & I4 & I5 & I6).
      assert (forall k, entries (ltx st) k = None -> entries (ltx st1) k = None) as Hmono.
      { intros k Hk. cbn. by case_decide. }
      split_and!; try done.
      * intros k Hk. by apply I4, Hmono.
      * intros k Hk Hn. apply elem_of_cons in Hk as [->|Hk]; [|by apply I5].
        apply I4. cbn. by rewrite decide_True.
      * intros k Hk. rewrite I6.
        -- destruct (Hk lk) as [Hne Hexp]; [by left|done|].
           cbn. by rewrite decide_False.
        -- intros lk' Hin. apply Hk. by right.
Qed.

(** Accounting for the events never throws and touches the event counters
    only; it fails only with
    INVOKE_HOST_FUNCTION_RESOURCE_LIMIT_EXCEEDED. *)
Lemma emitEvents_inv config (events : list N) st :
  match emitEvents config events st with
  | Threw => False
  | Failed st' =>
      innerResultCode st' = INVOKE_HOST_FUNCTION_RESOURCE_LIMIT_EXCEEDED
      /\ keepsReads st st'
  | GoOn st' =>
      ltx st' = ltx st /\ innerResultCode st' = innerResultCode st
      /\ keepsReads st st'
      /\ mLedgerWriteByte (metrics st') = mLedgerWriteByte (metrics st)
  end.
Proof.
  revert st. induction events as [|size events IH]; intros st.
  - cbn. by split_and!.
  - cbn [emitEvents].
    set (st1 := setMetrics _ st).
    assert (keepsReads st st1) as Hk1.
    { by split_and!. }
    destruct (txMaxContractEventsSizeBytes config <? mEmitEventByte (metrics st1))%N.
    { split; [done|]. eapply keepsReads_trans; [exact Hk1|]. by split_and!. }
    specialize (IH st1). destruct (emitEvents config events st1); [| |done].
    + destruct IH as (I1 & I2 & I3 & I4).
      split_and!; [done|done|by eapply keepsReads_trans|done].
    + destruct IH as [I1 I2]. split; [done|]. by eapply keepsReads_trans.
Qed.

(** What doApply does with an output of the host that is not a
    success. *)
Lemma invokeAndFinish_unsuccessful config resources st :
  let input := hostInputOf resources st in
  let out := default failedOutput (invoke_host_function input) in
  success out = false ->
  exists st',
    invokeAndFinish config resources st = Some (false, st')
    /\ ltx st' = ltx st
    /\ hostCalls st' = hostCalls st ++ [input]
    /\ mSuccess (metrics st') = mSuccess (metrics st)
    /\ mLedgerReadByte (metrics st') = mLedgerReadByte (metrics st)
    /\ mReadEntry (metrics st') = mReadEntry (metrics st)
    /\ (metricsSound (metrics st) -> metricsSound (metrics st'))
    /\ innerResultCode st' = hostFailureCode config resources out.
Proof.
  intros input out Hs. unfold invokeAndFinish. fold (hostInputOf resources st).
  fold input. fold out. rewrite Hs. cbn [negb]. unfold hostFailureCode.
  destruct (instructions resources <? cpu_insns _)%N;
    [eexists; split; [done|]; split_and!; try done; apply setHostMetrics_sound|].
  destruct (txMemoryLimit config <? mem_bytes _)%N;
    eexists; (split; [done|]); split_and!; try done; apply setHostMetrics_sound.
Qed.

(** What doApply does with a successful output of the host. *)
Lemma invokeAndFinish_successful config resources st :
  let input := hostInputOf resources st in
  let out := default failedOutput (invoke_host_function input) in
  success out = true ->
  match invokeAndFinish config resources st with
  | None => True
  | Some (b, st') =>
      hostCalls st' = hostCalls st ++ [input]
      /\ mLedgerReadByte (metrics st') = mLedgerReadByte (metrics st)
      /\ mReadEntry (metrics st') = mReadEntry (metrics st)
      /\ (metricsSound (metrics st) -> metricsSound (metrics st'))
      /\ if b then
           innerResultCode st' = INVOKE_HOST_FUNCTION_SUCCESS
           /\ mSuccess (metrics st') = true
           /\ ((mLedgerWriteByte (metrics st) <= writeBytes resources)%N ->
               (mLedgerWriteByte (metrics st') <= writeBytes resources)%N)
           /\ (mEmitEventByte (metrics st') <= txMaxContractEventsSizeBytes config)%N
           /\ Forall (fun b => validateContractLedgerEntry b.1 b.2 config = true)
                     (modified_ledger_entries out)
           /\ consumeRefundableSorobanResources (mEmitEventByte (metrics st'))
                (rent_fee out) = true
           /\ (forall k, k ∈ notReturned resources out -> entries (ltx st') k = None)
           /\ (forall k,
                 k ∉ returnedKeys out ->
                 (forall lk, lk ∈ notReturned resources out ->
                    k <> lk
                    /\ (isSorobanEntry (lk_type lk) = true ->
                        k <> getExpirationKey lk)) ->
                 entries (ltx st') k = entries (ltx st) k)
         else
           (innerResultCode st' = INVOKE_HOST_FUNCTION_RESOURCE_LIMIT_EXCEEDED
            \/ innerResultCode st' = INVOKE_HOST_FUNCTION_INSUFFICIENT_REFUNDABLE_FEE)
           /\ mSuccess (metrics st') = mSuccess (metrics st)
  end.
Proof.
  intros input out Hs. unfold invokeAndFinish. fold (hostInputOf resources st).
  fold input. fold out. rewrite Hs. cbn [negb].
  set (st1 := {| ledgerEntryCxxBufs := ledgerEntryCxxBufs st;
                 expirationEntryCxxBufs := expirationEntryCxxBufs st;
                 metrics := setHostMetrics (cpu_insns out) (mem_bytes out) (metrics st);
                 innerResultCode := innerResultCode st; ltx := ltx st;
                 hostCalls := hostCalls st ++ [input] |}).
  assert (metricsSound (metrics st) -> metricsSound (metrics st1)) as Hs1
    by apply setHostMetrics_sound.
  pose proof (writeBack_inv resources config (modified_ledger_entries out) [] [] st1) as Hw.
  destruct (writeBack resources config (modified_ledger_entries out) [] [] st1)
    as [[r cam] ck].
  destruct r as [st2|st2|]; [| |done].
  2:{ destruct Hw as (W1 & W2 & W3 & W4 & W5 & W6).
      rewrite W1, W2, W3, W4, W5.
      split_and!; try done; try (by left); by intros ?; apply W6, Hs1. }
  destruct Hw as (W1 & W2 & W3 & W4 & (W5 & W6 & W7 & W8 & W9) & W10 & W11).
  cbn [app] in W1.
  destruct (createdWithExpiration ck); cbn [negb]; [|done].
  pose proof (eraseNotReturned_inv (footprint_readWrite resources) cam st2) as He.
  destruct (eraseNotReturned (footprint_readWrite resources) cam st2)
    as [st3|st3|]; [|done..].
  destruct He as (E1 & E2 & E3 & E4 & E5 & E6).
  pose proof (emitEvents_inv config (contract_events out) st3) as Hm.
  destruct (emitEvents config (contract_events out) st3) as [st4|st4|]; [| |done].
  2:{ destruct Hm as (M1 & M2 & M3 & M4 & M5 & M6).
      rewrite M1, M2, M3, M4, M5, E1, E3, W5, W6, W7, W8.
      split_and!; try done; try (by left).
      intros Hsd. apply M6. rewrite E1. by apply W9, Hs1. }
  destruct Hm as (M1 & M2 & (M3 & M4 & M5 & M6 & M7) & M8).
  set (st5 := setMetrics _ st4).
  assert (metricsSound (metrics st) -> metricsSound (metrics st5)) as Hs5.
  { intros Hsd. cbn. apply setEmit_sound, M7. rewrite E1. by apply W9, Hs1. }
  destruct (txMaxContractEventsSizeBytes config <? mEmitEventByte (metrics st5))%N eqn:Ev.
  { cbn. rewrite M3, M4, M5, M6, E1, E3, W5, W6, W7, W8.
    split_and!; try done. by left. }
  destruct (consumeRefundableSorobanResources (mEmitEventByte (metrics st5))
              (rent_fee out)) eqn:Ec; cbn [negb].
  2:{ cbn. rewrite M3, M4, M5, M6, E1, E3, W5, W6, W7, W8.
      split_and!; try done. by right. }
  cbn. rewrite M3, M5, M6, E1, E3, W5, W7, W8. split_and!.
  - done.
  - done.
  - done.
  - intros Hsd. by apply setEmit_sound, Hs5.
  - done.
  - done.
  - intros Hle. rewrite M8, E1. by apply W3.
  - by apply N.ltb_ge in Ev.
  - done.
  - done.
  - intros k Hk. rewrite M1. apply list_elem_of_filter in Hk as [Hn Hk].
    apply E5; [done|]. by rewrite W1.
  - intros k Hk1 Hk2. rewrite M1, E6, W10; [done|done|].
    intros lk Hin Hn. apply Hk2. apply list_elem_of_filter. split; [|done].
    unfold returnedKeys. by rewrite <- W1.
Qed.

(** *** doApply as a whole *)

Lemma omap_length_le {A B} (f : A -> option B) (l : list A) :
  (length (omap f l) <= length l)%nat.
Proof. induction l as [|x l IH]; cbn; [done|]. destruct (f x); cbn; lia. Qed.

(** The state in which the host is called when the footprint has been
    gathered. *)
Lemma addReads_initial resources code0 (l : Ledger) st :
  addReads resources (footprintKeys resources) (initialState code0 l) = GoOn st ->
  hostInputOf resources st = gatheredInput resources l
  /\ ltx st = l /\ hostCalls st = [] /\ innerResultCode st = code0
  /\ mSuccess (metrics st) = false
  /\ (mLedgerReadByte (metrics st) <= readBytes resources)%N
  /\ mReadEntry (metrics st) = u32 (N.of_nat (length (footprintKeys resources)))
  /\ mLedgerWriteByte (metrics st) = 0%N
  /\ metricsSound (metrics st).
Proof.
  intros Hg. apply addReads_GoOn in Hg.
  destruct Hg as (R1 & R2 & R3 & R4 & R5 & R6 & R7 & R8 & R9 & R10 & R11).
  cbn in *. split_and!; try done.
  - unfold hostInputOf, gatheredInput. by rewrite R1, R2.
  - apply R7. lia.
  - apply R8. done.
  - by apply R11.
Qed.

Lemma doApply_cases config resources code0 (l : Ledger) b st :
  doApply config resources code0 l = Some (b, st) ->
  (addReads resources (footprintKeys resources) (initialState code0 l) = Failed st
   /\ b = false)
  \/ (exists st0,
        addReads resources (footprintKeys resources) (initialState code0 l) = GoOn st0
        /\ invokeAndFinish config resources st0 = Some (b, st)).
Proof.
  rewrite doApply_gather. fold (footprintKeys resources).
  destruct (addReads resources (footprintKeys resources) (initialState code0 l))
    as [st0|st0|]; [| |done].
  - intros Hi. right. by exists st0.
  - intros [= <- <-]. by left.
Qed.

(** X1. When doApply returns, the result code agrees with the value
    returned: true goes with INVOKE_HOST_FUNCTION_SUCCESS and a success
    flag set in the metrics, false with one of the four failure codes
    (resource limit exceeded, entry expired, trapped, insufficient
    refundable fee) and a success flag left unset, whatever the code was
    before the call. *)
Theorem doApply_result_code config resources code0 (l : Ledger) b st :
  doApply config resources code0 l = Some (b, st) ->
  if b then
    innerResultCode st = INVOKE_HOST_FUNCTION_SUCCESS
    /\ mSuccess (metrics st) = true
  else
    innerResultCode st ∈ failureCodes /\ mSuccess (metrics st) = false.
Proof.
  intros Hd. apply doApply_cases in Hd as [[Hf ->]|(st0 & Hg & Hi)].
  - apply addReads_Failed in Hf as (F1 & F2 & F3 & F4 & F5).
    split; [|by rewrite F3]. unfold failureCodes.
    destruct F4 as [-> | ->]; set_solver.
  - apply addReads_initial in Hg as (G1 & G2 & G3 & G4 & G5 & G6 & G7 & G8 & G9).
    destruct (success (default failedOutput
                         (invoke_host_function (hostInputOf resources st0)))) eqn:Hs.
    + pose proof (invokeAndFinish_successful config resources st0 Hs) as Hok.
      rewrite Hi in Hok. destruct Hok as (_ & _ & _ & _ & Hok).
      destruct b.
      * by destruct Hok as (? & ? & _).
      * destruct Hok as [Hc Hm]. split; [|by rewrite Hm].
        unfold failureCodes. destruct Hc as [-> | ->]; set_solver.
    + destruct (invokeAndFinish_unsuccessful config resources st0 Hs)
        as (st' & Hi' & U1 & U2 & U3 & U4 & U5 & U6 & U7).
      rewrite Hi in Hi'. injection Hi' as -> ->.
      split; [|by rewrite U3]. rewrite U7. unfold hostFailureCode, failureCodes.
      repeat case_match; set_solver.
Qed.

(** X2. doApply calls the host at most once. It does not call it when
    the gathering of the footprint fails: it then returns false with the
    code of a resource limit or of an expired entry, and the ledger is as
    it was. When it calls it, the bytes read are within the declared
    readBytes, every key of the footprint has been counted, and the host
    is given the declared instructions and, in the order of the footprint
    (read-only keys first), the entry and expiration entry of every key
    that loads a live entry: two vectors of the same length, not longer
    than the footprint. *)
Theorem doApply_host_call config resources code0 (l : Ledger) b st :
  doApply config resources code0 l = Some (b, st) ->
  (hostCalls st = [] /\ b = false /\ ltx st = l
   /\ (innerResultCode st = INVOKE_HOST_FUNCTION_RESOURCE_LIMIT_EXCEEDED
       \/ innerResultCode st = INVOKE_HOST_FUNCTION_ENTRY_EXPIRED))
  \/ (hostCalls st = [gatheredInput resources l]
      /\ (mLedgerReadByte (metrics st) <= readBytes resources)%N
      /\ mReadEntry (metrics st) = u32 (N.of_nat (length (footprintKeys resources)))
      /\ length (in_ledgerEntries (gatheredInput resources l))
         = length (in_expirationEntries (gatheredInput resources l))
      /\ (length (in_ledgerEntries (gatheredInput resources l))
          <= length (footprintKeys resources))%nat).
Proof.
  intros Hd. apply doApply_cases in Hd as [[Hf ->]|(st0 & Hg & Hi)].
  - left. apply addReads_Failed in Hf as (F1 & F2 & F3 & F4 & F5). by split_and!.
  - right.
    apply addReads_initial in Hg as (G1 & G2 & G3 & G4 & G5 & G6 & G7 & G8 & G9).
    assert (hostCalls st = [gatheredInput resources l]
            /\ mLedgerReadByte (metrics st) = mLedgerReadByte (metrics st0)
            /\ mReadEntry (metrics st) = mReadEntry (metrics st0)) as (C1 & C2 & C3).
    { destruct (success (default failedOutput
                           (invoke_host_function (hostInputOf resources st0)))) eqn:Hs.
      - pose proof (invokeAndFinish_successful config resources st0 Hs) as Hok.
        rewrite Hi in Hok. destruct Hok as (K1 & K2 & K3 & _).
        by rewrite K1, G3, G1.
      - destruct (invokeAndFinish_unsuccessful config resources st0 Hs)
          as (st' & Hi' & U1 & U2 & U3 & U4 & U5 & U6 & U7).
        rewrite Hi in Hi'. injection Hi' as -> ->. by rewrite U2, G3, G1. }
    rewrite C1, C2, C3. split_and!; try done.
    + cbn. by rewrite !length_fmap.
    + cbn. rewrite length_fmap. apply omap_length_le.
Qed.

(** X3. When the host does not succeed, be it that the call raises an
    exception or that its output reports a failure, doApply returns
    false and leaves the ledger as it was; the code is
    INVOKE_HOST_FUNCTION_RESOURCE_LIMIT_EXCEEDED when the output reports
    more instructions than declared or more memory than the network
    allows, and INVOKE_HOST_FUNCTION_TRAPPED otherwise, in particular
    after an exception. *)
Theorem doApply_host_failure config resources code0 (l : Ledger) b st :
  doApply config resources code0 l = Some (b, st) ->
  hostCalls st <> [] ->
  success (hostOutput resources l) = false ->
  b = false /\ ltx st = l
  /\ innerResultCode st = hostFailureCode config resources (hostOutput resources l)
  /\ (invoke_host_function (gatheredInput resources l) = None ->
      innerResultCode st = INVOKE_HOST_FUNCTION_TRAPPED).
Proof.
  intros Hd Hcalls Hs. apply doApply_cases in Hd as [[Hf ->]|(st0 & Hg & Hi)].
  - apply addReads_Failed in Hf as (F1 & F2 & F3 & F4 & F5). by rewrite F2 in Hcalls.
  - apply addReads_initial in Hg as (G1 & G2 & G3 & G4 & G5 & G6 & G7 & G8 & G9).
    unfold hostOutput in *. rewrite <- G1 in *.
    destruct (invokeAndFinish_unsuccessful config resources st0 Hs)
      as (st' & Hi' & U1 & U2 & U3 & U4 & U5 & U6 & U7).
    rewrite Hi in Hi'. injection Hi' as -> ->. split_and!; try done.
    + by rewrite U1.
    + intros Hn. rewrite U7, Hn. cbn. unfold hostFailureCode. cbn.
      by rewrite !(proj2 (N.ltb_ge _ _)) by lia.
Qed.

(** X4. doApply returns true only within the limits: the host answered
    with a success, the bytes read and written are within the declared
    readBytes and writeBytes, the bytes of the events and of the return
    value are within the network's limit on events, every entry the host
    returned passed validateContractLedgerEntry, and the refundable fee
    covered the events and the rent. *)
Theorem doApply_success_limits config resources code0 (l : Ledger) st :
  doApply config resources code0 l = Some (true, st) ->
  exists out,
    invoke_host_function (gatheredInput resources l) = Some out
    /\ success out = true
    /\ (mLedgerReadByte (metrics st) <= readBytes resources)%N
    /\ (mLedgerWriteByte (metrics st) <= writeBytes resources)%N
    /\ (mEmitEventByte (metrics st) <= txMaxContractEventsSizeBytes config)%N
    /\ Forall (fun b => validateContractLedgerEntry b.1 b.2 config = true)
              (modified_ledger_entries out)
    /\ consumeRefundableSorobanResources (mEmitEventByte (metrics st))
         (rent_fee out) = true.
Proof.
  intros Hd. apply doApply_cases in Hd as [[Hf ?]|(st0 & Hg & Hi)]; [done|].
  apply addReads_initial in Hg as (G1 & G2 & G3 & G4 & G5 & G6 & G7 & G8 & G9).
  destruct (success (default failedOutput
                       (invoke_host_function (hostInputOf resources st0)))) eqn:Hs.
  2:{ destruct (invokeAndFinish_unsuccessful config resources st0 Hs)
        as (st' & Hi' & _). by rewrite Hi in Hi'. }
  pose proof (invokeAndFinish_successful config resources st0 Hs) as Hok.
  rewrite Hi in Hok.
  destruct Hok as (K1 & K2 & K3 & K4 & K5 & K6 & K7 & K8 & K9 & K10 & K11 & K12).
  rewrite G1 in *.
  destruct (invoke_host_function (gatheredInput resources l)) as [out|]; [|done].
  exists out. cbn in *. split_and!; try done.
  - by rewrite K2.
  - apply K7. rewrite G8. lia.
Qed.

(** X5. After doApply has returned true, every read-write key of the
    footprint that the host did not return loads nothing, and the ledger
    is as it was at every key that the host did not return and that is
    neither such an erased key nor the expiration key of an erased
    contract entry. *)
Theorem doApply_success_ledger config resources code0 (l : Ledger) st :
  doApply config resources code0 l = Some (true, st) ->
  let out := hostOutput resources l in
  (forall k, k ∈ notReturned resources out -> load (ltx st) k = None)
  /\ (forall k,
        k ∉ returnedKeys out ->
        (forall lk, lk ∈ notReturned resources out ->
           k <> lk
           /\ (isSorobanEntry (lk_type lk) = true -> k <> getExpirationKey lk)) ->
        load (ltx st) k = load l k).
Proof.
  intros Hd out. apply doApply_cases in Hd as [[Hf ?]|(st0 & Hg & Hi)]; [done|].
  apply addReads_initial in Hg as (G1 & G2 & G3 & G4 & G5 & G6 & G7 & G8 & G9).
  destruct (success (default failedOutput
                       (invoke_host_function (hostInputOf resources st0)))) eqn:Hs.
  2:{ destruct (invokeAndFinish_unsuccessful config resources st0 Hs)
        as (st' & Hi' & _). by rewrite Hi in Hi'. }
  pose proof (invokeAndFinish_successful config resources st0 Hs) as Hok.
  rewrite Hi in Hok.
  destruct Hok as (K1 & K2 & K3 & K4 & K5 & K6 & K7 & K8 & K9 & K10 & K11 & K12).
  rewrite G1, G2 in *. split; [exact K11|exact K12].
Qed.

(** X6. Whatever doApply returns, the byte counters of its metrics add
    up: the bytes read from the ledger are the data bytes plus the code
    bytes read, and likewise for the bytes written (in uint32
    arithmetic); and the counter of key bytes written is still zero, since
    noteWriteEntry does not update it. *)
Theorem doApply_metrics config resources code0 (l : Ledger) b st :
  doApply config resources code0 l = Some (b, st) ->
  mLedgerReadByte (metrics st)
  = u32 (mReadDataByte (metrics st) + mReadCodeByte (metrics st))
  /\ mLedgerWriteByte (metrics st)
     = u32 (mWriteDataByte (metrics st) + mWriteCodeByte (metrics st))
  /\ mWriteKeyByte (metrics st) = 0%N.
Proof.
  intros Hd.
  assert (metricsSound (metrics st)) as [[? ?] ?]; [|done].
  assert (metricsSound (metrics (initialState code0 l))) as H0 by done.
  apply doApply_cases in Hd as [[Hf ->]|(st0 & Hg & Hi)].
  - apply addReads_Failed in Hf as (F1 & F2 & F3 & F4 & F5). by apply F5.
  - apply addReads_initial in Hg as (G1 & G2 & G3 & G4 & G5 & G6 & G7 & G8 & G9).
    destruct (success (default failedOutput
                         (invoke_host_function (hostInputOf resources st0)))) eqn:Hs.
    + pose proof (invokeAndFinish_successful config resources st0 Hs) as Hok.
      rewrite Hi in Hok. destruct Hok as (_ & _ & _ & Hok & _). by apply Hok.
    + destruct (invokeAndFinish_unsuccessful config resources st0 Hs)
        as (st' & Hi' & U1 & U2 & U3 & U4 & U5 & U6 & U7).
      rewrite Hi in Hi'. injection Hi' as -> ->. by apply U6.
Qed.

End HostApply.

(** ** Examples *)

(** The two sample sets hold the same transactions. *)
Lemma setAB_setBA_Permutation : mTransactions setAB ≡ₚ mTransactions setBA.
Proof.
  change ([txA1; txB1; txA2; txB2] ≡ₚ [txB2; txA2; txB1; txA1]).
  change [txB2; txA2; txB1; txA1] with (reverse [txA1; txB1; txA2; txB2]).
  by rewrite reverse_Permutation.
Qed.

(** C1 on the two sample sets, which list the same four transactions in
    opposite orders. *)
Lemma getContentsHash_canonical_witness :
  fst (@getContentsHash polySHA setAB) = fst (@getContentsHash polySHA setBA)
  /\ (exists sorted,
        sorted ≡ₚ mTransactions setAB /\ @ascendingFullHash polySHA sorted
        /\ fst (@getContentsHash polySHA setAB)
           = @sha256 polySHA (hashBytes (mPreviousLedgerHash setAB)
                                ++ concat (map getEnvelope sorted)))
  /\ fst (@getContentsHash polySHA (snd (@getContentsHash polySHA setAB)))
     = fst (@getContentsHash polySHA setAB).
Proof.
  apply (@getContentsHash_canonical polySHA setAB setBA).
  - reflexivity.
  - reflexivity.
  - reflexivity.
  - exact setAB_setBA_Permutation.
  - unfold collisionFree. apply (bool_decide_unpack _). vm_compute. exact I.
Defined.


(** C2 on the sample set at protocol 11: five operations for a budget of
    three. *)
Lemma surgePricingFilter_selection_witness :
  exists final,
    SurgeSelects (fun q1 q2 =>
                    @SurgeCompare polySHA sampleTxExternals 0%N (headerV 11 3)
                      (Some q1) (Some q2)) true
      {| opsLeft := 3%N;
         surgeQueue := queuesOf (buildAccountTxQueues (mTransactions setAB));
         updatedSet := [] |} final
    /\ mTransactions (@surgePricingFilter polySHA sampleTxExternals
                        (headerV 11 3) 3%N 0%N setAB)
       = std_sort (@HashTxSorter polySHA) (updatedSet final)
    /\ (opsLeft final + opsOf true (updatedSet final) = 3)%N
    /\ forall a,
         ofAccount a (updatedSet final)
         `prefix_of` std_sort SeqSorter (ofAccount a (mTransactions setAB)).
Proof.
  refine (proj2 (@surgePricingFilter_selection polySHA sampleTxExternals
                   (headerV 11 3) 3%N 0%N setAB _) _).
  - intros tx. simpl. lia.
  - vm_compute. reflexivity.
Defined.

(** The selection of the claim, with every transaction counted for its
    own operations, on [setTwo] with a budget of one operation: the
    transaction of the higher rate is accepted, whatever queue is taken
    among those of highest priority. *)
Lemma startTwo_selection final :
  SurgeSelects surgeAtV10 true startTwo final -> updatedSet final = [txB1].
Proof.
  assert (surgeQueue startTwo = [[txB1]; [txA1]] \/ surgeQueue startTwo = [[txA1]; [txB1]])
    as Hq by (vm_compute; tauto).
  assert (forall q qs,
            highestPriority surgeAtV10 q qs (surgeQueue startTwo) ->
            q = [txB1] /\ qs = [[txA1]]) as Htop.
  { intros q qs [Hperm Hall].
    assert (q :: qs = [[txB1]; [txA1]] \/ q :: qs = [[txA1]; [txB1]]) as [E|E].
    { destruct Hq as [Hq|Hq]; rewrite Hq in Hperm;
        apply Permutation_length_2_inv in Hperm; tauto. }
    - by injection E as -> ->.
    - injection E as -> ->. apply Forall_cons in Hall as [Hc _].
      vm_compute in Hc. done. }
  assert (forall st,
            opsLeft st = 0%N -> updatedSet st = [txB1] ->
            SurgeSelects surgeAtV10 true st final -> updatedSet final = [txB1])
    as Hend.
  { intros st H0 Hu Hsel.
    inversion Hsel as [st' Hd|st' tx q' rest fin Hpos|st' tx q' rest fin Hpos];
      subst; [done|lia|lia]. }
  intros Hsel.
  inversion Hsel as [st' Hd|st' tx q' rest fin Hpos Hp Hfit Hnext
                    |st' tx q' rest fin Hpos Hp Hfit Hnext]; subst.
  - destruct Hd as [Hd|Hd]; [done|]. destruct Hq as [Hq|Hq]; congruence.
  - apply Htop in Hp as [[= -> ->] ->].
    eapply Hend; [| |exact Hnext]; by vm_compute.
  - apply Htop in Hp as [[= -> ->] ->]. vm_compute in Hfit. done.
Qed.

(** C2 as stated fails at protocol 10. Two transactions of one operation
    each and a budget of one operation: the size in operations (2)
    exceeds the budget, so surge pricing is in effect as the claim has
    it, and the selection the claim describes, with every transaction
    counted for its own operations, exists and accepts the transaction
    of the higher rate; the code counts MAX_OPS_PER_TX operations for
    every transaction and accepts none. *)
Lemma surgePricingFilter_counts_whole_transactions_before_11 :
  (1 < sizeOp setTwo)%N
  /\ mTransactions (@surgePricingFilter polySHA sampleTxExternals
                      (headerV 10 1) 1%N 0%N setTwo) = []
  /\ (exists final, SurgeSelects surgeAtV10 true startTwo final)
  /\ (forall final,
        SurgeSelects surgeAtV10 true startTwo final -> updatedSet final = [txB1]).
Proof.
  split; [by vm_compute|]. split; [by vm_compute|]. split.
  - exists (surgeLoop surgeAtV10 true 2 startTwo).
    assert (Total (in_order surgeAtV10)) as Htotal.
    { intros q1 q2. unfold in_order, surgeAtV10.
      destruct (@SurgeCompare_total polySHA sampleTxExternals 0%N (headerV 10 1)
                  q2 q1); [by left|by right]. }
    assert (Transitive (in_order surgeAtV10)) as Htrans.
    { intros q1 q2 q3. unfold in_order, surgeAtV10.
      apply (@SurgeCompare_not_below_trans polySHA sampleTxExternals).
      intros tx. simpl. lia. }
    apply (@SurgeRuns_selects surgeAtV10 true Htotal Htrans).
    apply (@surgeLoop_runs surgeAtV10 true).
    + apply keyedByAccount_heapWellFormed, buildAccountTxQueues_keyed.
    + simpl. by rewrite buildAccountTxQueues_Permutation.
  - apply startTwo_selection.
Qed.

(** C3 on the sample set at protocol 11 with maxTxSetSize = 100. *)
Lemma getBaseFee_spec_witness :
  getBaseFee (headerV 11 100) setAB <= INT64_MAX
  /\ Forall (fun tx => getBaseFee (headerV 11 100) setAB <= perOpBid tx)
            (mTransactions setAB)
  /\ (getBaseFee (headerV 11 100) setAB = INT64_MAX
      \/ exists tx, tx ∈ mTransactions setAB
                    /\ getBaseFee (headerV 11 100) setAB = perOpBid tx).
Proof.
  apply (proj1 (proj2 (proj2 (getBaseFee_spec (headerV 11 100) setAB)))).
  - vm_compute. discriminate.
  - vm_compute. reflexivity.
Defined.

(** C3 as stated fails at protocol 10: the operation count (5) exceeds
    maxTxSetSize - 100 = 0, the lowest bid per operation is 51, and
    getBaseFee returns header.baseFee = 100. *)
Lemma getBaseFee_ignores_bids_before_11 :
  getBaseFee (headerV 10 100) setAB = 100
  /\ claimedBaseFee (headerV 10 100) setAB = 51
  /\ (Z.of_N (maxTxSetSize (headerV 10 100)) - 100 < Z.of_N (sizeOp setAB)).
Proof. split; [|split]; vm_compute; reflexivity. Qed.

(** C4 on a fee bump of 201 for two operations at base fee 100. *)
Lemma fb_getFee_applying_witness :
  fb_getFee feeBump201 (headerV 11 100) (Some 100) true
  = fb_chargedOps feeBump201 * 100 + fb_flatFee feeBump201.
Proof.
  refine (proj1 (proj2 (fb_getFee_applying feeBump201 (headerV 11 100) 100
                          _ _ _ _)) _).
  - vm_compute. discriminate.
  - vm_compute. discriminate.
  - split; vm_compute; discriminate.
  - vm_compute. discriminate.
  - vm_compute. discriminate.
Defined.

(** C4 as stated fails: a set made of a fee bump bidding 201 for two
    operations has base fee 101 (201/2 rounded up); the fee charged is the
    bid, 201, and not 2 * 101 = 202. *)
Lemma fb_getFee_capped_by_bid :
  getBaseFee (headerV 11 100) (TxSetFrame_fromXDR 5%N [feeBump201AsBase]) = 101
  /\ fb_getFee feeBump201 (headerV 11 100) (Some 101) true = 201
  /\ Z.of_N (fb_getNumOperations feeBump201) * 101 = 202.
Proof. split; [|split]; vm_compute; reflexivity. Qed.

(** C5 on a fee bump whose outer rate (300 for two operations) is below the
    inner rate (200 for one). *)
Lemma fb_commonValidPreSeqNum_insufficient_fee_witness :
  fst (@fb_commonValidPreSeqNum sampleFeeBumpExternals feeBumpLowerRate
         (sampleLedger 13) (freshResult feeBumpLowerRate (sampleLedger 13))) = false
  /\ resultCode (snd (@fb_commonValidPreSeqNum sampleFeeBumpExternals feeBumpLowerRate
                        (sampleLedger 13)
                        (freshResult feeBumpLowerRate (sampleLedger 13))))
     = txINSUFFICIENT_FEE.
Proof.
  apply (proj1 (@fb_commonValidPreSeqNum_insufficient_fee sampleFeeBumpExternals
                  feeBumpLowerRate (sampleLedger 13)
                  (freshResult feeBumpLowerRate (sampleLedger 13)))).
  - vm_compute. discriminate.
  - vm_compute. reflexivity.
  - vm_compute. reflexivity.
Defined.

(** C5 as stated fails. At protocol 13 a fee bump whose outer rate equals
    the inner rate (400 for two operations, 200 for one) passes
    commonValidPreSeqNum with the result left at txFEE_BUMP_INNER_SUCCESS; at
    protocol 12 a fee bump with a lower outer rate fails with
    txNOT_SUPPORTED. *)
Lemma fb_commonValidPreSeqNum_accepts_equal_rate :
  outerRateEqualsInner feeBumpEqualRate
  /\ @fb_commonValidPreSeqNum sampleFeeBumpExternals feeBumpEqualRate
       (sampleLedger 13) (freshResult feeBumpEqualRate (sampleLedger 13))
     = (true, freshResult feeBumpEqualRate (sampleLedger 13))
  /\ resultCode (freshResult feeBumpEqualRate (sampleLedger 13))
     = txFEE_BUMP_INNER_SUCCESS
  /\ resultCode (snd (@fb_commonValidPreSeqNum sampleFeeBumpExternals feeBumpLowerRate
                        (sampleLedger 12)
                        (freshResult feeBumpLowerRate (sampleLedger 12))))
     = txNOT_SUPPORTED.
Proof. split; [|split; [|split]]; vm_compute; reflexivity. Qed.


(** C7 on a sample set that is valid at protocol 11. *)
Lemma checkValid_iff_witness :
  @checkValid polySHA sampleTxExternals sampleAccountExternals
    (lclV 11 100) (sampleLedger 11) setSorted = Some true
  /\ lclHash (lclV 11 100) = mPreviousLedgerHash setSorted
  /\ (forall tx, tx ∈ mTransactions setSorted ->
        @canAfford sampleAccountExternals (sampleLedger 11)
          (Z.min INT64_MAX (feeBidTotal (getFeeSourceID tx) (mTransactions setSorted)))
          tx).
Proof.
  assert (Forall (fun tx => 0 <= getFeeBid tx) (mTransactions setSorted)) as Hbids.
  { apply (bool_decide_unpack _). vm_compute. exact I. }
  pose proof (@checkValid_iff polySHA sampleTxExternals sampleAccountExternals
                (lclV 11 100) (sampleLedger 11) setSorted Hbids) as Hiff.
  assert (@checkValid polySHA sampleTxExternals sampleAccountExternals
            (lclV 11 100) (sampleLedger 11) setSorted = Some true) as Hvalid.
  { vm_compute. reflexivity. }
  split; [exact Hvalid|].
  destruct (proj1 Hiff Hvalid) as (Hprev & _ & _ & _ & Hfees).
  split; [exact Hprev | exact Hfees].
Defined.

(** C7 as stated fails at protocol 10: a set of one transaction with two
    operations is valid for maxTxSetSize = 1, although its size in
    operations exceeds it. *)
Lemma checkValid_counts_transactions_before_11 :
  @checkValid polySHA sampleTxExternals sampleAccountExternals
    (lclV 10 1) (sampleLedger 10) setTwoOps = Some true
  /\ sizeOp setTwoOps = 2%N
  /\ maxTxSetSize (lclHeader (lclV 10 1)) = 1%N.
Proof. split; [|split]; vm_compute; reflexivity. Qed.

Section HostExamples.
Import InvokeHostFunctionOpFrame.

(** In the sample ledger the persistent key loads an expired entry. *)
Lemma persistentKey_loadsExpired :
  @loadsExpired sampleHostExternals expiredLedger persistentKey.
Proof.
  exists (dataEntry persistentKey), (expirationEntry persistentKey 6).
  repeat split; vm_compute; reflexivity.
Qed.

(** C9 on the sample ledger: the footprint holds an expired temporary key
    followed by an expired persistent key. *)
Lemma doApply_expired_entry_witness :
  exists st',
    @doApply sampleHostExternals sampleConfig sampleResources
      INVOKE_HOST_FUNCTION_SUCCESS expiredLedger = Some (false, st')
    /\ innerResultCode st' = INVOKE_HOST_FUNCTION_ENTRY_EXPIRED
    /\ hostCalls st' = []
    /\ ltx st' = expiredLedger.
Proof.
  refine (proj2 (proj2 (@doApply_expired_entry sampleHostExternals sampleConfig
                          sampleResources persistentKey))
            INVOKE_HOST_FUNCTION_SUCCESS expiredLedger [temporaryKey] [] _ _ _ _ _).
  - reflexivity.
  - vm_compute. reflexivity.
  - exact persistentKey_loadsExpired.
  - reflexivity.
Defined.

End HostExamples.

(** C10 on a queue of two transactions. *)
Lemma AccountTransactionQueue_invariant_witness :
  exists q',
    TxSetUtils.popTopTx sampleQueue = Some q'
    /\ TxSetUtils.mTxs q' = [txA2] /\ queueInvariant q'.
Proof.
  apply (proj1 (proj2 (proj2 (proj2 AccountTransactionQueue_invariant)))
           sampleQueue txA1 [txA2]).
  - split.
    + unfold ascendingSeqNum. apply (bool_decide_unpack _). vm_compute. exact I.
    + vm_compute. reflexivity.
  - reflexivity.
Defined.

(** X8 on the sample fee bump of lower rate: the least inclusion fee at
    the rate of the inner transaction is 400. *)
Lemma fb_commonValidPreSeqNum_fee_hint_witness :
  exists q,
    feeCharged (snd (@fb_commonValidPreSeqNum sampleFeeBumpExternals feeBumpLowerRate
                       (sampleLedger 13)
                       (freshResult feeBumpLowerRate (sampleLedger 13))))
    = Z.min q INT64_MAX
    /\ tf_getInclusionFee (mInnerTx feeBumpLowerRate)
         * Z.max 1 (Z.of_N (fb_getNumOperations feeBumpLowerRate))
       <= q * Z.max 1 (Z.of_N (tf_getNumOperations (mInnerTx feeBumpLowerRate)))
    /\ (q - 1) * Z.max 1 (Z.of_N (tf_getNumOperations (mInnerTx feeBumpLowerRate)))
       < tf_getInclusionFee (mInnerTx feeBumpLowerRate)
           * Z.max 1 (Z.of_N (fb_getNumOperations feeBumpLowerRate)).
Proof.
  apply (@fb_commonValidPreSeqNum_fee_hint sampleFeeBumpExternals feeBumpLowerRate
           (sampleLedger 13) (freshResult feeBumpLowerRate (sampleLedger 13))).
  - vm_compute. discriminate.
  - reflexivity.
  - vm_compute. discriminate.
  - vm_compute. discriminate.
  - unfold outerRateBelowInner. vm_compute. reflexivity.
Defined.

(** X11 on the sample fee bump and ledger. *)
Lemma fb_processFeeSeqNum_conserves_witness :
  exists txResult ltx',
    fb_processFeeSeqNum feeBump201 (sampleLedger 13) (Some 100)
    = Some (txResult, ltx')
    /\ totalBalance ltx' + feePool (ltxHeader ltx')
       = totalBalance (sampleLedger 13) + feePool (ltxHeader (sampleLedger 13))
    /\ (forall id,
          is_Some (loadAccount ltx' id) <-> is_Some (loadAccount (sampleLedger 13) id))
    /\ (forall id,
          accSeqNum <$> loadAccount ltx' id
          = accSeqNum <$> loadAccount (sampleLedger 13) id)
    /\ ledgerVersion (ltxHeader ltx') = ledgerVersion (ltxHeader (sampleLedger 13))
    /\ ledgerSeq (ltxHeader ltx') = ledgerSeq (ltxHeader (sampleLedger 13))
    /\ baseFee (ltxHeader ltx') = baseFee (ltxHeader (sampleLedger 13))
    /\ maxTxSetSize (ltxHeader ltx') = maxTxSetSize (ltxHeader (sampleLedger 13)).
Proof.
  apply (fb_processFeeSeqNum_conserves feeBump201 (sampleLedger 13) (Some 100)
           {| balance := 150; accSeqNum := 0 |}).
  - reflexivity.
  - vm_compute. discriminate.
  - vm_compute. discriminate.
  - vm_compute. discriminate.
Defined.

(** X13 on the sample set. *)
Lemma toXDR_contents_hash_witness :
  (forall s0,
     is_sorted (@HashTxSorter polySHA) (mTransactions s0) = false ->
     @toXDR polySHA s0 = None)
  /\ exists txSet,
       @toXDR polySHA (snd (@getContentsHash polySHA setAB)) = Some txSet
       /\ ts_previousLedgerHash txSet = mPreviousLedgerHash setAB
       /\ ts_txs txSet ≡ₚ map getEnvelope (mTransactions setAB)
       /\ @sha256 polySHA
            (hashBytes (ts_previousLedgerHash txSet) ++ concat (ts_txs txSet))
          = fst (@getContentsHash polySHA setAB).
Proof.
  apply (@toXDR_contents_hash polySHA setAB).
  - reflexivity.
  - vm_compute. discriminate.
Defined.

(** X14 with the sample minimum fee, which is positive under a header of
    base fee 100. *)
Lemma SurgeCompare_strict_weak_order_witness :
  (forall p, @SurgeCompare polySHA sampleTxExternals 0%N (headerV 11 100) p p = false)
  /\ (forall p1 p2,
        @SurgeCompare polySHA sampleTxExternals 0%N (headerV 11 100) p1 p2 = true ->
        @SurgeCompare polySHA sampleTxExternals 0%N (headerV 11 100) p2 p1 = false)
  /\ (forall p1 p2 p3,
        @SurgeCompare polySHA sampleTxExternals 0%N (headerV 11 100) p1 p2 = true ->
        @SurgeCompare polySHA sampleTxExternals 0%N (headerV 11 100) p2 p3 = true ->
        @SurgeCompare polySHA sampleTxExternals 0%N (headerV 11 100) p1 p3 = true)
  /\ (forall p1 p2 p3,
        @SurgeCompare polySHA sampleTxExternals 0%N (headerV 11 100) p1 p2 = false ->
        @SurgeCompare polySHA sampleTxExternals 0%N (headerV 11 100) p2 p1 = false ->
        @SurgeCompare polySHA sampleTxExternals 0%N (headerV 11 100) p2 p3 = false ->
        @SurgeCompare polySHA sampleTxExternals 0%N (headerV 11 100) p3 p2 = false ->
        @SurgeCompare polySHA sampleTxExternals 0%N (headerV 11 100) p1 p3 = false
        /\ @SurgeCompare polySHA sampleTxExternals 0%N (headerV 11 100) p3 p1 = false)
  /\ (forall tx q other,
        @SurgeCompare polySHA sampleTxExternals 0%N (headerV 11 100) None
          (Some (tx :: q)) = true
        /\ @SurgeCompare polySHA sampleTxExternals 0%N (headerV 11 100) (Some [])
             (Some (tx :: q)) = true
        /\ @SurgeCompare polySHA sampleTxExternals 0%N (headerV 11 100) other None
           = false
        /\ @SurgeCompare polySHA sampleTxExternals 0%N (headerV 11 100) other (Some [])
           = false).
Proof.
  apply (@SurgeCompare_strict_weak_order polySHA sampleTxExternals 0%N (headerV 11 100)).
  intros tx. simpl. lia.
Defined.

(** X18 on the sorted sample set, the map being visited in the reverse
    of the order of [map_to_list]. *)
Lemma TxSetUtils_buildAccountTxQueues_spec_witness :
  exists queues,
    @TxSetUtils_buildAccountTxQueues reversedVisit (mTransactions setSorted)
    = Some queues
    /\ TxSetUtils.mTxs <$> queues
       ≡ₚ queuesOf (buildAccountTxQueues (mTransactions setSorted))
    /\ (forall a, ofAccount a (mTransactions setSorted) <> [] ->
          exists q, q ∈ queues
                    /\ TxSetUtils.mTxs q
                       = std_sort SeqSorter (ofAccount a (mTransactions setSorted)))
    /\ (forall q, q ∈ queues ->
          exists a, ofAccount a (mTransactions setSorted) <> []
                    /\ TxSetUtils.mTxs q
                       = std_sort SeqSorter (ofAccount a (mTransactions setSorted)))
    /\ Forall queueInvariant queues
    /\ Forall (fun q => TxSetUtils.mTxs q <> []) queues
    /\ concat (TxSetUtils.mTxs <$> queues) ≡ₚ mTransactions setSorted.
Proof.
  apply (@TxSetUtils_buildAccountTxQueues_spec reversedVisit
           (mTransactions setSorted)).
Defined.

(** Visited in that order, the queues of TxSetUtils::buildAccountTxQueues
    come in another order than those of the map of TxSetFrame. *)
Lemma TxSetUtils_buildAccountTxQueues_other_order :
  TxSetUtils.mTxs
    <$> default [] (@TxSetUtils_buildAccountTxQueues reversedVisit
                      (mTransactions setTwo))
  = reverse (queuesOf (buildAccountTxQueues (mTransactions setTwo)))
  /\ length (queuesOf (buildAccountTxQueues (mTransactions setTwo))) = 2%nat.
Proof. split; vm_compute; reflexivity. Qed.

(** removeTx on a frame of equal content behind another pointer removes
    nothing, and on the pointer of the set it removes the frame. *)
Lemma removeTx_other_pointer :
  mTransactions (removeTx txA1Copy setTwo) = [txA1; txB1]
  /\ mTransactions (removeTx txA1 setTwo) = [txB1].
Proof. split; vm_compute; reflexivity. Qed.

(** The int64 arithmetic of getFee and processFeeSeqNum overflows as
    the code does: a base fee of 2^62 for two operations gives a fee of
    -2^63, and a fee pool 100 short of INT64_MAX that takes 150 ends
    negative. *)
Lemma fb_getFee_overflow :
  fb_getFee feeBump201 (headerV 11 100) (Some (2 ^ 62)) true = - 2 ^ 63
  /\ (feePool <$> (ltxHeader <$> (snd <$> fb_processFeeSeqNum feeBump201
                                            fullPoolLedger (Some 100))))
     = Some (- 2 ^ 63 + 49).
Proof. split; vm_compute; reflexivity. Qed.

(** X19 on the sample queue, built from its two transactions given in
    descending order. *)
Lemma getTopTx_lowest_witness :
  TxSetUtils.empty sampleQueue = false
  /\ exists top,
       TxSetUtils.getTopTx sampleQueue = Some top
       /\ top ∈ txA2 :: [txA1]
       /\ (forall tx', tx' ∈ txA2 :: [txA1] -> getSeqNum top <= getSeqNum tx')
       /\ (forall q' next,
             TxSetUtils.popTopTx sampleQueue = Some q' ->
             TxSetUtils.getTopTx q' = Some next ->
             getSeqNum top <= getSeqNum next).
Proof.
  apply (getTopTx_lowest txA2 [txA1] sampleQueue).
  vm_compute. reflexivity.
Defined.

(** X21 on the sample set, of which trimInvalid leaves the two
    transactions of account 1. *)
Lemma trimInvalid_valid_witness :
  (exists st,
     @checkOrTrim sampleTxExternals sampleAccountExternals (sampleLedger 11) true []
       (snd trimOutcome) = Normal st)
  /\ (lclHash (lclV 11 100) = mPreviousLedgerHash trimSet ->
      (@size (lclHeader (lclV 11 100)) (snd trimOutcome)
       <= maxTxSetSize (lclHeader (lclV 11 100)))%N ->
      @checkValid polySHA sampleTxExternals sampleAccountExternals (lclV 11 100)
        (sampleLedger 11) (snd trimOutcome) = Some true).
Proof.
  apply (@trimInvalid_valid polySHA sampleTxExternals sampleAccountExternals
           (sampleLedger 11) trimSet (fst trimOutcome) (snd trimOutcome) (lclV 11 100)).
  - apply (bool_decide_unpack _). vm_compute. exact I.
  - unfold seqNumsDistinct. apply (bool_decide_unpack _). vm_compute. exact I.
  - vm_compute. reflexivity.
Defined.

(** X22 on the sorted sample set, which is valid and whose three
    operations exceed a budget of two. *)
Lemma surgePricingFilter_keeps_valid_witness :
  @checkValid polySHA sampleTxExternals sampleAccountExternals (lclV 11 100)
    (sampleLedger 11)
    (@surgePricingFilter polySHA sampleTxExternals (lclHeader (lclV 11 100)) 2%N 0%N
       setSorted)
  = Some true.
Proof.
  apply (@surgePricingFilter_keeps_valid polySHA sampleTxExternals
           sampleAccountExternals (lclV 11 100) (sampleLedger 11) 2%N 0%N setSorted).
  - apply (bool_decide_unpack _). vm_compute. exact I.
  - unfold seqNumsDistinct. apply (bool_decide_unpack _). vm_compute. exact I.
  - intros _. vm_compute. discriminate.
  - vm_compute. reflexivity.
Defined.

Section HostApplyExamples.
Import InvokeHostFunctionOpFrame.

(** X1 on the sample ledger with the writing host. *)
Lemma doApply_result_code_witness :
  innerResultCode writtenState = INVOKE_HOST_FUNCTION_SUCCESS
  /\ mSuccess (metrics writtenState) = true.
Proof.
  apply (@doApply_result_code writingHostExternals sampleConfig readWriteResources
           INVOKE_HOST_FUNCTION_MALFORMED liveLedger true writtenState).
  vm_compute. reflexivity.
Defined.

(** X2 on the sample ledger with the writing host. *)
Lemma doApply_host_call_witness :
  (hostCalls writtenState = [] /\ true = false /\ ltx writtenState = liveLedger
   /\ (innerResultCode writtenState = INVOKE_HOST_FUNCTION_RESOURCE_LIMIT_EXCEEDED
       \/ innerResultCode writtenState = INVOKE_HOST_FUNCTION_ENTRY_EXPIRED))
  \/ (hostCalls writtenState
      = [@gatheredInput writingHostExternals readWriteResources liveLedger]
      /\ (mLedgerReadByte (metrics writtenState) <= readBytes readWriteResources)%N
      /\ mReadEntry (metrics writtenState)
         = u32 (N.of_nat (length (footprintKeys readWriteResources)))
      /\ length (in_ledgerEntries
                   (@gatheredInput writingHostExternals readWriteResources liveLedger))
         = length (in_expirationEntries
                     (@gatheredInput writingHostExternals readWriteResources
                        liveLedger))
      /\ (length (in_ledgerEntries
                    (@gatheredInput writingHostExternals readWriteResources
                       liveLedger))
          <= length (footprintKeys readWriteResources))%nat).
Proof.
  apply (@doApply_host_call writingHostExternals sampleConfig readWriteResources
           INVOKE_HOST_FUNCTION_MALFORMED liveLedger true writtenState).
  vm_compute. reflexivity.
Defined.

(** X3 on the sample ledger with the sample host, whose call raises an
    exception. *)
Lemma doApply_host_failure_witness :
  false = false /\ ltx trappedState = liveLedger
  /\ innerResultCode trappedState
     = @hostFailureCode sampleConfig readWriteResources
         (@hostOutput sampleHostExternals readWriteResources liveLedger)
  /\ (@invoke_host_function sampleHostExternals
        (@gatheredInput sampleHostExternals readWriteResources liveLedger) = None ->
      innerResultCode trappedState = INVOKE_HOST_FUNCTION_TRAPPED).
Proof.
  apply (@doApply_host_failure sampleHostExternals sampleConfig readWriteResources
           INVOKE_HOST_FUNCTION_MALFORMED liveLedger false trappedState).
  - vm_compute. reflexivity.
  - vm_compute. discriminate.
  - vm_compute. reflexivity.
Defined.

(** X4 on the sample ledger with the writing host. *)
Lemma doApply_success_limits_witness :
  exists out,
    @invoke_host_function writingHostExternals
      (@gatheredInput writingHostExternals readWriteResources liveLedger) = Some out
    /\ success out = true
    /\ (mLedgerReadByte (metrics writtenState) <= readBytes readWriteResources)%N
    /\ (mLedgerWriteByte (metrics writtenState) <= writeBytes readWriteResources)%N
    /\ (mEmitEventByte (metrics writtenState)
        <= txMaxContractEventsSizeBytes sampleConfig)%N
    /\ Forall (fun b => validateContractLedgerEntry b.1 b.2 sampleConfig = true)
              (modified_ledger_entries out)
    /\ @consumeRefundableSorobanResources writingHostExternals
         (mEmitEventByte (metrics writtenState)) (rent_fee out) = true.
Proof.
  apply (@doApply_success_limits writingHostExternals sampleConfig readWriteResources
           INVOKE_HOST_FUNCTION_MALFORMED liveLedger writtenState).
  vm_compute. reflexivity.
Defined.

(** X5 on the sample ledger with the writing host: the temporary key,
    which the host did not return, is erased. *)
Lemma doApply_success_ledger_witness :
  (forall k,
     k ∈ notReturned readWriteResources
           (@hostOutput writingHostExternals readWriteResources liveLedger) ->
     load (ltx writtenState) k = None)
  /\ (forall k,
        k ∉ returnedKeys (@hostOutput writingHostExternals readWriteResources liveLedger) ->
        (forall lk,
           lk ∈ notReturned readWriteResources
                  (@hostOutput writingHostExternals readWriteResources liveLedger) ->
           k <> lk
           /\ (isSorobanEntry (lk_type lk) = true ->
               k <> @getExpirationKey writingHostExternals lk)) ->
        load (ltx writtenState) k = load liveLedger k).
Proof.
  apply (@doApply_success_ledger writingHostExternals sampleConfig readWriteResources
           INVOKE_HOST_FUNCTION_MALFORMED liveLedger writtenState).
  vm_compute. reflexivity.
Defined.

(** X6 on the sample ledger with the writing host. *)
Lemma doApply_metrics_witness :
  mLedgerReadByte (metrics writtenState)
  = u32 (mReadDataByte (metrics writtenState) + mReadCodeByte (metrics writtenState))
  /\ mLedgerWriteByte (metrics writtenState)
     = u32 (mWriteDataByte (metrics writtenState)
            + mWriteCodeByte (metrics writtenState))
  /\ mWriteKeyByte (metrics writtenState) = 0%N.
Proof.
  apply (@doApply_metrics writingHostExternals sampleConfig readWriteResources
           INVOKE_HOST_FUNCTION_MALFORMED liveLedger true writtenState).
  vm_compute. reflexivity.
Defined.

End HostApplyExamples.
